(** * Layer normalisation on CUDA: a shallow embedding of
    aten/src/ATen/native/cuda/layer_norm_kernel.cu

    Arithmetic model.  The element type [T] and the accumulation type
    [T_ACC = acc_type<T, true>] are both read as the exact reals, so every
    [static_cast<T_ACC>] is the identity: the kernels are described as they
    compute in exact arithmetic, without rounding and without overflow.
    The reals have no Inf and no NaN: an operation that has no real value
    (a division by zero, the reciprocal square root of a number that is not
    positive) yields [None].  The device does not stop there: it stores the
    Inf or NaN, or what later operations make of it, and goes on.  [None]
    says that what the thread stores is not described by exact arithmetic,
    and an entry point one of whose launches is in that case ends
    [OutsideReals].  Two kernels are given a second time at [T = double],
    where [T_ACC] is IEEE binary64 ([Module Double]), to show where the
    rounded arithmetic of the device departs from the exact one.

    Execution model.  A kernel is a function of [blockIdx] and [threadIdx]
    that returns the writes of that thread; a launch collects the writes of
    every thread of every block and commits them to the destination buffer.
    Sizes and the indices declared [int64_t] are natural numbers; a sum or
    product of [blockIdx.x], [blockDim.x] and [threadIdx.x], which are
    [unsigned int], is taken modulo 2^32 before it is widened ([uint32]).
    The entry points receive [int64_t] sizes, read as [Z]; a grid size is
    converted to [unsigned int] where it is passed to a launch
    ([grid_blocks]). *)

From Stdlib Require Import Reals Lra Lia List ZArith Bool Permutation PeanoNat.
From Stdlib Require Floats.PrimFloat Numbers.Cyclic.Int63.Uint63.
Import ListNotations.

Local Open Scope R_scope.

(** ** Partial arithmetic *)

Module Acc.

Definition bind {A B : Type} (m : option A) (k : A -> option B) : option B :=
  match m with
  | Some a => k a
  | None => None
  end.

(** [x / y] of the accumulation type. *)
Definition div (x y : R) : option R :=
  if Req_dec_T y 0 then None else Some (x / y).

(** Modelled from the spec: [c10::cuda::compat::rsqrt] is declared in
    c10/cuda/CUDAMathCompat.h, which is not part of the sources; the spec
    gives it as 1/sqrt. *)
Definition rsqrt (x : R) : option R :=
  if Rlt_dec 0 x then Some (/ sqrt x) else None.

(** Modelled from the spec: [c10::cuda::compat::max] is declared in
    c10/cuda/CUDAMathCompat.h, which is not part of the sources; the spec
    gives it as the max-with-zero clamp. *)
Definition max (x y : R) : R := Rmax x y.

End Acc.

Notation "x <- m ;; k" := (Acc.bind m (fun x => k))
  (at level 61, m at next level, right associativity).
Notation "' p <- m ;; k" := (Acc.bind m (fun p => k))
  (at level 61, p pattern, m at next level, right associativity).

(** [mapM f l]: run [f] on each element, left to right; no result as soon as
    one of them has none. *)
Fixpoint mapM {A B : Type} (f : A -> option B) (l : list A) : option (list B) :=
  match l with
  | [] => Some []
  | a :: l' => b <- f a ;; bs <- mapM f l' ;; Some (b :: bs)
  end.

(** ** Device buffers and writes *)

(** A [T*]: the memory reachable from the pointer, by element index. *)
Definition buffer := nat -> R.

(** [p[idx] = v]. *)
Abbreviation write := (nat * R)%type (only parsing).

Definition store (b : buffer) (w : write) : buffer :=
  fun k => if Nat.eqb k (fst w) then snd w else b k.

(** The writes of a launch, committed in the order of the list. *)
Definition commit (b : buffer) (ws : list write) : buffer :=
  fold_left store ws b.

(** How many writes of [ws] go to index [k]. *)
Definition writes_to (k : nat) (ws : list write) : nat :=
  length (filter (fun w => Nat.eqb (fst w) k) ws).

(** ** The grid-stride loop

    [for (int64_t j = start; j < N; j += stride) body(j)], threading the
    loop state [s].  The loop runs at most [N] times when [stride >= 1];
    [fuel] bounds the number of iterations. *)
Fixpoint for_stride {St : Type} (fuel : nat) (j N stride : nat)
    (body : nat -> St -> St) (s : St) : St :=
  match fuel with
  | O => s
  | S fuel' =>
    if Nat.ltb j N
    then for_stride fuel' (j + stride)%nat N stride body (body j s)
    else s
  end.

(** The columns visited by lane [t] of a block of [B] lanes. *)
Definition lane_cols (t N B : nat) : list nat :=
  filter (fun c => Nat.eqb (c mod B) t) (seq 0 N).

(** Sum of [f 0 .. f (n-1)]. *)
Definition sumn (n : nat) (f : nat -> R) : R :=
  fold_right (fun j acc => f j + acc) 0 (seq 0 n).

(** Sum of [f] over a list of indices. *)
Definition suml (l : list nat) (f : nat -> R) : R :=
  fold_right (fun j acc => f j + acc) 0 l.

(** ** Constants *)

Definition kCUDANumThreads : nat := 256.
Definition kColwiseReduceTileSize : nat := 32.

(** Modelled from the spec: [C10_WARP_SIZE] is a macro of c10/macros, which
    is not part of the sources.  The spec ties the reference tile width 32 to
    the lane-group width of the device, and the tiled kernel reduces one
    tile row per lane group, so the lane group has 32 lanes. *)
Definition C10_WARP_SIZE : nat := 32.

(** The number of halving steps of a reduction over one lane group:
    [C10_WARP_SIZE = 2 ^ warp_steps]. *)
Definition warp_steps : nat := 5.

(** The value of an expression of type [unsigned int] (32 bits) whose
    mathematical value is [n]: unsigned arithmetic wraps around. *)
Definition uint32 (n : nat) : nat := Z.to_nat (Z.of_nat n mod 2 ^ 32)%Z.

(** ** ReductionPrimitives (ATen/native/cuda/block_reduce.cuh) *)

Section Reduce.

Context {T : Type}.
Variable op : T -> T -> T.
Variable ident : T.

(** Modelled from the spec: [WARP_SHFL_DOWN] is not part of the sources.
    Lane [lane] reads the value held by lane [lane + offset] of its group; a
    lane whose source is outside the group keeps its own value. *)
Definition shfl_down (v : nat -> T) (offset lane : nat) : T :=
  if Nat.ltb (lane + offset)%nat C10_WARP_SIZE
  then v (lane + offset)%nat
  else v lane.

(** The steps of the halving loop with offsets [2^(k-1), ..., 2, 1]. *)
Fixpoint warp_halve (k : nat) (v : nat -> T) : nat -> T :=
  match k with
  | O => v
  | S k' => warp_halve k' (fun lane => op (v lane) (shfl_down v (2 ^ k')%nat lane))
  end.

(** Modelled from the spec: [cuda_utils::WarpReduceSum] (and the moments
    variant) is defined in block_reduce.cuh, which is not part of the
    sources.  The spec describes a combine that halves the active lane count
    step by step and leaves the result visible to lane 0.  [v] gives the
    value held by each lane of the group; the result is the value each lane
    holds afterwards. *)
Definition WarpReduce (v : nat -> T) : nat -> T :=
  warp_halve warp_steps v.

(** The reduction over the lane group of thread [tid], when [v] gives the
    value held by each thread of the block by its linear index. *)
Definition warp_collective (v : nat -> T) (tid : nat) : T :=
  WarpReduce (fun lane => v (tid / C10_WARP_SIZE * C10_WARP_SIZE + lane)%nat)
             (tid mod C10_WARP_SIZE).

(** Modelled from the spec: [cuda_utils::BlockReduceSum] and
    [cuda_utils::BlockReduceMoments] are defined in block_reduce.cuh, which
    is not part of the sources.  Following the spec: each lane group combines
    its lanes; lane 0 of each group writes the group's value to a shared
    scratch buffer sized to the number of groups; after the barrier the
    first group reads the scratch buffer, lanes beyond the number of groups
    masked to the identity element, and combines again.  [v] gives the value
    held by each thread of the block; the result is the value returned to
    thread [tid], the combined value being the one returned to thread 0. *)
Definition BlockReduce (blockDim : nat) (v : nat -> T) (tid : nat) : T :=
  let lid := tid mod C10_WARP_SIZE in
  let wid := (tid / C10_WARP_SIZE)%nat in
  let shared :=
    map (fun w => warp_collective v (w * C10_WARP_SIZE)%nat)
        (seq 0 (blockDim / C10_WARP_SIZE)%nat) in
  let val (t : nat) :=
    if Nat.ltb t (blockDim / C10_WARP_SIZE)%nat
    then nth (t mod C10_WARP_SIZE) shared ident
    else ident in
  if Nat.eqb wid 0 then warp_collective val tid else val tid.

End Reduce.

Definition WarpReduceSum := WarpReduce Rplus.
Definition BlockReduceSum := BlockReduce Rplus 0.

(** The running triple of the moment pass: count, mean, sum of squared
    deviations. *)
Definition moments := (nat * R * R)%type.

(** The triple of a lane that saw no sample. *)
Definition no_sample : moments := (O, 0, 0).

(** Modelled from the spec: the merge of two triples used by
    [BlockReduceMoments] (block_reduce.cuh, not part of the sources).
    Merging (countA, meanA, M2A) and (countB, meanB, M2B) yields the combined
    count, the weighted mean, and
    M2A + M2B + delta^2 * countA * countB / combinedCount; the triple of no
    sample is the identity element. *)
Definition merge (a b : moments) : moments :=
  let '(nA, meanA, m2A) := a in
  let '(nB, meanB, m2B) := b in
  let n := (nA + nB)%nat in
  if Nat.eqb n 0 then no_sample
  else
    let delta := meanB - meanA in
    (n,
     (INR nA * meanA + INR nB * meanB) / INR n,
     m2A + m2B + delta * delta * INR nA * INR nB / INR n).

Definition BlockReduceMoments := BlockReduce merge no_sample.

(** ** Launches *)

(** The threads of a launch [<<<grid, block>>>], as (blockIdx, threadIdx),
    block by block. *)
Definition grid_threads (grid block : nat) : list (nat * nat) :=
  flat_map (fun b => map (fun t => (b, t)) (seq 0 block)) (seq 0 grid).

(** [kernel<<<grid, block>>>] for a kernel that writes one buffer. *)
Definition launch (grid block : nat) (kernel : nat -> nat -> list write)
    : list write :=
  flat_map (fun bt => kernel (fst bt) (snd bt)) (grid_threads grid block).

(** [kernel<<<grid, block>>>] for a kernel that writes two buffers. *)
Definition launch2 (grid block : nat)
    (kernel : nat -> nat -> list write * list write)
    : list write * list write :=
  (flat_map (fun bt => fst (kernel (fst bt) (snd bt))) (grid_threads grid block),
   flat_map (fun bt => snd (kernel (fst bt) (snd bt))) (grid_threads grid block)).

(** [kernel<<<grid, block>>>] for a kernel that writes two buffers and whose
    arithmetic is partial. *)
Definition launch2_partial (grid block : nat)
    (kernel : nat -> nat -> option (list write * list write))
    : option (list write * list write) :=
  rs <- mapM (fun bt => kernel (fst bt) (snd bt)) (grid_threads grid block) ;;
  Some (flat_map fst rs, flat_map snd rs).

(** A [const T*] that may be [nullptr]: the value read at [j], or [dflt]
    when there is no buffer. *)
Definition read_or (p : option buffer) (dflt : R) (j : nat) : R :=
  match p with
  | None => dflt
  | Some b => b j
  end.

(** ** Kernels

    Each kernel takes its arguments as in the source, then [blockDim],
    [blockIdx] and [threadIdx]. *)

(** One step of the streaming fold of [RowwiseMomentsCUDAKernel] on the
    sample [x]. *)
Definition moments_step (x : R) (st : option moments) : option moments :=
  '(m0, m1, m2) <- st ;;
  let delta := x - m1 in
  let m0 := S m0 in
  q <- Acc.div delta (INR m0) ;;
  let m1 := m1 + q in
  let m2 := m2 + delta * (x - m1) in
  Some (m0, m1, m2).

(** The triple held by thread [t] of block [i] after its loop. *)
Definition moments_lane (N : nat) (X : buffer) (blockDim i t : nat)
    : option moments :=
  for_stride N t N blockDim
    (fun j st => let index := (i * N + j)%nat in moments_step (X index) st)
    (Some no_sample).

(** The writes go to [mean] and [rstd], in this order. *)
Definition RowwiseMomentsCUDAKernel (N : nat) (eps : R) (X : buffer)
    (blockDim blockIdx threadIdx : nat) : option (list write * list write) :=
  let i := blockIdx in
  lanes <- mapM (moments_lane N X blockDim i) (seq 0 blockDim) ;;
  let '(m0, m1, m2) :=
    BlockReduceMoments blockDim (fun t => nth t lanes no_sample) threadIdx in
  if Nat.eqb threadIdx 0 then
    q <- Acc.div m2 (INR N) ;;
    let m2 := Acc.max q 0 in
    r <- Acc.rsqrt (m2 + eps) ;;
    Some ([(i, m1)], [(i, r)])
  else Some ([], []).

Definition LayerNormForwardCUDAKernel (N : nat) (X mean rstd : buffer)
    (gamma beta : option buffer) (blockDim blockIdx threadIdx : nat)
    : list write :=
  let i := blockIdx in
  for_stride N threadIdx N blockDim
    (fun j Y =>
       let index := (i * N + j)%nat in
       let gamma_v := read_or gamma 1 j in
       let beta_v := read_or beta 0 j in
       Y ++ [(index, (X index - mean i) * rstd i * gamma_v + beta_v)])
    [].

(** The pair of partial sums held by thread [t] of block [i] after its
    loop. *)
Definition internal_gradients_lane (N : nat) (dY X : buffer)
    (gamma : option buffer) (blockDim i t : nat) : R * R :=
  for_stride N t N blockDim
    (fun j '(sum1, sum2) =>
       let index := (i * N + j)%nat in
       let gamma_v := read_or gamma 1 j in
       (sum1 + dY index * X index * gamma_v, sum2 + dY index * gamma_v))
    (0, 0).

(** The writes go to [ds] and [db], in this order. *)
Definition ComputeInternalGradientsCUDAKernel (N : nat) (dY X : buffer)
    (gamma : option buffer) (blockDim blockIdx threadIdx : nat)
    : list write * list write :=
  let i := blockIdx in
  let lane := internal_gradients_lane N dY X gamma blockDim i in
  let sum1 := BlockReduceSum blockDim (fun t => fst (lane t)) threadIdx in
  let sum2 := BlockReduceSum blockDim (fun t => snd (lane t)) threadIdx in
  if Nat.eqb threadIdx 0 then ([(i, sum1)], [(i, sum2)]) else ([], []).

(** The writes go to [c1] and [c2], in this order. *)
Definition ComputeGradientFusedParamsCUDAKernel (M N : nat)
    (mean rstd ds db : buffer) (blockDim blockIdx threadIdx : nat)
    : option (list write * list write) :=
  let index := uint32 (blockIdx * blockDim + threadIdx) in
  if Nat.ltb index M then
    s <- Acc.div 1 (INR N) ;;
    let a :=
      (db index * mean index - ds index) *
      rstd index * rstd index * rstd index * s in
    Some ([(index, a)],
          [(index, - (a * mean index + db index * rstd index * s))])
  else Some ([], []).

Definition LayerNormBackwardCUDAKenrel (N : nat) (dY X : buffer)
    (gamma : option buffer) (a b c : buffer)
    (blockDim blockIdx threadIdx : nat) : list write :=
  let i := blockIdx in
  for_stride N threadIdx N blockDim
    (fun j dX =>
       let index := (i * N + j)%nat in
       let gamma_v := read_or gamma 1 j in
       dX ++ [(index, a i * dY index * gamma_v + b i * X index + c i)])
    [].

(** The term added to the [dg] sum for the element at row [i], flat index
    [index]: zero when [dg] is [nullptr]. *)
Definition dg_term (dY X mean rstd : buffer) (dg : option buffer)
    (i index : nat) : R :=
  match dg with
  | None => 0
  | Some _ => dY index * (X index - mean i) * rstd i
  end.

(** The term added to the [db] sum for the element at flat index [index]:
    zero when [db] is [nullptr]. *)
Definition db_term (dY : buffer) (db : option buffer) (index : nat) : R :=
  match db with
  | None => 0
  | Some _ => dY index
  end.

(** A guarded store [if (p != nullptr) p[j] = v]. *)
Definition store_if (p : option buffer) (j : nat) (v : R) : list write :=
  match p with
  | None => []
  | Some _ => [(j, v)]
  end.

(** The writes go to [dg] and [db], in this order. *)
Definition GammaBetaBackwardSimpleCUDAKernel (M N : nat)
    (dY X mean rstd : buffer) (dg db : option buffer)
    (blockDim blockIdx threadIdx : nat) : list write * list write :=
  let j := uint32 (blockIdx * blockDim + threadIdx) in
  if Nat.ltb j N then
    let '(sum1, sum2) :=
      for_stride M 0 M 1
        (fun i '(sum1, sum2) =>
           let index := (i * N + j)%nat in
           (sum1 + dg_term dY X mean rstd dg i index,
            sum2 + db_term dY db index))
        (0, 0) in
    (store_if dg j sum1, store_if db j sum2)
  else ([], []).

(** The four partial sums [(dg_sum1, dg_sum2, db_sum1, db_sum2)] held by
    thread [(tx, ty)] of block [blockIdx] of the tiled kernel after its
    loop. *)
Definition gamma_beta_lane (M N : nat) (dY X mean rstd : buffer)
    (dg db : option buffer) (blockDim_x blockDim_y blockIdx tx ty : nat)
    : R * R * R * R :=
  let j := uint32 (blockIdx * blockDim_x + tx) in
  if Nat.ltb j N then
    for_stride M ty M (blockDim_y * 2)
      (fun i '(dg_sum1, dg_sum2, db_sum1, db_sum2) =>
         let i1 := i in
         let i2 := (i + blockDim_y)%nat in
         let index1 := (i1 * N + j)%nat in
         let index2 := (i2 * N + j)%nat in
         let dg_sum1 := dg_sum1 + dg_term dY X mean rstd dg i1 index1 in
         let db_sum1 := db_sum1 + db_term dY db index1 in
         if Nat.ltb i2 M then
           (dg_sum1, dg_sum2 + dg_term dY X mean rstd dg i2 index2,
            db_sum1, db_sum2 + db_term dY db index2)
         else (dg_sum1, dg_sum2, db_sum1, db_sum2))
      (0, 0, 0, 0)
  else (0, 0, 0, 0).

(** The flat index of [a[r][c]] in a shared array declared
    [a[kColwiseReduceTileSize][kColwiseReduceTileSize + 1]]. *)
Definition tile_index (r c : nat) : nat :=
  (r * (kColwiseReduceTileSize + 1) + c)%nat.

(** The writes of thread [(tx, ty)] to [g_shared] and [b_shared] before
    the barrier. *)
Definition gamma_beta_shared_writes (M N : nat) (dY X mean rstd : buffer)
    (dg db : option buffer) (blockDim_x blockDim_y blockIdx tx ty : nat)
    : list write * list write :=
  let '(dg_sum1, dg_sum2, db_sum1, db_sum2) :=
    gamma_beta_lane M N dY X mean rstd dg db blockDim_x blockDim_y
                    blockIdx tx ty in
  ([(tile_index ty tx, dg_sum1); (tile_index (ty + blockDim_y) tx, dg_sum2)],
   [(tile_index ty tx, db_sum1); (tile_index (ty + blockDim_y) tx, db_sum2)]).

(** The block has [blockDim_x * blockDim_y] threads; thread [(tx, ty)] has
    linear index [ty * blockDim_x + tx].  [smem] is the content of the
    shared arrays when the block starts, which the source leaves
    uninitialised.  The writes go to [dg] and [db], in this order. *)
Definition GammaBetaBackwardCUDAKernel (M N : nat) (dY X mean rstd : buffer)
    (dg db : option buffer) (smem : buffer)
    (blockDim_x blockDim_y blockIdx tx ty : nat) : list write * list write :=
  let block := grid_threads blockDim_y blockDim_x in
  let shared_writes yx :=
    gamma_beta_shared_writes M N dY X mean rstd dg db blockDim_x blockDim_y
                             blockIdx (snd yx) (fst yx) in
  (* __syncthreads() *)
  let g_shared := commit smem (flat_map (fun yx => fst (shared_writes yx)) block) in
  let b_shared := commit smem (flat_map (fun yx => snd (shared_writes yx)) block) in
  let tid := (ty * blockDim_x + tx)%nat in
  let of_thread (a : buffer) (shift : nat) (t : nat) :=
    a (tile_index (t mod blockDim_x) (t / blockDim_x + shift)) in
  let sum1 := warp_collective Rplus (of_thread g_shared 0%nat) tid in
  let sum2 := warp_collective Rplus (of_thread b_shared 0%nat) tid in
  let first :=
    if Nat.eqb tx 0 then
      let j := uint32 (blockIdx * blockDim_x + ty) in
      if Nat.ltb j N then (store_if dg j sum1, store_if db j sum2)
      else ([], [])
    else ([], []) in
  let sum1 := warp_collective Rplus (of_thread g_shared blockDim_y) tid in
  let sum2 := warp_collective Rplus (of_thread b_shared blockDim_y) tid in
  let second :=
    if Nat.eqb tx 0 then
      let j := uint32 (blockIdx * blockDim_x + ty + blockDim_y) in
      if Nat.ltb j N then (store_if dg j sum1, store_if db j sum2)
      else ([], [])
    else ([], []) in
  (fst first ++ fst second, snd first ++ snd second).

(** ** Two kernels at [T = double]

    For [T = double], [acc_type<double, true>] is [double]: the loads, the
    accumulators and the stores are IEEE binary64 numbers, and every
    operation rounds to nearest.  The two kernels below are the moment pass
    and the simple parameter-gradient kernel, written as above with the
    binary64 operations in place of the exact ones. *)

Module Double.

Import PrimFloat.

Definition buffer := nat -> float.

(** [static_cast<T_ACC>(n)] for an [int64_t] that is not negative. *)
Definition of_int64 (n : nat) : float :=
  of_uint63 (Uint63.of_Z (Z.of_nat n)).

Definition moments := (nat * float * float)%type.

Definition no_sample : moments := (O, zero, zero).

(** Modelled from the spec: the merge of two triples, as [merge] above, in
    binary64. *)
Definition merge (a b : moments) : moments :=
  let '(nA, meanA, m2A) := a in
  let '(nB, meanB, m2B) := b in
  let n := (nA + nB)%nat in
  if Nat.eqb n 0 then no_sample
  else
    let delta := sub meanB meanA in
    (n,
     div (add (mul (of_int64 nA) meanA) (mul (of_int64 nB) meanB))
         (of_int64 n),
     add (add m2A m2B)
         (div (mul (mul (mul delta delta) (of_int64 nA)) (of_int64 nB))
              (of_int64 n))).

Definition BlockReduceMoments := BlockReduce merge no_sample.

(** Modelled from the spec: [c10::cuda::compat::rsqrt], given as 1/sqrt. *)
Definition rsqrt (x : float) : float := div one (sqrt x).

(** Modelled from the spec: [c10::cuda::compat::max], the larger of two
    numbers; of a NaN and a number, the number. *)
Definition max (x y : float) : float :=
  if ltb x y then y else if eqb x x then x else y.

Definition moments_step (x : float) (st : moments) : moments :=
  let '(m0, m1, m2) := st in
  let delta := sub x m1 in
  let m0 := S m0 in
  let m1 := add m1 (div delta (of_int64 m0)) in
  let m2 := add m2 (mul delta (sub x m1)) in
  (m0, m1, m2).

Definition moments_lane (N : nat) (X : buffer) (blockDim i t : nat)
    : moments :=
  for_stride N t N blockDim
    (fun j st => let index := (i * N + j)%nat in moments_step (X index) st)
    no_sample.

(** The writes go to [mean] and [rstd], in this order. *)
Definition RowwiseMomentsCUDAKernel (N : nat) (eps : float) (X : buffer)
    (blockDim blockIdx threadIdx : nat)
    : list (nat * float) * list (nat * float) :=
  let i := blockIdx in
  let '(m0, m1, m2) :=
    BlockReduceMoments blockDim (moments_lane N X blockDim i) threadIdx in
  if Nat.eqb threadIdx 0 then
    let m2 := max (div m2 (of_int64 N)) zero in
    ([(i, m1)], [(i, rsqrt (add m2 eps))])
  else ([], []).

(** The writes go to [dg] and [db], in this order. *)
Definition GammaBetaBackwardSimpleCUDAKernel (M N : nat)
    (dY X mean rstd : buffer) (dg db : option buffer)
    (blockDim blockIdx threadIdx : nat)
    : list (nat * float) * list (nat * float) :=
  let j := uint32 (blockIdx * blockDim + threadIdx) in
  if Nat.ltb j N then
    let '(sum1, sum2) :=
      for_stride M 0 M 1
        (fun i '(sum1, sum2) =>
           let index := (i * N + j)%nat in
           (add sum1
              match dg with
              | None => zero
              | Some _ => mul (mul (dY index) (sub (X index) (mean i))) (rstd i)
              end,
            add sum2
              match db with
              | None => zero
              | Some _ => dY index
              end))
        (zero, zero) in
    (match dg with None => [] | Some _ => [(j, sum1)] end,
     match db with None => [] | Some _ => [(j, sum2)] end)
  else ([], []).

(** A row of 513 finite numbers: [2^600] in column 0, [-2^600] in column
    512, zero elsewhere. *)
Definition wide_row : buffer :=
  fun k =>
    if Nat.eqb k 0 then 0x1p+600%float
    else if Nat.eqb k 512 then (-0x1p+600)%float
    else zero.

Definition small_eps : float := 0x1p-17%float.

(** A column of three rows, [2^53], [1] and [-2^53], and the same column
    with its last two rows exchanged. *)
Definition column_a : buffer :=
  fun k =>
    match k with
    | 0%nat => 0x1p+53%float
    | 1%nat => one
    | _ => (-0x1p+53)%float
    end.

Definition column_b : buffer :=
  fun k =>
    match k with
    | 0%nat => 0x1p+53%float
    | 1%nat => (-0x1p+53)%float
    | _ => one
    end.

End Double.

(** ** Host side *)

(** A defined [Tensor]: its element count and its storage. *)
Record Tensor : Type := mkTensor { numel : Z; data_ptr : buffer }.

(** The same tensor after a kernel wrote [ws] through its data pointer. *)
Definition written (t : Tensor) (ws : list write) : Tensor :=
  mkTensor (numel t) (commit (data_ptr t) ws).

(** [t.defined() ? t.data_ptr<T>() : nullptr].  [TensorImpl] and the
    allocator are not part of the sources: a tensor without elements has no
    storage, and its data pointer is null. *)
Definition data_or_null (t : option Tensor) : option buffer :=
  match t with
  | Some t => if Z.eqb (numel t) 0 then None else Some (data_ptr t)
  | None => None
  end.

(** [!t.defined() || t.numel() == n] *)
Definition undefined_or_numel (t : option Tensor) (n : Z) : bool :=
  match t with
  | None => true
  | Some t => Z.eqb (numel t) n
  end.

(** [a * b] on [int64_t], with the wrap-around of the 64-bit product.
    Signed overflow is undefined in C++; the properties below that depend on
    the product assume that it fits ([fits_int64]). *)
Definition mul64 (a b : Z) : Z :=
  ((a * b + 2 ^ 63) mod 2 ^ 64 - 2 ^ 63)%Z.

(** The largest [gridDim.x] of a launch ([cudaDeviceProp::maxGridSize[0]]
    of the devices the file is compiled for); the CUDA runtime is not part
    of the sources. *)
Definition maxGridSize : Z := (2 ^ 31 - 1)%Z.

(** The number of blocks that [kernel<<<g, ...>>>] runs when the grid is
    the [int64_t] value [g]: the grid of a launch is a [dim3], whose fields
    are [unsigned int], so [g] is converted modulo 2^32; a grid of more than
    [maxGridSize] blocks, like a grid of no block, is an invalid
    configuration, for which no block runs (the status that
    [cudaGetLastError()] then reports is not [cudaSuccess]). *)
Definition grid_blocks (g : Z) : nat :=
  let d := (g mod 2 ^ 32)%Z in
  if Z.leb d maxGridSize then Z.to_nat d else 0%nat.

Inductive cudaError_t : Type :=
| cudaSuccess
| cudaErrorLaunch.

Inductive error : Type :=
| TorchCheckError
| CudaError.

(** How a call ends: it returns, it throws, or it computed a value that is
    not a real number (Inf or NaN on the device), for which the model has no
    buffer content. *)
Inductive outcome : Type :=
| Returned
| Threw (e : error)
| OutsideReals.

(** [TORCH_CHECK(cond)] followed by [rest], on the output state [s]. *)
Definition TORCH_CHECK {St : Type} (cond : bool)
    (rest : St -> outcome * St) (s : St) : outcome * St :=
  if cond then rest s else (Threw TorchCheckError, s).

(** [AT_CUDA_CHECK(cudaGetLastError())] at the end of a call. *)
Definition AT_CUDA_CHECK {St : Type} (e : cudaError_t) (s : St)
    : outcome * St :=
  match e with
  | cudaSuccess => (Returned, s)
  | cudaErrorLaunch => (Threw CudaError, s)
  end.

Section Host.

(** [cuda_utils::kCUDABlockReduceNumThreads] is defined in
    block_reduce.cuh, which is not part of the sources. *)
Variable kCUDABlockReduceNumThreads : nat.

(** The status that [cudaGetLastError()] reports after the launches. *)
Variable cudaGetLastError : cudaError_t.

(** The content of memory that is allocated and not initialised
    ([at::empty], [__shared__] arrays). *)
Variable uninit : buffer.

(** The output tensors [Y], [mean], [rstd] of the forward entry point. *)
Definition forward_out : Type := (Tensor * Tensor * Tensor)%type.

(** The two launches of the forward entry point, on the data pointers,
    when they run [M] blocks. *)
Definition forward_launches (M N : nat) (eps : R) (X_data : buffer)
    (gamma_data beta_data : option buffer) (out : forward_out)
    : option forward_out :=
  let '(Y, mean, rstd) := out in
  '(mean_ws, rstd_ws) <-
    launch2_partial M kCUDABlockReduceNumThreads
      (RowwiseMomentsCUDAKernel N eps X_data kCUDABlockReduceNumThreads) ;;
  let mean := written mean mean_ws in
  let rstd := written rstd rstd_ws in
  let Y_ws :=
    launch M kCUDANumThreads
      (LayerNormForwardCUDAKernel N X_data (data_ptr mean) (data_ptr rstd)
         gamma_data beta_data kCUDANumThreads) in
  Some (written Y Y_ws, mean, rstd).

Definition LayerNormKernelImplInternal (X : Tensor)
    (gamma beta : option Tensor) (M N : Z) (eps : R)
    : forward_out -> outcome * forward_out :=
  TORCH_CHECK (Z.eqb (numel X) (mul64 M N))
  (TORCH_CHECK (undefined_or_numel gamma N)
  (TORCH_CHECK (undefined_or_numel beta N)
  (fun out =>
     if Z.eqb M 0 then (Returned, out)
     else
       match forward_launches (grid_blocks M) (Z.to_nat N) eps (data_ptr X)
               (data_or_null gamma) (data_or_null beta) out with
       | None => (OutsideReals, out)
       | Some out' => AT_CUDA_CHECK cudaGetLastError out'
       end))).

(** The output tensors [dX], [dgamma], [dbeta] of the backward entry point;
    [None] is a tensor that is not defined. *)
Definition backward_out : Type :=
  (option Tensor * option Tensor * option Tensor)%type.

(** The three launches that compute [dX], on the data pointers, when the
    launches by row run [rows] blocks and the coefficient pass runs [coef]
    blocks.  [ds], [db], [scale] and [bias] come from [at::empty]. *)
Definition backward_dX_launches_on (rows coef : nat) (M N : nat)
    (dY_data X_data : buffer) (mean_data rstd_data : buffer)
    (gamma_data : option buffer) (dX : Tensor) : option Tensor :=
  let '(ds_ws, db_ws) :=
    launch2 rows kCUDABlockReduceNumThreads
      (ComputeInternalGradientsCUDAKernel N dY_data X_data gamma_data
         kCUDABlockReduceNumThreads) in
  let ds_data := commit uninit ds_ws in
  let db_data := commit uninit db_ws in
  '(scale_ws, bias_ws) <-
    launch2_partial coef kCUDANumThreads
      (ComputeGradientFusedParamsCUDAKernel M N mean_data rstd_data
         ds_data db_data kCUDANumThreads) ;;
  let scale_data := commit uninit scale_ws in
  let bias_data := commit uninit bias_ws in
  Some (written dX
          (launch rows kCUDANumThreads
             (LayerNormBackwardCUDAKenrel N dY_data X_data gamma_data
                rstd_data scale_data bias_data kCUDANumThreads))).

(** The same launches when the grids hold what the entry point asks for:
    [M] blocks by row, and [B = (M + kCUDANumThreads - 1) / kCUDANumThreads]
    blocks for the coefficient pass. *)
Definition backward_dX_launches (M N : nat) (dY_data X_data : buffer)
    (mean_data rstd_data : buffer) (gamma_data : option buffer)
    (dX : Tensor) : option Tensor :=
  let B :=
    Z.to_nat (Z.quot (Z.of_nat M + Z.of_nat kCUDANumThreads - 1)
                     (Z.of_nat kCUDANumThreads)) in
  backward_dX_launches_on M B M N dY_data X_data mean_data rstd_data
    gamma_data dX.

(** [kernel<<<B, dim3(kThreadX, kThreadY)>>>] for the tiled kernel. *)
Definition launch2_xy (grid kThreadX kThreadY : nat)
    (kernel : nat -> nat -> nat -> list write * list write)
    : list write * list write :=
  launch2 grid (kThreadX * kThreadY)
    (fun b t => kernel b (t mod kThreadX)%nat (t / kThreadX)%nat).

(** The launch that computes [dgamma] and [dbeta], on the data pointers:
    the writes to [dgamma] and to [dbeta]. *)
Definition backward_gamma_beta_launch (M N : Z) (dY_data X_data : buffer)
    (mean_data rstd_data : buffer) (dgamma_data dbeta_data : option buffer)
    : list write * list write :=
  if Z.ltb M 512 then
    let B :=
      Z.quot (N + Z.of_nat kCUDANumThreads - 1) (Z.of_nat kCUDANumThreads) in
    launch2 (grid_blocks B) kCUDANumThreads
      (GammaBetaBackwardSimpleCUDAKernel (Z.to_nat M) (Z.to_nat N)
         dY_data X_data mean_data rstd_data dgamma_data dbeta_data
         kCUDANumThreads)
  else
    let B :=
      Z.quot (N + Z.of_nat kColwiseReduceTileSize - 1)
             (Z.of_nat kColwiseReduceTileSize) in
    let kThreadX := kColwiseReduceTileSize in
    let kThreadY := (kColwiseReduceTileSize / 2)%nat in
    launch2_xy (grid_blocks B) kThreadX kThreadY
      (GammaBetaBackwardCUDAKernel (Z.to_nat M) (Z.to_nat N)
         dY_data X_data mean_data rstd_data dgamma_data dbeta_data uninit
         kThreadX kThreadY).

Definition LayerNormBackwardKernelImplInternal (dY X mean rstd : Tensor)
    (gamma : option Tensor) (M N : Z)
    : backward_out -> outcome * backward_out :=
  TORCH_CHECK (Z.eqb (numel dY) (mul64 M N))
  (TORCH_CHECK (Z.eqb (numel X) (mul64 M N))
  (TORCH_CHECK (Z.eqb (numel mean) M)
  (TORCH_CHECK (Z.eqb (numel rstd) M)
  (TORCH_CHECK (undefined_or_numel gamma N)
  (fun out =>
     if Z.eqb M 0 then (Returned, out)
     else
       let '(dX, dgamma, dbeta) := out in
       let dX' :=
         match dX, data_or_null dX with
         | Some dX_t, Some _ =>
             let B :=
               Z.quot (M + Z.of_nat kCUDANumThreads - 1)
                      (Z.of_nat kCUDANumThreads) in
             option_map Some
               (backward_dX_launches_on (grid_blocks M) (grid_blocks B)
                  (Z.to_nat M) (Z.to_nat N)
                  (data_ptr dY) (data_ptr X) (data_ptr mean) (data_ptr rstd)
                  (data_or_null gamma) dX_t)
         | _, _ => Some dX
         end in
       match dX' with
       | None => (OutsideReals, out)
       | Some dX' =>
           if match dgamma, dbeta with None, None => false | _, _ => true end
           then
             let '(dg_ws, db_ws) :=
               backward_gamma_beta_launch M N (data_ptr dY) (data_ptr X)
                 (data_ptr mean) (data_ptr rstd)
                 (data_or_null dgamma) (data_or_null dbeta) in
             AT_CUDA_CHECK cudaGetLastError
               (dX',
                option_map (fun t => written t dg_ws) dgamma,
                option_map (fun t => written t db_ws) dbeta)
           else AT_CUDA_CHECK cudaGetLastError (dX', dgamma, dbeta)
       end))))).

End Host.

(** ** Reference quantities used in the statements *)

(** [a 0 + ... + a (n-1)] in a structure with an addition [plus] and a zero
    [zero]. *)
Fixpoint msum {A : Type} (plus : A -> A -> A) (zero : A) (n : nat)
    (a : nat -> A) : A :=
  match n with
  | O => zero
  | S n' => plus (msum plus zero n' a) (a n')
  end.

(** The sums that summarise a set of samples: how many, their sum, the sum
    of their squares. *)
Definition stats := (R * R * R)%type.

Definition stats_zero : stats := (0, 0, 0).

Definition stats_plus (a b : stats) : stats :=
  let '(n1, s1, q1) := a in
  let '(n2, s2, q2) := b in
  (n1 + n2, s1 + s2, q1 + q2).

(** The triple [(m0, m1, m2)] is the count, the mean and the sum of squared
    deviations of samples with the sums [(n, s, q)]. *)
Definition represents (m : moments) (st : stats) : Prop :=
  let '(m0, m1, m2) := m in
  let '(n, s, q) := st in
  n = INR m0 /\ s = n * m1 /\ m2 = q - m1 * s /\ (m0 = O -> q = 0).

(** The blocks that [BlockReduceSum] and [BlockReduceMoments] accept: a
    whole number of lane groups, at least one, and no more groups than a
    lane group has lanes. *)
Definition reducible_block (blockDim : nat) : Prop :=
  (blockDim mod C10_WARP_SIZE = 0 /\
   1 <= blockDim / C10_WARP_SIZE <= C10_WARP_SIZE)%nat.

(** Element [(i, j)] of a row-major buffer of [N] columns. *)
Definition at_ (N : nat) (X : buffer) (i j : nat) : R := X (i * N + j)%nat.

(** The arithmetic mean of row [i]. *)
Definition row_mean (N : nat) (X : buffer) (i : nat) : R :=
  sumn N (at_ N X i) / INR N.

(** The sum of the squared deviations of row [i] from its mean. *)
Definition row_m2 (N : nat) (X : buffer) (i : nat) : R :=
  sumn N (fun j => (at_ N X i j - row_mean N X i) * (at_ N X i j - row_mean N X i)).

(** The writes [p[i * N + j] = g i j] for every column [j] of row [i]. *)
Definition row_writes (N : nat) (g : nat -> nat -> R) (i : nat) : list write :=
  map (fun j => ((i * N + j)%nat, g i j)) (seq 0 N).

(** The writes [p[i * N + j] = g i j] for every element of an [M] by [N]
    matrix, row by row. *)
Definition matrix_writes (M N : nat) (g : nat -> nat -> R) : list write :=
  flat_map (row_writes N g) (seq 0 M).

(** The writes [p[i] = g i] for [i < M]. *)
Definition vector_writes (M : nat) (g : nat -> R) : list write :=
  map (fun i => (i, g i)) (seq 0 M).

(** The row sums of the backward stats pass, with 1 for an absent scale. *)
Definition row_ds (N : nat) (dY X : buffer) (gamma : option buffer)
    (i : nat) : R :=
  sumn N (fun j => at_ N dY i j * at_ N X i j * read_or gamma 1 j).

Definition row_db (N : nat) (dY : buffer) (gamma : option buffer)
    (i : nat) : R :=
  sumn N (fun j => at_ N dY i j * read_or gamma 1 j).

(** The fused coefficients as the spec gives them: with [s = 1/N] and
    [a = (db*mean - ds) * rstd^3 * s], [c1 = a] and
    [c2 = -(a*mean + db*rstd*s)]. *)
Definition fused_c1 (N : nat) (mean rstd ds db : buffer) (i : nat) : R :=
  (db i * mean i - ds i) * rstd i ^ 3 * (1 / INR N).

Definition fused_c2 (N : nat) (mean rstd ds db : buffer) (i : nat) : R :=
  - (fused_c1 N mean rstd ds db i * mean i + db i * rstd i * (1 / INR N)).

(** The column sums of the parameter-gradient reduction. *)
Definition col_dgamma (M N : nat) (dY X mean rstd : buffer) (j : nat) : R :=
  sumn M (fun i => at_ N dY i j * (at_ N X i j - mean i) * rstd i).

Definition col_dbeta (M N : nat) (dY : buffer) (j : nat) : R :=
  sumn M (fun i => at_ N dY i j).

(** The content of a shared tile of the tiled kernel after the barrier, by
    row [r] and column [c] of the tile: the writes of the 16 by 32 threads
    of the block, each thread [(x, y)] storing [P y x] at [a[y][x]] and
    [P (y + 16) x] at [a[y + 16][x]]. *)
Definition tile_writes (P : nat -> nat -> R) : list write :=
  flat_map
    (fun yx =>
       [(tile_index (fst yx) (snd yx), P (fst yx) (snd yx));
        (tile_index (fst yx + 16) (snd yx), P (fst yx + 16)%nat (snd yx))])
    (grid_threads 16 32).

(** The sum of [f j i] over the rows [i < M] in the class [r] modulo 32,
    for the column [j] that the lanes [c] of block [b] compute as
    [b * 32 + c] in 32 bits, or zero beyond the last column. *)
Definition tile_value (M N b : nat) (f : nat -> nat -> R) (r c : nat) : R :=
  if Nat.ltb (uint32 (b * 32 + c)) N
  then suml (lane_cols r M 32) (f (uint32 (b * 32 + c)))
  else 0.

(** The buffer [b] after a reduction stored [g k] at every [k < N] of a
    requested output [p]; an output that is not requested has no buffer and
    [b] stands for whatever it would hold. *)
Definition reduced_into (p : option buffer) (N : nat) (g : nat -> R)
    (b : buffer) : buffer :=
  fun k =>
    match p with
    | Some _ => if Nat.ltb k N then g k else b k
    | None => b k
    end.

(** The clamped variance of row [i] plus [eps]: the number whose
    reciprocal square root is the row's [rstd]. *)
Definition row_radicand (N : nat) (eps : R) (X : buffer) (i : nat) : R :=
  Rmax (row_m2 N X i / INR N) 0 + eps.

Definition row_rstd (N : nat) (eps : R) (X : buffer) (i : nat) : R :=
  / sqrt (row_radicand N eps X i).

(** The conjunction of the checks of the forward entry point. *)
Definition forward_checks (X : Tensor) (gamma beta : option Tensor)
    (M N : Z) : bool :=
  Z.eqb (numel X) (mul64 M N) && undefined_or_numel gamma N &&
  undefined_or_numel beta N.

(** The conjunction of the checks of the backward entry point. *)
Definition backward_checks (dY X mean rstd : Tensor) (gamma : option Tensor)
    (M N : Z) : bool :=
  Z.eqb (numel dY) (mul64 M N) && Z.eqb (numel X) (mul64 M N) &&
  Z.eqb (numel mean) M && Z.eqb (numel rstd) M && undefined_or_numel gamma N.

(** The product [M * N] fits [int64_t]. *)
Definition fits_int64 (z : Z) : Prop := (- 2 ^ 63 <= z < 2 ^ 63)%Z.

(** Two optional tensors hold the same elements. *)
Definition same_content (a b : option Tensor) : Prop :=
  match a, b with
  | Some s, Some t =>
      numel s = numel t /\ forall k, data_ptr s k = data_ptr t k
  | None, None => True
  | _, _ => False
  end.

(** [p] permutes the rows [0 .. M-1]. *)
Definition row_permutation (M : nat) (p : nat -> nat) : Prop :=
  Permutation (map p (seq 0 M)) (seq 0 M).

(** Row [i] of the matrix [X'] is row [p i] of the matrix [X]. *)
Definition permuted_rows (M N : nat) (p : nat -> nat) (X X' : buffer) : Prop :=
  forall i j, (i < M)%nat -> (j < N)%nat ->
    X' (i * N + j)%nat = X (p i * N + j)%nat.

(** Element [i] of the vector [v'] is element [p i] of the vector [v]. *)
Definition permuted (M : nat) (p : nat -> nat) (v v' : buffer) : Prop :=
  forall i, (i < M)%nat -> v' i = v (p i).

(** The input gradient at row [i], column [j], from the elements of row
    [i] and the statistics of row [i]. *)
Definition dX_value (N : nat) (dY X mean rstd : buffer)
    (gamma : option buffer) (i j : nat) : R :=
  let ds := row_ds N dY X gamma i in
  let db := row_db N dY gamma i in
  let s := 1 / INR N in
  let a := (db * mean i - ds) * rstd i ^ 3 * s in
  rstd i * dY (i * N + j)%nat * read_or gamma 1 j +
  a * X (i * N + j)%nat + - (a * mean i + db * rstd i * s).

(** The buffers [a] and [b] hold the same first [n] elements. *)
Definition agree_below (n : nat) (a b : buffer) : Prop :=
  forall k, (k < n)%nat -> a k = b k.

(** Two pointers that may be [nullptr] are both null, or point to buffers
    with the same first [n] elements. *)
Definition agree_below_opt (n : nat) (a b : option buffer) : Prop :=
  match a, b with
  | Some a, Some b => agree_below n a b
  | None, None => True
  | _, _ => False
  end.

(** * Properties *)

(** ** Lists, sums and the grid-stride loop *)

Lemma mod_stride_skip (B j d : nat) :
  (0 < d < B)%nat -> (j + d) mod B <> j mod B.
Proof.
  intros Hd Heq.
  assert (HB : B <> 0%nat) by lia.
  pose proof (Nat.div_mod_eq j B) as Hj.
  pose proof (Nat.mod_upper_bound j B HB) as Hr.
  destruct (Nat.lt_ge_cases (j mod B + d) B) as [Hlt | Hge].
  - assert (E : (j mod B + d)%nat = (j + d) mod B).
    { apply Nat.mod_unique with (q := (j / B)%nat); lia. }
    lia.
  - assert (E : (j mod B + d - B)%nat = (j + d) mod B).
    { apply Nat.mod_unique with (q := S (j / B)); lia. }
    lia.
Qed.

Lemma filter_none {A : Type} (P : A -> bool) (l : list A) :
  (forall a, In a l -> P a = false) -> filter P l = [].
Proof.
  induction l as [| a l IH]; intros H; simpl; auto.
  rewrite (H a (or_introl eq_refl)). apply IH. intros b Hb. apply H. now right.
Qed.

Lemma filter_stride_skip (B t j m : nat) :
  (t < B)%nat -> j mod B = t ->
  filter (fun c => Nat.eqb (c mod B) t) (seq (S j) m) =
  filter (fun c => Nat.eqb (c mod B) t) (seq (j + B) (m - (B - 1))).
Proof.
  intros Ht Hj.
  assert (Hnone : forall m', (m' <= B - 1)%nat ->
            filter (fun c => Nat.eqb (c mod B) t) (seq (S j) m') = []).
  { intros m' Hm'. apply filter_none. intros c Hc. apply in_seq in Hc.
    apply Nat.eqb_neq. replace c with (j + (c - j))%nat by lia.
    rewrite <- Hj. apply mod_stride_skip. lia. }
  destruct (Nat.le_gt_cases m (B - 1)) as [Hle | Hgt].
  - rewrite Hnone by assumption.
    replace (m - (B - 1))%nat with 0%nat by lia. reflexivity.
  - replace m with ((B - 1) + (m - (B - 1)))%nat at 1 by lia.
    rewrite seq_app, filter_app, Hnone by lia.
    replace (S j + (B - 1))%nat with (j + B)%nat by lia. reflexivity.
Qed.

Lemma for_stride_filter {St : Type} (body : nat -> St -> St) (N B t : nat) :
  (t < B)%nat ->
  forall fuel j s, j mod B = t -> (N <= j + fuel)%nat ->
  for_stride fuel j N B body s =
  fold_left (fun s c => body c s)
            (filter (fun c => Nat.eqb (c mod B) t) (seq j (N - j))) s.
Proof.
  intros Ht. induction fuel as [| fuel IH]; intros j s Hj Hfuel.
  - replace (N - j)%nat with 0%nat by lia. reflexivity.
  - simpl. destruct (Nat.ltb j N) eqn:E.
    + apply Nat.ltb_lt in E.
      replace (N - j)%nat with (S (N - j - 1)) by lia.
      cbn [seq filter]. rewrite (proj2 (Nat.eqb_eq _ _) Hj). cbn [fold_left].
      rewrite IH.
      * rewrite (filter_stride_skip B t j (N - j - 1) Ht Hj).
        replace (N - (j + B))%nat with (N - j - 1 - (B - 1))%nat by lia.
        reflexivity.
      * replace (j + B)%nat with (j + 1 * B)%nat by lia.
        now rewrite Nat.Div0.mod_add.
      * lia.
    + apply Nat.ltb_ge in E. replace (N - j)%nat with 0%nat by lia.
      reflexivity.
Qed.

(** The loop of lane [t] visits exactly the columns of [lane_cols], in
    increasing order, and stops by its exit test, not by lack of fuel. *)
Lemma for_stride_lane {St : Type} (body : nat -> St -> St) (N B t : nat)
    (s : St) :
  (t < B)%nat ->
  for_stride N t N B body s = fold_left (fun s c => body c s) (lane_cols t N B) s.
Proof.
  intros Ht. unfold lane_cols.
  destruct (Nat.le_gt_cases N t) as [Hle | Hgt].
  - (* the lane starts beyond the row: no iteration *)
    rewrite filter_none.
    + destruct N; simpl; auto.
      rewrite (proj2 (Nat.ltb_ge _ _) Hle). reflexivity.
    + intros c Hc. apply in_seq in Hc. apply Nat.eqb_neq.
      rewrite Nat.mod_small by lia. lia.
  - rewrite (for_stride_filter body N B t Ht N t).
    + assert (Hs : seq 0 N = seq 0 t ++ seq t (N - t)).
      { rewrite <- seq_app. f_equal. lia. }
      rewrite Hs, filter_app. rewrite (filter_none _ (seq 0 t)); [reflexivity |].
      intros c Hc. apply in_seq in Hc. apply Nat.eqb_neq.
      rewrite Nat.mod_small by lia. lia.
    + apply Nat.mod_small; lia.
    + lia.
Qed.

Lemma in_lane_cols (t N B c : nat) :
  In c (lane_cols t N B) <-> (c < N)%nat /\ c mod B = t.
Proof.
  unfold lane_cols. rewrite filter_In, in_seq, Nat.eqb_eq. lia.
Qed.

Lemma lane_cols_S (t N B : nat) :
  lane_cols t (S N) B =
  lane_cols t N B ++ (if Nat.eqb (N mod B) t then [N] else []).
Proof.
  unfold lane_cols. rewrite seq_S, filter_app. simpl.
  destruct (Nat.eqb (N mod B) t); reflexivity.
Qed.

Lemma flat_map_app_perm {A B : Type} (f g : A -> list B) (l : list A) :
  Permutation (flat_map (fun x => f x ++ g x) l) (flat_map f l ++ flat_map g l).
Proof.
  induction l as [| a l IH]; simpl; auto.
  rewrite <- !app_assoc. apply Permutation_app_head.
  rewrite IH. rewrite !app_assoc. apply Permutation_app_tail.
  apply Permutation_app_comm.
Qed.

Lemma flat_map_pointwise_perm {A B : Type} (f g : A -> list B) (l : list A) :
  (forall x, In x l -> Permutation (f x) (g x)) ->
  Permutation (flat_map f l) (flat_map g l).
Proof.
  induction l as [| a l IH]; intros H; simpl; auto.
  apply Permutation_app.
  - apply H. now left.
  - apply IH. intros x Hx. apply H. now right.
Qed.

Lemma flat_map_ext_in {A B : Type} (f g : A -> list B) (l : list A) :
  (forall x, In x l -> f x = g x) -> flat_map f l = flat_map g l.
Proof.
  induction l as [| a l IH]; intros H; simpl; auto.
  rewrite (H a (or_introl eq_refl)). f_equal. apply IH.
  intros x Hx. apply H. now right.
Qed.

Lemma flat_map_of_map {A B C : Type} (f : B -> list C) (g : A -> B)
    (l : list A) :
  flat_map f (map g l) = flat_map (fun x => f (g x)) l.
Proof.
  induction l as [| a l IH]; simpl; auto. now rewrite IH.
Qed.

Lemma flat_map_of_flat_map {A B C : Type} (f : B -> list C)
    (g : A -> list B) (l : list A) :
  flat_map f (flat_map g l) = flat_map (fun x => flat_map f (g x)) l.
Proof.
  induction l as [| a l IH]; simpl; auto.
  now rewrite flat_map_app, IH.
Qed.

Lemma map_of_flat_map {A B C : Type} (f : B -> C) (g : A -> list B)
    (l : list A) :
  map f (flat_map g l) = flat_map (fun x => map f (g x)) l.
Proof.
  induction l as [| a l IH]; simpl; auto.
  now rewrite map_app, IH.
Qed.

Lemma flat_map_single_hit {A : Type} (x : A) (a len start : nat) :
  (start <= a < start + len)%nat ->
  flat_map (fun t => if Nat.eqb a t then [x] else []) (seq start len) = [x].
Proof.
  revert start. induction len as [| len IH]; intros start H; [lia |].
  simpl. destruct (Nat.eqb a start) eqn:E.
  - apply Nat.eqb_eq in E. subst. simpl. f_equal.
    rewrite flat_map_ext_in with (g := fun _ => []).
    + clear. induction (seq (S start) len); simpl; auto.
    + intros t Ht. apply in_seq in Ht.
      destruct (Nat.eqb start t) eqn:E; auto. apply Nat.eqb_eq in E. lia.
  - apply Nat.eqb_neq in E. simpl. apply IH. lia.
Qed.

(** The lanes of a block partition the columns of a row. *)
Lemma lanes_partition (N B : nat) :
  (0 < B)%nat ->
  Permutation (flat_map (fun t => lane_cols t N B) (seq 0 B)) (seq 0 N).
Proof.
  intros HB. induction N as [| N IH].
  - unfold lane_cols. simpl.
    induction (seq 0 B); simpl; auto.
  - rewrite flat_map_ext_in with (g := fun t =>
      lane_cols t N B ++ (if Nat.eqb (N mod B) t then [N] else [])).
    + rewrite flat_map_app_perm, IH, seq_S.
      apply Permutation_app_head. simpl.
      rewrite flat_map_single_hit; auto.
      split; [lia |]. apply Nat.mod_upper_bound. lia.
    + intros t _. apply lane_cols_S.
Qed.

Lemma suml_app (l l' : list nat) (f : nat -> R) :
  suml (l ++ l') f = suml l f + suml l' f.
Proof.
  induction l as [| a l IH]; simpl; [lra |]. rewrite IH. lra.
Qed.

Lemma suml_perm (l l' : list nat) (f : nat -> R) :
  Permutation l l' -> suml l f = suml l' f.
Proof.
  induction 1; simpl; lra.
Qed.

Lemma suml_ext (l : list nat) (f g : nat -> R) :
  (forall x, In x l -> f x = g x) -> suml l f = suml l g.
Proof.
  induction l as [| a l IH]; intros H; simpl; auto.
  rewrite (H a (or_introl eq_refl)), IH; auto.
  intros x Hx. apply H. now right.
Qed.

Lemma suml_flat_map (g : nat -> list nat) (l : list nat) (f : nat -> R) :
  suml (flat_map g l) f = suml l (fun x => suml (g x) f).
Proof.
  induction l as [| a l IH]; simpl; auto. now rewrite suml_app, IH.
Qed.

Lemma suml_plus (l : list nat) (f g : nat -> R) :
  suml l (fun x => f x + g x) = suml l f + suml l g.
Proof.
  induction l as [| a l IH]; simpl; [lra |]. rewrite IH. lra.
Qed.

Lemma suml_map (h : nat -> nat) (l : list nat) (f : nat -> R) :
  suml (map h l) f = suml l (fun x => f (h x)).
Proof.
  induction l as [| a l IH]; simpl; auto. now rewrite IH.
Qed.

Lemma sumn_suml (n : nat) (f : nat -> R) : sumn n f = suml (seq 0 n) f.
Proof. reflexivity. Qed.

Lemma sumn_ext (n : nat) (f g : nat -> R) :
  (forall x, (x < n)%nat -> f x = g x) -> sumn n f = sumn n g.
Proof.
  intros H. apply suml_ext. intros x Hx. apply in_seq in Hx. apply H. lia.
Qed.

Lemma sumn_S (n : nat) (f : nat -> R) : sumn (S n) f = sumn n f + f n.
Proof.
  unfold sumn. fold (suml (seq 0 (S n)) f). fold (suml (seq 0 n) f).
  rewrite seq_S, suml_app. simpl. lra.
Qed.

(** Summing lane by lane is summing over the row. *)
Lemma sum_lanes (N B : nat) (f : nat -> R) :
  (0 < B)%nat ->
  sumn B (fun t => suml (lane_cols t N B) f) = sumn N f.
Proof.
  intros HB. rewrite !sumn_suml, <- suml_flat_map.
  apply suml_perm, lanes_partition, HB.
Qed.

Lemma fold_left_sum (f : nat -> R) (l : list nat) (s0 : R) :
  fold_left (fun s c => s + f c) l s0 = s0 + suml l f.
Proof.
  revert s0. induction l as [| a l IH]; intros s0; simpl; [lra |].
  rewrite IH. lra.
Qed.

Lemma fold_left_sum2 (f g : nat -> R) (l : list nat) (s0 : R * R) :
  fold_left (fun s c => let '(s1, s2) := s in (s1 + f c, s2 + g c)) l s0 =
  (fst s0 + suml l f, snd s0 + suml l g).
Proof.
  revert s0. induction l as [| a l IH]; intros [s1 s2]; simpl.
  - f_equal; lra.
  - rewrite IH. simpl. f_equal; lra.
Qed.

Lemma fold_left_snoc {A : Type} (g : nat -> A) (l : list nat) (acc : list A) :
  fold_left (fun ws c => ws ++ [g c]) l acc = acc ++ map g l.
Proof.
  revert acc. induction l as [| a l IH]; intros acc; simpl.
  - now rewrite app_nil_r.
  - rewrite IH, <- app_assoc. reflexivity.
Qed.

(** ** The reduction primitives *)

Section ReduceSpec.

Context {T A : Type}.
Variable op : T -> T -> T.
Variable ident : T.
Variable plus : A -> A -> A.
Variable zero : A.
Variable rel : T -> A -> Prop.

Hypothesis plus_assoc : forall a b c, plus a (plus b c) = plus (plus a b) c.
Hypothesis plus_comm : forall a b, plus a b = plus b a.
Hypothesis plus_zero_l : forall a, plus zero a = a.
Hypothesis rel_op :
  forall x y a b, rel x a -> rel y b -> rel (op x y) (plus a b).
Hypothesis rel_ident : rel ident zero.

Lemma msum_ext (n : nat) (a b : nat -> A) :
  (forall l, (l < n)%nat -> a l = b l) -> msum plus zero n a = msum plus zero n b.
Proof.
  induction n as [| n IH]; intros H; simpl; auto.
  rewrite IH, (H n) by auto with arith. reflexivity.
Qed.

Lemma msum_plus (n : nat) (a b : nat -> A) :
  msum plus zero n (fun l => plus (a l) (b l)) =
  plus (msum plus zero n a) (msum plus zero n b).
Proof.
  induction n as [| n IH]; simpl.
  - now rewrite plus_zero_l.
  - rewrite IH. rewrite !plus_assoc. f_equal.
    rewrite <- !plus_assoc. f_equal. apply plus_comm.
Qed.

Lemma msum_add (n m : nat) (a : nat -> A) :
  msum plus zero (n + m) a =
  plus (msum plus zero n a) (msum plus zero m (fun l => a (n + l)%nat)).
Proof.
  induction m as [| m IH].
  - rewrite Nat.add_0_r. simpl. now rewrite plus_comm, plus_zero_l.
  - rewrite Nat.add_succ_r. simpl. rewrite IH. now rewrite plus_assoc.
Qed.

Lemma msum_zero (n : nat) : msum plus zero n (fun _ => zero) = zero.
Proof.
  induction n as [| n IH]; simpl; auto. now rewrite IH, plus_zero_l.
Qed.

(** Masking the lanes beyond [m] to zero leaves the sum of the first [m]. *)
Lemma msum_masked (n m : nat) (a : nat -> A) :
  (m <= n)%nat ->
  msum plus zero n (fun l => if Nat.ltb l m then a l else zero) =
  msum plus zero m a.
Proof.
  intros H. replace n with (m + (n - m))%nat by lia.
  rewrite msum_add.
  rewrite (msum_ext m _ a).
  - rewrite (msum_ext (n - m) _ (fun _ => zero)).
    + now rewrite msum_zero, plus_comm, plus_zero_l.
    + intros l _. rewrite (proj2 (Nat.ltb_ge _ _)) by lia. reflexivity.
  - intros l Hl. now rewrite (proj2 (Nat.ltb_lt _ _) Hl).
Qed.

(** A sum over [g] groups of [w] is the sum over all [g * w]. *)
Lemma msum_groups (g w : nat) (a : nat -> A) :
  msum plus zero g (fun k => msum plus zero w (fun l => a (k * w + l)%nat)) =
  msum plus zero (g * w) a.
Proof.
  induction g as [| g IH]; simpl; auto.
  rewrite IH. rewrite (Nat.add_comm w (g * w)). now rewrite msum_add.
Qed.

Lemma warp_halve_rel (k : nat) :
  forall (v : nat -> T) (a : nat -> A),
  (2 ^ k <= C10_WARP_SIZE)%nat ->
  (forall l, (l < 2 ^ k)%nat -> rel (v l) (a l)) ->
  rel (warp_halve op k v 0%nat) (msum plus zero (2 ^ k) a).
Proof.
  induction k as [| k IH]; intros v a Hk Hv.
  - simpl. rewrite plus_zero_l. apply Hv. simpl. lia.
  - simpl warp_halve.
    assert (Hpow : (2 ^ S k = 2 ^ k + 2 ^ k)%nat) by (simpl; lia).
    rewrite Hpow, msum_add, <- msum_plus.
    apply IH; [lia |].
    intros l Hl. unfold shfl_down.
    rewrite (proj2 (Nat.ltb_lt _ _)) by lia.
    rewrite (Nat.add_comm (2 ^ k) l).
    apply rel_op; apply Hv; lia.
Qed.

(** Lane 0 of a lane group receives the combination of the whole group. *)
Lemma WarpReduce_rel (v : nat -> T) (a : nat -> A) :
  (forall l, (l < C10_WARP_SIZE)%nat -> rel (v l) (a l)) ->
  rel (WarpReduce op v 0%nat) (msum plus zero C10_WARP_SIZE a).
Proof.
  intros Hv. apply (warp_halve_rel warp_steps v a).
  - apply Nat.le_refl.
  - exact Hv.
Qed.

Lemma warp_collective_rel (v : nat -> T) (a : nat -> A) (w : nat) :
  (forall l, (l < C10_WARP_SIZE)%nat ->
     rel (v (w * C10_WARP_SIZE + l)%nat) (a (w * C10_WARP_SIZE + l)%nat)) ->
  rel (warp_collective op v (w * C10_WARP_SIZE))
      (msum plus zero C10_WARP_SIZE (fun l => a (w * C10_WARP_SIZE + l)%nat)).
Proof.
  intros Hv. unfold warp_collective.
  rewrite Nat.Div0.mod_mul, Nat.div_mul by discriminate.
  apply WarpReduce_rel with (a := fun l => a (w * C10_WARP_SIZE + l)%nat).
  exact Hv.
Qed.

(** Thread 0 of a block receives the combination of the whole block. *)
Lemma BlockReduce_rel (blockDim : nat) (v : nat -> T) (a : nat -> A) :
  reducible_block blockDim ->
  (forall t, (t < blockDim)%nat -> rel (v t) (a t)) ->
  rel (BlockReduce op ident blockDim v 0%nat) (msum plus zero blockDim a).
Proof.
  intros [Hmod Hgroups] Hv. unfold BlockReduce.
  set (g := (blockDim / C10_WARP_SIZE)%nat) in *.
  assert (HB : blockDim = (g * C10_WARP_SIZE)%nat).
  { pose proof (Nat.div_mod_eq blockDim C10_WARP_SIZE). subst g. lia. }
  change (0 / C10_WARP_SIZE)%nat with 0%nat. cbn [Nat.eqb].
  set (shared := map (fun w => warp_collective op v (w * C10_WARP_SIZE)%nat)
                     (seq 0 g)).
  rewrite HB at 1. rewrite <- msum_groups.
  rewrite <- (msum_masked C10_WARP_SIZE g) by lia.
  pose (b := fun l => if Nat.ltb l g
             then msum plus zero C10_WARP_SIZE
                    (fun l' => a (l * C10_WARP_SIZE + l')%nat)
             else zero).
  change (warp_collective op ?val 0%nat)
    with (warp_collective op val (0 * C10_WARP_SIZE)%nat).
  apply (warp_collective_rel _ (fun l => b l) 0).
  intros l Hl. cbn [Nat.mul Nat.add]. unfold b.
  destruct (Nat.ltb l g) eqn:E; [| apply rel_ident].
  apply Nat.ltb_lt in E.
  rewrite Nat.mod_small by exact Hl.
  unfold shared.
  rewrite nth_indep with (d' := warp_collective op v (0 * C10_WARP_SIZE)%nat)
    by (rewrite length_map, length_seq; exact E).
  rewrite (map_nth (fun w => warp_collective op v (w * C10_WARP_SIZE)%nat)).
  rewrite seq_nth by exact E. cbn [Nat.add].
  apply warp_collective_rel. intros l' Hl'. apply Hv.
  rewrite HB. unfold C10_WARP_SIZE in *. nia.
Qed.

End ReduceSpec.

Lemma msum_Rplus (n : nat) (a : nat -> R) : msum Rplus 0 n a = sumn n a.
Proof.
  induction n as [| n IH]; simpl; [reflexivity |].
  rewrite sumn_S, IH. reflexivity.
Qed.

(** [BlockReduceSum] returns to thread 0 the sum of the values held by the
    threads of the block. *)
Lemma BlockReduceSum_thread0 (blockDim : nat) (v : nat -> R) :
  reducible_block blockDim ->
  BlockReduceSum blockDim v 0%nat = sumn blockDim v.
Proof.
  intros HB. rewrite <- msum_Rplus. unfold BlockReduceSum.
  apply (BlockReduce_rel Rplus 0 Rplus 0 (@eq R)); auto.
  - intros; lra.
  - intros; lra.
  - intros; lra.
  - intros; subst; reflexivity.
Qed.

Lemma stats_plus_assoc (a b c : stats) :
  stats_plus a (stats_plus b c) = stats_plus (stats_plus a b) c.
Proof.
  destruct a as [[? ?] ?], b as [[? ?] ?], c as [[? ?] ?]. simpl.
  f_equal; [f_equal |]; lra.
Qed.

Lemma stats_plus_comm (a b : stats) : stats_plus a b = stats_plus b a.
Proof.
  destruct a as [[? ?] ?], b as [[? ?] ?]. simpl. f_equal; [f_equal |]; lra.
Qed.

Lemma stats_plus_zero_l (a : stats) : stats_plus stats_zero a = a.
Proof.
  destruct a as [[? ?] ?]. simpl. f_equal; [f_equal |]; lra.
Qed.

Lemma msum_stats (n : nat) (c s q : nat -> R) :
  msum stats_plus stats_zero n (fun l => (c l, s l, q l)) =
  (sumn n c, sumn n s, sumn n q).
Proof.
  induction n as [| n IH]; simpl; [reflexivity |].
  rewrite IH, !sumn_S. reflexivity.
Qed.

Lemma represents_no_sample : represents no_sample stats_zero.
Proof. simpl. repeat split; lra. Qed.

(** The merge of two triples is the triple of the two sets of samples
    together. *)
Lemma merge_represents (x y : moments) (a b : stats) :
  represents x a -> represents y b -> represents (merge x y) (stats_plus a b).
Proof.
  destruct x as [[nA mA] m2A], y as [[nB mB] m2B].
  destruct a as [[n1 s1] q1], b as [[n2 s2] q2].
  intros (Hn1 & Hs1 & Hm1 & Hz1) (Hn2 & Hs2 & Hm2 & Hz2).
  unfold merge. destruct (Nat.eqb (nA + nB) 0) eqn:E.
  - apply Nat.eqb_eq in E.
    assert (nA = 0%nat) by lia. assert (nB = 0%nat) by lia. subst nA nB.
    simpl in *. rewrite Hz1, Hz2 by reflexivity. subst.
    repeat split; lra.
  - apply Nat.eqb_neq in E.
    assert (Hn : INR (nA + nB) <> 0) by (apply not_0_INR; exact E).
    rewrite plus_INR in Hn.
    simpl. rewrite plus_INR. subst n1 n2 s1 s2 m2A m2B.
    repeat split.
    + field. exact Hn.
    + field. exact Hn.
    + intros H0. lia.
Qed.

(** [BlockReduceMoments] returns to thread 0 the triple of all the samples
    seen by the threads of the block. *)
Lemma BlockReduceMoments_thread0 (blockDim : nat) (v : nat -> moments)
    (a : nat -> stats) :
  reducible_block blockDim ->
  (forall t, (t < blockDim)%nat -> represents (v t) (a t)) ->
  represents (BlockReduceMoments blockDim v 0%nat)
             (msum stats_plus stats_zero blockDim a).
Proof.
  intros HB Hv. unfold BlockReduceMoments.
  apply (BlockReduce_rel merge no_sample stats_plus stats_zero represents);
    auto using stats_plus_assoc, stats_plus_comm, stats_plus_zero_l,
               merge_represents, represents_no_sample.
Qed.

(** ** The streaming fold of the moment pass *)

(** One step of the fold never divides by zero, and extends the set of
    samples by [x]. *)
Lemma moments_step_represents (x : R) (m : moments) (st : stats) :
  represents m st ->
  exists m', moments_step x (Some m) = Some m' /\
             represents m' (stats_plus st (1, x, x * x)).
Proof.
  destruct m as [[m0 m1] m2], st as [[n s] q].
  intros (Hn & Hs & Hm & Hz).
  assert (Hpos : INR (S m0) <> 0) by (apply not_0_INR; discriminate).
  unfold moments_step, Acc.bind, Acc.div.
  destruct (Req_dec_T (INR (S m0)) 0) as [E | _]; [contradiction |].
  eexists. split; [reflexivity |].
  unfold represents, stats_plus. rewrite S_INR in *. subst n s m2.
  repeat split.
  - field. exact Hpos.
  - field. exact Hpos.
  - discriminate.
Qed.

Lemma moments_fold_represents (g : nat -> R) (l : list nat) :
  forall (m : moments) (st : stats),
  represents m st ->
  exists m',
    fold_left (fun s c => moments_step (g c) s) l (Some m) = Some m' /\
    represents m'
      (stats_plus st
         (suml l (fun _ => 1), suml l g, suml l (fun c => g c * g c))).
Proof.
  induction l as [| c l IH]; intros m st Hm.
  - exists m. split; [reflexivity |].
    simpl. rewrite stats_plus_comm, stats_plus_zero_l. exact Hm.
  - destruct (moments_step_represents (g c) m st Hm) as (m1 & E1 & H1).
    destruct (IH m1 _ H1) as (m' & E' & H').
    exists m'. split.
    + cbn [fold_left]. rewrite E1. exact E'.
    + rewrite <- stats_plus_assoc in H'. exact H'.
Qed.

(** The loop of a lane of the moment pass always has a result: the triple
    of the samples in the lane's columns. *)
Lemma moments_lane_represents (N : nat) (X : buffer) (B i t : nat) :
  (t < B)%nat ->
  exists m,
    moments_lane N X B i t = Some m /\
    represents m
      (suml (lane_cols t N B) (fun _ => 1),
       suml (lane_cols t N B) (at_ N X i),
       suml (lane_cols t N B) (fun j => at_ N X i j * at_ N X i j)).
Proof.
  intros Ht. unfold moments_lane. rewrite for_stride_lane by exact Ht.
  destruct (moments_fold_represents (at_ N X i) (lane_cols t N B)
              no_sample stats_zero represents_no_sample) as (m & E & H).
  exists m. split; [exact E |].
  rewrite stats_plus_zero_l in H. exact H.
Qed.

Lemma mapM_seq {B : Type} (f : nat -> option B) (P : nat -> B -> Prop)
    (d : B) (n : nat) :
  forall start,
  (forall t, (start <= t < start + n)%nat -> exists y, f t = Some y /\ P t y) ->
  exists ys, mapM f (seq start n) = Some ys /\ length ys = n /\
             forall k, (k < n)%nat -> P (start + k)%nat (nth k ys d).
Proof.
  induction n as [| n IH]; intros start H.
  - exists []. repeat split; auto. intros k Hk. lia.
  - destruct (H start) as (y & Ey & Py); [lia |].
    destruct (IH (S start)) as (ys & Eys & Hlen & Hys).
    { intros t Ht. apply H. lia. }
    exists (y :: ys). cbn [seq mapM]. rewrite Ey, Eys. cbn [Acc.bind].
    repeat split; [simpl; lia |].
    intros [| k] Hk.
    + rewrite Nat.add_0_r. exact Py.
    + replace (start + S k)%nat with (S start + k)%nat by lia.
      apply Hys. lia.
Qed.

Lemma suml_ones (l : list nat) : suml l (fun _ => 1) = INR (length l).
Proof.
  induction l as [| a l IH]; [reflexivity |].
  change (length (a :: l)) with (S (length l)). rewrite S_INR.
  simpl. rewrite IH. lra.
Qed.

Lemma sumn_ones (n : nat) : sumn n (fun _ => 1) = INR n.
Proof. rewrite sumn_suml, suml_ones, length_seq. reflexivity. Qed.

(** The sum of squared deviations from [c], expanded. *)
Lemma sumn_sq_dev (n : nat) (f : nat -> R) (c : R) :
  sumn n (fun j => (f j - c) * (f j - c)) =
  sumn n (fun j => f j * f j) - 2 * c * sumn n f + INR n * (c * c).
Proof.
  induction n as [| n IH].
  - unfold sumn. simpl. ring.
  - rewrite !sumn_S, IH, S_INR. ring.
Qed.

(** What the threads of block [i] of the moment pass hold when the
    reduction ends: every lane finished its loop, and thread 0 holds the
    triple of the [N] samples of row [i]. *)
Lemma RowwiseMoments_reduced (N : nat) (X : buffer) (B i : nat) :
  reducible_block B ->
  exists lanes m1 m2,
    mapM (moments_lane N X B i) (seq 0 B) = Some lanes /\
    BlockReduceMoments B (fun t => nth t lanes no_sample) 0%nat = (N, m1, m2) /\
    represents (N, m1, m2)
      (INR N, sumn N (at_ N X i),
       sumn N (fun j => at_ N X i j * at_ N X i j)).
Proof.
  intros HB.
  assert (HB0 : (0 < B)%nat).
  { destruct HB as [Hm Hg]. unfold C10_WARP_SIZE in *.
    destruct B; [simpl in Hg; lia | lia]. }
  destruct (mapM_seq (moments_lane N X B i)
              (fun t m => represents m
                 (suml (lane_cols t N B) (fun _ => 1),
                  suml (lane_cols t N B) (at_ N X i),
                  suml (lane_cols t N B)
                       (fun j => at_ N X i j * at_ N X i j)))
              no_sample B 0%nat) as (lanes & E & _ & Hl).
  { intros t Ht. apply moments_lane_represents. lia. }
  pose proof (BlockReduceMoments_thread0 B (fun t => nth t lanes no_sample) _
                HB (fun t Ht => Hl t Ht)) as Hr.
  cbn beta in Hr. rewrite msum_stats in Hr.
  cbn [Nat.add] in Hr.
  rewrite !sum_lanes, sumn_ones in Hr by exact HB0.
  destruct (BlockReduceMoments B (fun t => nth t lanes no_sample) 0%nat)
    as [[m0 m1] m2] eqn:Er.
  assert (m0 = N).
  { destruct Hr as (Hn & _). symmetry. apply INR_eq. exact Hn. }
  subst m0. exists lanes, m1, m2.
  split; [exact E | split; [exact Er | exact Hr]].
Qed.

(** For a row of at least one column, the triple of its samples is its
    mean and its sum of squared deviations. *)
Lemma represents_row (N : nat) (X : buffer) (i : nat) (m1 m2 : R) :
  (1 <= N)%nat ->
  represents (N, m1, m2)
    (INR N, sumn N (at_ N X i), sumn N (fun j => at_ N X i j * at_ N X i j)) ->
  m1 = row_mean N X i /\ m2 = row_m2 N X i.
Proof.
  intros HN (_ & Hs & Hm & _).
  assert (Hpos : INR N <> 0) by (apply not_0_INR; lia).
  assert (Hmean : m1 = row_mean N X i).
  { unfold row_mean. rewrite Hs. field. exact Hpos. }
  split; [exact Hmean |].
  unfold row_m2. rewrite sumn_sq_dev, <- Hmean, Hm, Hs. ring.
Qed.

(** Thread 0 of block [i] of the moment pass, for a row of at least one
    column: the division by [N] is defined, [mean[i]] receives the mean of
    the row, and [rstd[i]] receives the reciprocal square root of the
    clamped variance plus [eps], when that has a value. *)
Lemma RowwiseMoments_thread0 (N : nat) (eps : R) (X : buffer) (B i : nat) :
  reducible_block B -> (1 <= N)%nat ->
  RowwiseMomentsCUDAKernel N eps X B i 0 =
  (r <- Acc.rsqrt (Acc.max (row_m2 N X i / INR N) 0 + eps) ;;
   Some ([(i, row_mean N X i)], [(i, r)])).
Proof.
  intros HB HN.
  destruct (RowwiseMoments_reduced N X B i HB) as (lanes & m1 & m2 & E & Er & Hr).
  destruct (represents_row N X i m1 m2 HN Hr) as [Hm1 Hm2].
  unfold RowwiseMomentsCUDAKernel. rewrite E. cbn [Acc.bind]. rewrite Er.
  cbn [Nat.eqb]. unfold Acc.div.
  destruct (Req_dec_T (INR N) 0) as [E0 | _].
  - exfalso. revert E0. apply not_0_INR. lia.
  - cbn [Acc.bind]. rewrite Hm1, Hm2. reflexivity.
Qed.

(** With no column, thread 0 of the moment pass holds the triple of no
    sample and divides its sum of squared deviations, 0, by [N = 0]. *)
Lemma RowwiseMoments_thread0_empty (eps : R) (X : buffer) (B i : nat) :
  reducible_block B ->
  RowwiseMomentsCUDAKernel 0 eps X B i 0 = None.
Proof.
  intros HB.
  destruct (RowwiseMoments_reduced 0 X B i HB) as (lanes & m1 & m2 & E & Er & Hr).
  unfold RowwiseMomentsCUDAKernel. rewrite E. cbn [Acc.bind]. rewrite Er.
  cbn [Nat.eqb]. unfold Acc.div. cbn [INR].
  destruct (Req_dec_T 0 0) as [_ | Hne]; [reflexivity | contradiction].
Qed.

(** The other threads of a block of the moment pass write nothing. *)
Lemma RowwiseMoments_other_threads (N : nat) (eps : R) (X : buffer)
    (B i t : nat) :
  reducible_block B -> t <> 0%nat ->
  RowwiseMomentsCUDAKernel N eps X B i t = Some ([], []).
Proof.
  intros HB Ht.
  destruct (RowwiseMoments_reduced N X B i HB) as (lanes & m1 & m2 & E & _).
  unfold RowwiseMomentsCUDAKernel. rewrite E. cbn [Acc.bind].
  destruct (BlockReduceMoments B (fun t0 => nth t0 lanes no_sample) t)
    as [[m0' m1'] m2'].
  now rewrite (proj2 (Nat.eqb_neq _ _) Ht).
Qed.

(** ** Writes and launches *)

Lemma writes_to_app (k : nat) (ws ws' : list write) :
  writes_to k (ws ++ ws') = (writes_to k ws + writes_to k ws')%nat.
Proof. unfold writes_to. now rewrite filter_app, length_app. Qed.

Lemma writes_to_perm (k : nat) (ws ws' : list write) :
  Permutation ws ws' -> writes_to k ws = writes_to k ws'.
Proof.
  intros H. unfold writes_to. apply Permutation_length.
  induction H; simpl.
  - constructor.
  - destruct (Nat.eqb (fst x) k); auto.
  - destruct (Nat.eqb (fst x) k), (Nat.eqb (fst y) k); auto. constructor.
  - etransitivity; eauto.
Qed.

Lemma writes_to_In (k : nat) (v : R) (ws : list write) :
  In (k, v) ws -> (1 <= writes_to k ws)%nat.
Proof.
  intros H. unfold writes_to.
  assert (Hin : In (k, v) (filter (fun w => Nat.eqb (fst w) k) ws)).
  { apply filter_In. split; auto. simpl. apply Nat.eqb_refl. }
  destruct (filter (fun w => Nat.eqb (fst w) k) ws); [contradiction |].
  simpl. lia.
Qed.

Lemma writes_to_cons (k : nat) (w : write) (ws : list write) :
  writes_to k (w :: ws) =
  ((if Nat.eqb (fst w) k then 1 else 0) + writes_to k ws)%nat.
Proof.
  unfold writes_to. simpl. destruct (Nat.eqb (fst w) k); reflexivity.
Qed.

(** An index that no write of the launch names keeps its content. *)
Lemma commit_untouched (ws : list write) :
  forall (b : buffer) (k : nat),
  writes_to k ws = 0%nat -> commit b ws k = b k.
Proof.
  induction ws as [| w ws IH]; intros b k H; [reflexivity |].
  rewrite writes_to_cons in H. unfold commit in *. cbn [fold_left].
  destruct (Nat.eqb (fst w) k) eqn:E; [lia |].
  rewrite IH by lia. unfold store.
  rewrite Nat.eqb_sym, E. reflexivity.
Qed.

(** An index that exactly one write of the launch names receives the value
    of that write, whatever the order in which the threads ran. *)
Lemma commit_once (ws : list write) :
  forall (b : buffer) (k : nat) (v : R),
  writes_to k ws = 1%nat -> In (k, v) ws -> commit b ws k = v.
Proof.
  induction ws as [| w ws IH]; intros b k v H Hin; [contradiction |].
  rewrite writes_to_cons in H.
  change (commit b (w :: ws)) with (commit (store b w) ws).
  destruct (Nat.eqb (fst w) k) eqn:E.
  - rewrite commit_untouched by lia.
    unfold store. rewrite Nat.eqb_sym, E.
    destruct Hin as [Hw | Hin].
    + now subst w.
    + apply writes_to_In in Hin. lia.
  - destruct Hin as [Hw | Hin].
    + subst w. simpl in E. rewrite Nat.eqb_refl in E. discriminate.
    + apply IH; [lia | exact Hin].
Qed.

Lemma launch_blocks (grid block : nat) (kernel : nat -> nat -> list write) :
  launch grid block kernel =
  flat_map (fun b => flat_map (kernel b) (seq 0 block)) (seq 0 grid).
Proof.
  unfold launch, grid_threads. rewrite flat_map_of_flat_map.
  apply flat_map_ext_in. intros b _. now rewrite flat_map_of_map.
Qed.

Lemma launch2_blocks (grid block : nat)
    (kernel : nat -> nat -> list write * list write) :
  launch2 grid block kernel =
  (launch grid block (fun b t => fst (kernel b t)),
   launch grid block (fun b t => snd (kernel b t))).
Proof. reflexivity. Qed.

Lemma seq_shift_add (a n : nat) :
  map (fun j => (a + j)%nat) (seq 0 n) = seq a n.
Proof.
  revert a. induction n as [| n IH]; intros a; [reflexivity |].
  rewrite seq_S, map_app, IH, seq_S. simpl. reflexivity.
Qed.

Lemma matrix_writes_indices (M N : nat) (g : nat -> nat -> R) :
  map fst (matrix_writes M N g) = seq 0 (M * N).
Proof.
  unfold matrix_writes. induction M as [| M IH]; [reflexivity |].
  rewrite seq_S, flat_map_app, map_app, IH. cbn [flat_map].
  rewrite app_nil_r. unfold row_writes. rewrite map_map. cbn [fst Nat.add].
  rewrite seq_shift_add.
  replace (S M * N)%nat with (M * N + N)%nat by lia.
  now rewrite seq_app.
Qed.

Lemma writes_to_indices (k : nat) (ws : list write) :
  writes_to k ws = length (filter (fun x => Nat.eqb x k) (map fst ws)).
Proof.
  unfold writes_to. induction ws as [| w ws IH]; [reflexivity |].
  simpl. destruct (Nat.eqb (fst w) k); simpl; now rewrite IH.
Qed.

Lemma count_in_seq (k n : nat) :
  length (filter (fun x => Nat.eqb x k) (seq 0 n)) =
  if Nat.ltb k n then 1%nat else 0%nat.
Proof.
  induction n as [| n IH]; [reflexivity |].
  rewrite seq_S, filter_app, length_app, IH. cbn [Nat.add seq filter].
  destruct (Nat.eqb n k) eqn:E.
  - apply Nat.eqb_eq in E. subst.
    rewrite Nat.ltb_irrefl, (proj2 (Nat.ltb_lt _ _)) by lia. reflexivity.
  - apply Nat.eqb_neq in E. simpl.
    destruct (Nat.ltb k n) eqn:E1.
    + apply Nat.ltb_lt in E1. rewrite (proj2 (Nat.ltb_lt _ _)) by lia. lia.
    + apply Nat.ltb_ge in E1. rewrite (proj2 (Nat.ltb_ge _ _)) by lia. lia.
Qed.

(** Every element of the matrix is named by exactly one write. *)
Lemma writes_to_matrix (k M N : nat) (g : nat -> nat -> R) :
  writes_to k (matrix_writes M N g) =
  if Nat.ltb k (M * N) then 1%nat else 0%nat.
Proof.
  rewrite writes_to_indices, matrix_writes_indices. apply count_in_seq.
Qed.

Lemma in_matrix_writes (k : nat) (v : R) (M N : nat) (g : nat -> nat -> R) :
  In (k, v) (matrix_writes M N g) <->
  exists i j, (i < M)%nat /\ (j < N)%nat /\ k = (i * N + j)%nat /\ v = g i j.
Proof.
  unfold matrix_writes, row_writes. rewrite in_flat_map. split.
  - intros (i & Hi & Hin). apply in_map_iff in Hin.
    destruct Hin as (j & Hj & Hin). apply in_seq in Hi. apply in_seq in Hin.
    inversion Hj; subst. exists i, j. repeat split; lia.
  - intros (i & j & Hi & Hj & Hk & Hv). subst. exists i. split.
    + apply in_seq. lia.
    + apply in_map_iff. exists j. split; [reflexivity |]. apply in_seq. lia.
Qed.

Lemma matrix_index_inj (N i j i' j' : nat) :
  (j < N)%nat -> (j' < N)%nat -> (i * N + j = i' * N + j')%nat ->
  i = i' /\ j = j'.
Proof.
  intros Hj Hj' H.
  assert (Hi : i = i').
  { rewrite (Nat.div_unique (i * N + j) N i j) by lia.
    rewrite (Nat.div_unique (i' * N + j') N i' j') by lia.
    now rewrite H. }
  subst i'. split; [reflexivity | lia].
Qed.

Lemma matrix_index_bound (M N i j : nat) :
  (i < M)%nat -> (j < N)%nat -> (i * N + j < M * N)%nat.
Proof. intros Hi Hj. nia. Qed.

(** A launch whose writes are, up to the order of the threads, those of
    [matrix_writes] leaves [g i j] at every element and nothing else
    changed. *)
Lemma commit_matrix (M N : nat) (g : nat -> nat -> R) (ws : list write)
    (b : buffer) :
  Permutation ws (matrix_writes M N g) ->
  (forall i j, (i < M)%nat -> (j < N)%nat ->
     commit b ws (i * N + j)%nat = g i j) /\
  (forall k, (M * N <= k)%nat -> commit b ws k = b k).
Proof.
  intros Hp. split.
  - intros i j Hi Hj. apply commit_once.
    + rewrite (writes_to_perm _ _ _ Hp), writes_to_matrix.
      now rewrite (proj2 (Nat.ltb_lt _ _) (matrix_index_bound M N i j Hi Hj)).
    + apply (Permutation_in _ (Permutation_sym Hp)).
      apply in_matrix_writes. exists i, j. auto.
  - intros k Hk. apply commit_untouched.
    rewrite (writes_to_perm _ _ _ Hp), writes_to_matrix.
    now rewrite (proj2 (Nat.ltb_ge _ _) Hk).
Qed.

(** A kernel in which block [i] handles row [i] and lane [t] stores [g i j]
    for the columns [j] of its stride writes the whole matrix. *)
Lemma rowwise_launch (M N B : nat) (g : nat -> nat -> R)
    (kernel : nat -> nat -> list write) :
  (0 < B)%nat ->
  (forall i t, (t < B)%nat ->
     kernel i t = map (fun j => ((i * N + j)%nat, g i j)) (lane_cols t N B)) ->
  Permutation (launch M B kernel) (matrix_writes M N g).
Proof.
  intros HB Hk. rewrite launch_blocks. unfold matrix_writes.
  apply flat_map_pointwise_perm. intros i _.
  rewrite flat_map_ext_in with
    (g := fun t => map (fun j => ((i * N + j)%nat, g i j)) (lane_cols t N B)).
  - rewrite <- map_of_flat_map. unfold row_writes.
    apply Permutation_map, lanes_partition, HB.
  - intros t Ht. apply in_seq in Ht. apply Hk. lia.
Qed.

(** A kernel in which only thread 0 of block [i] stores [g i] at index [i]
    writes each index below the grid size once. *)
Lemma thread0_launch (M B : nat) (g : nat -> R)
    (kernel : nat -> nat -> list write) :
  (0 < B)%nat ->
  (forall i, kernel i 0%nat = [(i, g i)]) ->
  (forall i t, t <> 0%nat -> kernel i t = []) ->
  launch M B kernel = vector_writes M g.
Proof.
  intros HB H0 Ht. rewrite launch_blocks. unfold vector_writes.
  induction (seq 0 M) as [| i l IH]; [reflexivity |].
  cbn [flat_map map]. rewrite IH. f_equal.
  destruct B as [| B]; [lia |].
  cbn [seq flat_map]. rewrite H0.
  rewrite flat_map_ext_in with (g := fun _ => []).
  - simpl. f_equal. induction (seq 1 B); simpl; auto.
  - intros t Hin. apply in_seq in Hin. apply Ht. lia.
Qed.

Lemma writes_to_vector (k M : nat) (g : nat -> R) :
  writes_to k (vector_writes M g) = if Nat.ltb k M then 1%nat else 0%nat.
Proof.
  rewrite writes_to_indices. unfold vector_writes. rewrite map_map.
  cbn [fst]. rewrite map_id. apply count_in_seq.
Qed.

Lemma commit_vector (M : nat) (g : nat -> R) (b : buffer) :
  (forall i, (i < M)%nat -> commit b (vector_writes M g) i = g i) /\
  (forall k, (M <= k)%nat -> commit b (vector_writes M g) k = b k).
Proof.
  split.
  - intros i Hi. apply commit_once.
    + rewrite writes_to_vector. now rewrite (proj2 (Nat.ltb_lt _ _) Hi).
    + unfold vector_writes. apply in_map_iff. exists i.
      split; [reflexivity |]. apply in_seq. lia.
  - intros k Hk. apply commit_untouched.
    rewrite writes_to_vector. now rewrite (proj2 (Nat.ltb_ge _ _) Hk).
Qed.

(** ** The forward pass *)

Lemma LayerNormForward_lane (N : nat) (X mean rstd : buffer)
    (gamma beta : option buffer) (B i t : nat) :
  (t < B)%nat ->
  LayerNormForwardCUDAKernel N X mean rstd gamma beta B i t =
  map (fun j =>
         ((i * N + j)%nat,
          (X (i * N + j)%nat - mean i) * rstd i * read_or gamma 1 j +
          read_or beta 0 j))
      (lane_cols t N B).
Proof.
  intros Ht. unfold LayerNormForwardCUDAKernel.
  rewrite for_stride_lane by exact Ht.
  rewrite (fold_left_snoc
             (fun j => ((i * N + j)%nat,
                (X (i * N + j)%nat - mean i) * rstd i * read_or gamma 1 j +
                read_or beta 0 j))).
  reflexivity.
Qed.

Lemma LayerNormForward_launch (M N B : nat) (X mean rstd : buffer)
    (gamma beta : option buffer) :
  (0 < B)%nat ->
  Permutation
    (launch M B (LayerNormForwardCUDAKernel N X mean rstd gamma beta B))
    (matrix_writes M N
       (fun i j =>
          (X (i * N + j)%nat - mean i) * rstd i * read_or gamma 1 j +
          read_or beta 0 j)).
Proof.
  intros HB. apply rowwise_launch; [exact HB |].
  intros i t Ht. now apply LayerNormForward_lane.
Qed.

Lemma kCUDANumThreads_pos : (0 < kCUDANumThreads)%nat.
Proof. unfold kCUDANumThreads. lia. Qed.

(** C1.  In the launch of the forward kernel by the entry point, for every
    row [i < M] and column [j < N]: [Y[i,j]] receives
    [(X[i,j] - mean[i]) * rstd[i] * scale[j] + shift[j]], with 1 for an
    absent scale and 0 for an absent shift; exactly one write of the launch
    names that element, so no other (row, column) pair affects it; every
    write to it carries that value; and nothing outside the [M * N]
    elements is written. *)
Theorem forward_writes_each_element (M N : nat) (X mean rstd : buffer)
    (gamma beta : option buffer) (Y : buffer) (i j : nat) :
  (i < M)%nat -> (j < N)%nat ->
  let Y_ws :=
    launch M kCUDANumThreads
      (LayerNormForwardCUDAKernel N X mean rstd gamma beta kCUDANumThreads) in
  let y := (X (i * N + j)%nat - mean i) * rstd i * read_or gamma 1 j +
           read_or beta 0 j in
  commit Y Y_ws (i * N + j)%nat = y /\
  writes_to (i * N + j) Y_ws = 1%nat /\
  (forall v, In ((i * N + j)%nat, v) Y_ws -> v = y) /\
  (forall k, (M * N <= k)%nat -> commit Y Y_ws k = Y k).
Proof.
  intros Hi Hj Y_ws y.
  pose proof (LayerNormForward_launch M N kCUDANumThreads X mean rstd
                gamma beta kCUDANumThreads_pos) as Hp.
  fold Y_ws in Hp.
  destruct (commit_matrix M N _ Y_ws Y Hp) as [Hin Hout].
  repeat split.
  - apply Hin; assumption.
  - rewrite (writes_to_perm _ _ _ Hp), writes_to_matrix.
    now rewrite (proj2 (Nat.ltb_lt _ _) (matrix_index_bound M N i j Hi Hj)).
  - intros v Hv. apply (Permutation_in _ Hp) in Hv.
    apply in_matrix_writes in Hv.
    destruct Hv as (i' & j' & Hi' & Hj' & Hk & Hv).
    destruct (matrix_index_inj N i' j' i j Hj' Hj (eq_sym Hk)) as [-> ->].
    exact Hv.
  - exact Hout.
Qed.

Lemma forward_writes_each_element_witness :
  (0 < 1)%nat /\ (0 < 1)%nat /\
  commit (fun _ => 0)
    (launch 1 kCUDANumThreads
       (LayerNormForwardCUDAKernel 1 (fun _ => 5) (fun _ => 3) (fun _ => 2)
          None (Some (fun _ => 1)) kCUDANumThreads)) 0%nat =
  (5 - 3) * 2 * 1 + 1.
Proof.
  split; [lia | split; [lia |]].
  exact (proj1 (forward_writes_each_element 1 1 (fun _ => 5) (fun _ => 3)
                  (fun _ => 2) None (Some (fun _ => 1)) (fun _ => 0) 0 0
                  Nat.lt_0_1 Nat.lt_0_1)).
Defined.

(** ** The backward stats pass *)

Lemma internal_gradients_lane_sums (N : nat) (dY X : buffer)
    (gamma : option buffer) (B i t : nat) :
  (t < B)%nat ->
  internal_gradients_lane N dY X gamma B i t =
  (suml (lane_cols t N B)
        (fun j => at_ N dY i j * at_ N X i j * read_or gamma 1 j),
   suml (lane_cols t N B) (fun j => at_ N dY i j * read_or gamma 1 j)).
Proof.
  intros Ht. unfold internal_gradients_lane.
  rewrite for_stride_lane by exact Ht.
  etransitivity.
  - exact (fold_left_sum2
             (fun j => at_ N dY i j * at_ N X i j * read_or gamma 1 j)
             (fun j => at_ N dY i j * read_or gamma 1 j)
             (lane_cols t N B) (0, 0)).
  - cbn [fst snd]. f_equal; lra.
Qed.

Lemma reducible_block_pos (B : nat) : reducible_block B -> (0 < B)%nat.
Proof.
  intros [Hm Hg]. destruct B; [| lia].
  unfold C10_WARP_SIZE in Hg. simpl in Hg. lia.
Qed.

Lemma ComputeInternalGradients_thread0 (N : nat) (dY X : buffer)
    (gamma : option buffer) (B i : nat) :
  reducible_block B ->
  ComputeInternalGradientsCUDAKernel N dY X gamma B i 0 =
  ([(i, sumn N (fun j => at_ N dY i j * at_ N X i j * read_or gamma 1 j))],
   [(i, sumn N (fun j => at_ N dY i j * read_or gamma 1 j))]).
Proof.
  intros HB. pose proof (reducible_block_pos B HB) as HB0.
  unfold ComputeInternalGradientsCUDAKernel. cbn [Nat.eqb].
  rewrite !BlockReduceSum_thread0 by exact HB.
  rewrite (sumn_ext B _
             (fun t => suml (lane_cols t N B)
                (fun j => at_ N dY i j * at_ N X i j * read_or gamma 1 j))).
  2:{ intros t Ht. now rewrite internal_gradients_lane_sums. }
  rewrite (sumn_ext B (fun t => snd _)
             (fun t => suml (lane_cols t N B)
                (fun j => at_ N dY i j * read_or gamma 1 j))).
  2:{ intros t Ht. now rewrite internal_gradients_lane_sums. }
  now rewrite !sum_lanes.
Qed.

Lemma ComputeInternalGradients_other_threads (N : nat) (dY X : buffer)
    (gamma : option buffer) (B i t : nat) :
  t <> 0%nat ->
  ComputeInternalGradientsCUDAKernel N dY X gamma B i t = ([], []).
Proof.
  intros Ht. unfold ComputeInternalGradientsCUDAKernel.
  now rewrite (proj2 (Nat.eqb_neq _ _) Ht).
Qed.

(** The launch of the stats pass: the writes to [ds] and to [db]. *)
Lemma ComputeInternalGradients_launch (M N : nat) (dY X : buffer)
    (gamma : option buffer) (B : nat) :
  reducible_block B ->
  launch2 M B (ComputeInternalGradientsCUDAKernel N dY X gamma B) =
  (vector_writes M
     (fun i => sumn N (fun j => at_ N dY i j * at_ N X i j * read_or gamma 1 j)),
   vector_writes M
     (fun i => sumn N (fun j => at_ N dY i j * read_or gamma 1 j))).
Proof.
  intros HB. pose proof (reducible_block_pos B HB) as HB0.
  rewrite launch2_blocks. f_equal.
  - apply thread0_launch; [exact HB0 | |].
    + intros i. now rewrite ComputeInternalGradients_thread0.
    + intros i t Ht. now rewrite ComputeInternalGradients_other_threads.
  - apply thread0_launch; [exact HB0 | |].
    + intros i. now rewrite ComputeInternalGradients_thread0.
    + intros i t Ht. now rewrite ComputeInternalGradients_other_threads.
Qed.

Lemma reducible_block_32 : reducible_block 32.
Proof. unfold reducible_block, C10_WARP_SIZE. simpl. lia. Qed.

(** C4.  In the launch of the backward stats kernel, for every row
    [i < M]: [ds[i]] receives the sum over [j < N] of
    [dY[i,j] * X[i,j] * scale[j]] and [db[i]] the sum over [j < N] of
    [dY[i,j] * scale[j]], with 1 for an absent scale, and exactly one write
    of the launch names [ds[i]], and exactly one [db[i]]. *)
Theorem stats_pass_row_sums (B M N : nat) (dY X : buffer)
    (gamma : option buffer) (ds db : buffer) (i : nat) :
  reducible_block B -> (i < M)%nat ->
  let ws := launch2 M B (ComputeInternalGradientsCUDAKernel N dY X gamma B) in
  commit ds (fst ws) i =
    sumn N (fun j => dY (i * N + j)%nat * X (i * N + j)%nat * read_or gamma 1 j) /\
  commit db (snd ws) i =
    sumn N (fun j => dY (i * N + j)%nat * read_or gamma 1 j) /\
  writes_to i (fst ws) = 1%nat /\
  writes_to i (snd ws) = 1%nat.
Proof.
  intros HB Hi ws. subst ws.
  rewrite ComputeInternalGradients_launch by exact HB. cbn [fst snd].
  rewrite !writes_to_vector, (proj2 (Nat.ltb_lt _ _) Hi).
  repeat split.
  - exact (proj1 (commit_vector M
             (fun i => sumn N (fun j =>
                at_ N dY i j * at_ N X i j * read_or gamma 1 j)) ds) i Hi).
  - exact (proj1 (commit_vector M
             (fun i => sumn N (fun j => at_ N dY i j * read_or gamma 1 j))
             db) i Hi).
Qed.

Lemma stats_pass_row_sums_witness :
  reducible_block 32 /\ (0 < 1)%nat /\
  commit (fun _ => 0)
    (fst (launch2 1 32
            (ComputeInternalGradientsCUDAKernel 2 (fun _ => 3) (fun _ => 5)
               None 32))) 0%nat =
  sumn 2 (fun j => 3 * 5 * 1).
Proof.
  split; [exact reducible_block_32 | split; [lia |]].
  exact (proj1 (stats_pass_row_sums 32 1 2 (fun _ => 3) (fun _ => 5) None
                  (fun _ => 0) (fun _ => 0) 0 reducible_block_32 Nat.lt_0_1)).
Defined.

(** ** Launches of one thread per index *)

Lemma flat_map_linear {A : Type} (h : nat -> list A) (grid block : nat) :
  flat_map (fun b => flat_map (fun t => h (b * block + t)%nat) (seq 0 block))
           (seq 0 grid) =
  flat_map h (seq 0 (grid * block)).
Proof.
  induction grid as [| grid IH]; [reflexivity |].
  rewrite seq_S, flat_map_app, IH. cbn [flat_map Nat.add].
  rewrite app_nil_r.
  replace (S grid * block)%nat with (grid * block + block)%nat by lia.
  rewrite seq_app, flat_map_app. f_equal. cbn [Nat.add].
  rewrite <- (seq_shift_add (grid * block) block), flat_map_of_map.
  reflexivity.
Qed.

Lemma flat_map_guarded {A : Type} (f : nat -> A) (M n : nat) :
  (M <= n)%nat ->
  flat_map (fun x => if Nat.ltb x M then [f x] else []) (seq 0 n) =
  map f (seq 0 M).
Proof.
  intros H. replace n with (M + (n - M))%nat by lia.
  rewrite seq_app, flat_map_app. cbn [Nat.add].
  rewrite flat_map_ext_in with (g := fun x => [f x]).
  - rewrite flat_map_ext_in with (l := seq M (n - M)) (g := fun _ => []).
    + assert (E1 : forall l : list nat, flat_map (fun x => [f x]) l = map f l).
      { induction l as [| a l IHl]; simpl; congruence. }
      assert (E2 : forall l : list nat, flat_map (fun _ => @nil A) l = []).
      { induction l as [| a l IHl]; simpl; auto. }
      now rewrite E1, E2, app_nil_r.
    + intros x Hx. apply in_seq in Hx.
      now rewrite (proj2 (Nat.ltb_ge _ _)) by lia.
  - intros x Hx. apply in_seq in Hx.
    now rewrite (proj2 (Nat.ltb_lt _ _)) by lia.
Qed.

(** A kernel in which the thread of linear index [k] stores [g k] at index
    [k] when [k < M] writes each index below [M] once, when the grid covers
    [M]. *)
Lemma guarded_launch (M grid block : nat) (g : nat -> R)
    (kernel : nat -> nat -> list write) :
  (M <= grid * block)%nat ->
  (forall b t,
     kernel b t =
     if Nat.ltb (b * block + t) M
     then [((b * block + t)%nat, g (b * block + t)%nat)] else []) ->
  launch grid block kernel = vector_writes M g.
Proof.
  intros Hcover Hk. rewrite launch_blocks.
  rewrite flat_map_ext_in with
    (g := fun b => flat_map
            (fun t => (fun k => if Nat.ltb k M then [(k, g k)] else [])
                        (b * block + t)%nat) (seq 0 block)).
  - rewrite (flat_map_linear
               (fun k => if Nat.ltb k M then [(k, g k)] else [])).
    apply (flat_map_guarded (fun k => (k, g k))), Hcover.
  - intros b _. apply flat_map_ext_in. intros t _. apply Hk.
Qed.

(** The grid of [ceil(n / block)] blocks covers [n] indices. *)
Lemma grid_covers (n : Z) (block : nat) :
  (0 <= n)%Z -> (0 < block)%nat ->
  (Z.to_nat n <=
   Z.to_nat (Z.quot (n + Z.of_nat block - 1) (Z.of_nat block)) * block)%nat.
Proof.
  intros Hn Hb.
  rewrite Z.quot_div_nonneg by lia.
  pose proof (Z.div_mod (n + Z.of_nat block - 1) (Z.of_nat block)) as Hdm.
  pose proof (Z.mod_pos_bound (n + Z.of_nat block - 1) (Z.of_nat block)) as Hm.
  assert (0 <= (n + Z.of_nat block - 1) / Z.of_nat block)%Z
    by (apply Z.div_pos; lia).
  nia.
Qed.

Lemma mapM_total {A B : Type} (f : A -> option B) (g : A -> B) (l : list A) :
  (forall x, In x l -> f x = Some (g x)) -> mapM f l = Some (map g l).
Proof.
  induction l as [| a l IH]; intros H; [reflexivity |].
  cbn [mapM map]. rewrite (H a (or_introl eq_refl)). cbn [Acc.bind].
  rewrite IH; [reflexivity |]. intros x Hx. apply H. now right.
Qed.

Lemma in_grid_threads (grid block b t : nat) :
  In (b, t) (grid_threads grid block) <-> (b < grid)%nat /\ (t < block)%nat.
Proof.
  unfold grid_threads. rewrite in_flat_map. split.
  - intros (b' & Hb & Hin). apply in_map_iff in Hin.
    destruct Hin as (t' & E & Ht). inversion E; subst.
    apply in_seq in Hb. apply in_seq in Ht. lia.
  - intros [Hb Ht]. exists b. split; [apply in_seq; lia |].
    apply in_map_iff. exists t. split; [reflexivity | apply in_seq; lia].
Qed.

(** A launch whose threads all have a result is the launch of the kernel
    of those results. *)
Lemma launch2_partial_total (grid block : nat)
    (kernel : nat -> nat -> option (list write * list write))
    (total : nat -> nat -> list write * list write) :
  (forall b t, (b < grid)%nat -> (t < block)%nat ->
     kernel b t = Some (total b t)) ->
  launch2_partial grid block kernel = Some (launch2 grid block total).
Proof.
  intros H. unfold launch2_partial.
  rewrite (mapM_total _ (fun bt => total (fst bt) (snd bt))).
  - cbn [Acc.bind]. unfold launch2. now rewrite !flat_map_of_map.
  - intros [b t] Hin. apply in_grid_threads in Hin. apply H; tauto.
Qed.

(** A launch in which one thread has no result has none. *)
Lemma mapM_none {A B : Type} (f : A -> option B) (l : list A) (x : A) :
  In x l -> f x = None -> mapM f l = None.
Proof.
  induction l as [| a l IH]; intros Hin Hx; [contradiction |].
  cbn [mapM]. destruct Hin as [-> | Hin].
  - now rewrite Hx.
  - destruct (f a); [| reflexivity]. cbn [Acc.bind].
    now rewrite (IH Hin Hx).
Qed.

Lemma launch2_partial_none (grid block b t : nat)
    (kernel : nat -> nat -> option (list write * list write)) :
  (b < grid)%nat -> (t < block)%nat -> kernel b t = None ->
  launch2_partial grid block kernel = None.
Proof.
  intros Hb Ht H. unfold launch2_partial.
  rewrite (mapM_none _ _ (b, t)); auto.
  apply in_grid_threads. auto.
Qed.

(** ** Launches of kernels that agree thread by thread *)

Lemma for_stride_ext {St : Type} (N stride : nat)
    (body body' : nat -> St -> St) :
  (forall c s, (c < N)%nat -> body c s = body' c s) ->
  forall fuel j s,
    for_stride fuel j N stride body s = for_stride fuel j N stride body' s.
Proof.
  intros H. induction fuel as [| fuel IH]; intros j s; [reflexivity |].
  cbn [for_stride]. destruct (Nat.ltb j N) eqn:Hj; [| reflexivity].
  apply Nat.ltb_lt in Hj. rewrite (H j s Hj). apply IH.
Qed.

Lemma mapM_ext_in {A B : Type} (f g : A -> option B) (l : list A) :
  (forall x, In x l -> f x = g x) -> mapM f l = mapM g l.
Proof.
  induction l as [| a l IH]; intros H; [reflexivity |].
  cbn [mapM]. rewrite (H a (or_introl eq_refl)).
  rewrite IH; [reflexivity |]. intros x Hx. apply H. now right.
Qed.

Lemma launch_ext (grid block : nat) (k k' : nat -> nat -> list write) :
  (forall b t, (b < grid)%nat -> (t < block)%nat -> k b t = k' b t) ->
  launch grid block k = launch grid block k'.
Proof.
  intros H. unfold launch. apply flat_map_ext_in.
  intros [b t] Hin. apply in_grid_threads in Hin. now apply H.
Qed.

Lemma launch2_ext (grid block : nat)
    (k k' : nat -> nat -> list write * list write) :
  (forall b t, (b < grid)%nat -> (t < block)%nat -> k b t = k' b t) ->
  launch2 grid block k = launch2 grid block k'.
Proof.
  intros H. unfold launch2.
  f_equal; apply flat_map_ext_in; intros [b t] Hin;
    apply in_grid_threads in Hin; cbn [fst snd]; now rewrite H.
Qed.

Lemma launch2_partial_ext (grid block : nat)
    (k k' : nat -> nat -> option (list write * list write)) :
  (forall b t, (b < grid)%nat -> (t < block)%nat -> k b t = k' b t) ->
  launch2_partial grid block k = launch2_partial grid block k'.
Proof.
  intros H. unfold launch2_partial.
  rewrite (mapM_ext_in (fun bt => k (fst bt) (snd bt))
             (fun bt => k' (fst bt) (snd bt))); [reflexivity |].
  intros [b t] Hin. apply in_grid_threads in Hin. now apply H.
Qed.

(** ** Indices computed in 32 bits *)

Lemma uint32_small (n : nat) : (Z.of_nat n < 2 ^ 32)%Z -> uint32 n = n.
Proof. intros H. unfold uint32. rewrite Z.mod_small by lia. lia. Qed.


(** The linear index of a thread of a launch of at most 2^32 threads does
    not wrap. *)
Lemma thread_index_small (grid block b t : nat) :
  (Z.of_nat (grid * block) <= 2 ^ 32)%Z -> (b < grid)%nat -> (t < block)%nat ->
  uint32 (b * block + t) = (b * block + t)%nat.
Proof. intros H Hb Ht. apply uint32_small. nia. Qed.

(** A grid that does not exceed [maxGridSize] is taken as it is. *)
Lemma grid_blocks_small (g : Z) :
  (0 <= g <= maxGridSize)%Z -> grid_blocks g = Z.to_nat g.
Proof.
  unfold grid_blocks, maxGridSize. intros H. cbv zeta.
  rewrite Z.mod_small by (unfold maxGridSize in H; lia).
  rewrite (proj2 (Z.leb_le _ _)) by (unfold maxGridSize in H; lia).
  reflexivity.
Qed.

(** The grid [ceil(n / block)] over [n <= 2^32] indices has at most 2^32
    threads and does not exceed [maxGridSize]. *)
Lemma ceil_grid_fits (n : Z) (block : nat) :
  (0 <= n <= 2 ^ 32)%Z -> block = 256%nat \/ block = 32%nat ->
  let g := Z.quot (n + Z.of_nat block - 1) (Z.of_nat block) in
  (0 <= g <= maxGridSize)%Z /\ (g * Z.of_nat block <= 2 ^ 32)%Z.
Proof.
  intros Hn Hblock g. unfold g, maxGridSize.
  rewrite Z.quot_div_nonneg by lia.
  destruct Hblock as [-> | ->]; cbn [Z.of_nat Pos.of_succ_nat Pos.succ].
  - assert (H1 : (0 <= (n + 256 - 1) / 256)%Z) by (apply Z.div_pos; lia).
    assert (H2 : ((n + 256 - 1) / 256 < 2 ^ 24 + 1)%Z)
      by (apply Z.div_lt_upper_bound; lia).
    change (Z.of_nat 256) with 256%Z. lia.
  - assert (H1 : (0 <= (n + 32 - 1) / 32)%Z) by (apply Z.div_pos; lia).
    assert (H2 : ((n + 32 - 1) / 32 < 2 ^ 27 + 1)%Z)
      by (apply Z.div_lt_upper_bound; lia).
    change (Z.of_nat 32) with 32%Z. lia.
Qed.

(** ** The input-gradient chain *)

Lemma ComputeGradientFusedParams_thread (M N : nat)
    (mean rstd ds db : buffer) (blockDim b t : nat) :
  (1 <= N)%nat ->
  ComputeGradientFusedParamsCUDAKernel M N mean rstd ds db blockDim b t =
  Some (if Nat.ltb (uint32 (b * blockDim + t)) M
        then ([(uint32 (b * blockDim + t),
                fused_c1 N mean rstd ds db (uint32 (b * blockDim + t)))],
              [(uint32 (b * blockDim + t),
                fused_c2 N mean rstd ds db (uint32 (b * blockDim + t)))])
        else ([], [])).
Proof.
  intros HN. unfold ComputeGradientFusedParamsCUDAKernel. cbv zeta.
  destruct (Nat.ltb (uint32 (b * blockDim + t)) M); [| reflexivity].
  unfold Acc.div. destruct (Req_dec_T (INR N) 0) as [E | _].
  - exfalso. revert E. apply not_0_INR. lia.
  - cbn [Acc.bind]. unfold fused_c2, fused_c1.
    do 2 f_equal; f_equal; f_equal; ring.
Qed.

(** With no column, every thread of the fused-coefficient pass that has a
    row divides 1 by [N = 0]. *)
Lemma ComputeGradientFusedParams_thread_empty (M : nat)
    (mean rstd ds db : buffer) (blockDim b t : nat) :
  (uint32 (b * blockDim + t) < M)%nat ->
  ComputeGradientFusedParamsCUDAKernel M 0 mean rstd ds db blockDim b t = None.
Proof.
  intros H. unfold ComputeGradientFusedParamsCUDAKernel. cbv zeta.
  rewrite (proj2 (Nat.ltb_lt _ _) H). unfold Acc.div. cbn [INR].
  destruct (Req_dec_T 0 0) as [_ | Hne]; [reflexivity | contradiction].
Qed.

Lemma ComputeGradientFusedParams_launch (M N grid block : nat)
    (mean rstd ds db : buffer) :
  (1 <= N)%nat -> (M <= grid * block)%nat ->
  (Z.of_nat (grid * block) <= 2 ^ 32)%Z ->
  launch2_partial grid block
    (ComputeGradientFusedParamsCUDAKernel M N mean rstd ds db block) =
  Some (vector_writes M (fused_c1 N mean rstd ds db),
        vector_writes M (fused_c2 N mean rstd ds db)).
Proof.
  intros HN Hcover Hfits.
  rewrite (launch2_partial_total grid block _
             (fun b t =>
                if Nat.ltb (b * block + t) M
                then ([((b * block + t)%nat,
                        fused_c1 N mean rstd ds db (b * block + t))],
                      [((b * block + t)%nat,
                        fused_c2 N mean rstd ds db (b * block + t))])
                else ([], []))).
  - rewrite launch2_blocks. f_equal. f_equal.
    + apply guarded_launch; [exact Hcover |].
      intros b t. now destruct (Nat.ltb (b * block + t) M).
    + apply guarded_launch; [exact Hcover |].
      intros b t. now destruct (Nat.ltb (b * block + t) M).
  - intros b t Hb Ht.
    rewrite ComputeGradientFusedParams_thread by exact HN.
    now rewrite (thread_index_small grid block b t Hfits Hb Ht).
Qed.

Lemma LayerNormBackward_launch (M N B : nat) (dY X : buffer)
    (gamma : option buffer) (a b c : buffer) :
  (0 < B)%nat ->
  Permutation
    (launch M B (LayerNormBackwardCUDAKenrel N dY X gamma a b c B))
    (matrix_writes M N
       (fun i j =>
          a i * dY (i * N + j)%nat * read_or gamma 1 j +
          b i * X (i * N + j)%nat + c i)).
Proof.
  intros HB. apply rowwise_launch; [exact HB |].
  intros i t Ht. unfold LayerNormBackwardCUDAKenrel.
  rewrite for_stride_lane by exact Ht.
  rewrite (fold_left_snoc
             (fun j => ((i * N + j)%nat,
                a i * dY (i * N + j)%nat * read_or gamma 1 j +
                b i * X (i * N + j)%nat + c i))).
  reflexivity.
Qed.

Lemma fused_grid_covers (M : nat) :
  (M <=
   Z.to_nat (Z.quot (Z.of_nat M + Z.of_nat kCUDANumThreads - 1)
                    (Z.of_nat kCUDANumThreads)) * kCUDANumThreads)%nat.
Proof.
  pose proof (grid_covers (Z.of_nat M) kCUDANumThreads
                (Nat2Z.is_nonneg M) kCUDANumThreads_pos) as H.
  now rewrite Nat2Z.id in H.
Qed.

(** For at most 2^32 rows the coefficient pass has at most 2^32 threads. *)
Lemma fused_grid_fits (M : nat) :
  (Z.of_nat M <= 2 ^ 32)%Z ->
  (Z.of_nat
     (Z.to_nat (Z.quot (Z.of_nat M + Z.of_nat kCUDANumThreads - 1)
                       (Z.of_nat kCUDANumThreads)) * kCUDANumThreads) <=
   2 ^ 32)%Z.
Proof.
  intros HM.
  destruct (ceil_grid_fits (Z.of_nat M) kCUDANumThreads) as [Hg Hfit];
    [lia | now left |].
  cbv zeta in Hg, Hfit. rewrite Nat2Z.inj_mul, Z2Nat.id by lia. exact Hfit.
Qed.

(** The three launches that compute [dX], for rows of at least one column:
    the coefficient pass is defined, and [dX] is written by the last launch
    from the buffers the first two filled. *)
Lemma backward_dX_launches_defined (B : nat) (uninit : buffer) (M N : nat)
    (dY X mean rstd : buffer) (gamma : option buffer) (dX : Tensor) :
  reducible_block B -> (1 <= N)%nat -> (Z.of_nat M <= 2 ^ 32)%Z ->
  let ds := commit uninit (vector_writes M (row_ds N dY X gamma)) in
  let db := commit uninit (vector_writes M (row_db N dY gamma)) in
  let c1 := commit uninit (vector_writes M (fused_c1 N mean rstd ds db)) in
  let c2 := commit uninit (vector_writes M (fused_c2 N mean rstd ds db)) in
  backward_dX_launches B uninit M N dY X mean rstd gamma dX =
  Some (written dX
          (launch M kCUDANumThreads
             (LayerNormBackwardCUDAKenrel N dY X gamma rstd c1 c2
                kCUDANumThreads))).
Proof.
  intros HB HN HM ds db c1 c2.
  unfold backward_dX_launches, backward_dX_launches_on.
  rewrite ComputeInternalGradients_launch by exact HB.
  fold (row_ds N dY X gamma) (row_db N dY gamma).
  change (fun i => sumn N (fun j => at_ N dY i j * at_ N X i j * read_or gamma 1 j))
    with (row_ds N dY X gamma).
  change (fun i => sumn N (fun j => at_ N dY i j * read_or gamma 1 j))
    with (row_db N dY gamma).
  fold ds db.
  rewrite ComputeGradientFusedParams_launch
    by (try exact HN; try apply fused_grid_covers; now apply fused_grid_fits).
  reflexivity.
Qed.

(** ** Writes that agree *)

Lemma writes_to_pos_In (k : nat) (ws : list write) :
  (1 <= writes_to k ws)%nat -> exists v, In (k, v) ws.
Proof.
  induction ws as [| [k' v'] ws IH]; intros H.
  - unfold writes_to in H. simpl in H. lia.
  - rewrite writes_to_cons in H. cbn [fst] in H.
    destruct (Nat.eqb k' k) eqn:E.
    + apply Nat.eqb_eq in E. subst. exists v'. now left.
    + destruct IH as [v Hv]; [lia |]. exists v. now right.
Qed.

Lemma commit_no_write (ws : list write) (b : buffer) (k : nat) :
  (forall v, ~ In (k, v) ws) -> commit b ws k = b k.
Proof.
  intros H. apply commit_untouched.
  destruct (writes_to k ws) eqn:E; [reflexivity |].
  destruct (writes_to_pos_In k ws) as [v Hv]; [lia |].
  now apply H in Hv.
Qed.

(** When every write of a launch to index [k] carries the same value, the
    index receives that value, however many threads wrote it and in
    whatever order. *)
Lemma commit_functional (ws : list write) :
  forall (b : buffer) (k : nat) (v : R),
  (forall v', In (k, v') ws -> v' = v) -> In (k, v) ws -> commit b ws k = v.
Proof.
  induction ws as [| w ws IH]; intros b k v Hfun Hin; [contradiction |].
  change (commit b (w :: ws)) with (commit (store b w) ws).
  destruct (writes_to k ws) eqn:E.
  - rewrite commit_untouched by exact E.
    destruct Hin as [-> | Hin].
    + unfold store. cbn [fst snd]. now rewrite Nat.eqb_refl.
    + apply writes_to_In in Hin. lia.
  - destruct (writes_to_pos_In k ws) as [v' Hv']; [lia |].
    assert (v' = v) by (apply Hfun; now right). subst v'.
    apply IH; [| exact Hv']. intros v'' H''. apply Hfun. now right.
Qed.

Lemma in_launch (grid block : nat) (kernel : nat -> nat -> list write)
    (w : write) :
  In w (launch grid block kernel) <->
  exists b t, (b < grid)%nat /\ (t < block)%nat /\ In w (kernel b t).
Proof.
  unfold launch. rewrite in_flat_map. split.
  - intros ([b t] & Hbt & Hin). apply in_grid_threads in Hbt.
    exists b, t. tauto.
  - intros (b & t & Hb & Ht & Hin). exists (b, t). split; [| exact Hin].
    apply in_grid_threads. auto.
Qed.

(** ** The parameter-gradient reduction: the simple kernel *)

Lemma lane_cols_all (M : nat) : lane_cols 0 M 1 = seq 0 M.
Proof.
  unfold lane_cols. induction (seq 0 M) as [| a l IH]; [reflexivity |].
  cbn [filter]. rewrite Nat.mod_1_r. cbn [Nat.eqb]. now rewrite IH.
Qed.

Lemma column_sums_loop (M N j : nat) (dY X mean rstd : buffer)
    (dg db : option buffer) :
  for_stride M 0 M 1
    (fun i '(sum1, sum2) =>
       let index := (i * N + j)%nat in
       (sum1 + dg_term dY X mean rstd dg i index,
        sum2 + db_term dY db index))
    (0, 0) =
  (sumn M (fun i => dg_term dY X mean rstd dg i (i * N + j)),
   sumn M (fun i => db_term dY db (i * N + j))).
Proof.
  rewrite for_stride_lane by lia. rewrite lane_cols_all.
  etransitivity.
  - exact (fold_left_sum2
             (fun i => dg_term dY X mean rstd dg i (i * N + j))
             (fun i => db_term dY db (i * N + j)) (seq 0 M) (0, 0)).
  - cbn [fst snd]. rewrite !sumn_suml. f_equal; lra.
Qed.

Lemma dg_term_requested (M N j : nat) (dY X mean rstd g : buffer) :
  sumn M (fun i => dg_term dY X mean rstd (Some g) i (i * N + j)) =
  col_dgamma M N dY X mean rstd j.
Proof. reflexivity. Qed.

Lemma db_term_requested (M N j : nat) (dY g : buffer) :
  sumn M (fun i => db_term dY (Some g) (i * N + j)) = col_dbeta M N dY j.
Proof. reflexivity. Qed.

Lemma GammaBetaBackwardSimple_thread (M N : nat) (dY X mean rstd : buffer)
    (dg db : option buffer) (blockDim b t : nat) :
  GammaBetaBackwardSimpleCUDAKernel M N dY X mean rstd dg db blockDim b t =
  let j := uint32 (b * blockDim + t) in
  if Nat.ltb j N then
    (store_if dg j (sumn M (fun i => dg_term dY X mean rstd dg i (i * N + j))),
     store_if db j (sumn M (fun i => db_term dY db (i * N + j))))
  else ([], []).
Proof.
  unfold GammaBetaBackwardSimpleCUDAKernel. cbv zeta.
  destruct (Nat.ltb (uint32 (b * blockDim + t)) N); [| reflexivity].
  now rewrite column_sums_loop.
Qed.

(** What a write of the simple kernel to [dg] is. *)
Lemma GammaBetaBackwardSimple_dg_writes (M N : nat) (dY X mean rstd : buffer)
    (dg db : option buffer) (grid block k : nat) (v : R) :
  (Z.of_nat (grid * block) <= 2 ^ 32)%Z ->
  In (k, v)
     (fst (launch2 grid block
             (GammaBetaBackwardSimpleCUDAKernel M N dY X mean rstd dg db block)))
  <->
  (k < N)%nat /\ (k < grid * block)%nat /\ (0 < block)%nat /\
  dg <> None /\ v = col_dgamma M N dY X mean rstd k.
Proof.
  intros Hfits.
  rewrite launch2_blocks. cbn [fst]. rewrite in_launch. split.
  - intros (b & t & Hb & Ht & Hin).
    rewrite GammaBetaBackwardSimple_thread in Hin. cbv zeta in Hin.
    rewrite (thread_index_small grid block b t Hfits Hb Ht) in Hin.
    destruct (Nat.ltb (b * block + t) N) eqn:E; [| contradiction].
    apply Nat.ltb_lt in E. destruct dg as [g |]; [| contradiction].
    cbn [fst store_if] in Hin. destruct Hin as [Hin | []].
    inversion Hin; subst.
    split; [lia |]. split; [nia |]. split; [lia |].
    split; [discriminate | reflexivity].
  - intros (Hk & Hcover & Hblock & Hreq & ->).
    exists (k / block)%nat, (k mod block)%nat.
    assert (Hkk : ((k / block) * block + k mod block)%nat = k).
    { pose proof (Nat.div_mod_eq k block). lia. }
    split; [apply Nat.Div0.div_lt_upper_bound; lia |].
    split; [apply Nat.mod_upper_bound; lia |].
    rewrite GammaBetaBackwardSimple_thread. cbv zeta. rewrite Hkk.
    rewrite (uint32_small k) by lia.
    rewrite (proj2 (Nat.ltb_lt _ _) Hk).
    destruct dg as [g |]; [| contradiction]. now left.
Qed.

(** What a write of the simple kernel to [db] is. *)
Lemma GammaBetaBackwardSimple_db_writes (M N : nat) (dY X mean rstd : buffer)
    (dg db : option buffer) (grid block k : nat) (v : R) :
  (Z.of_nat (grid * block) <= 2 ^ 32)%Z ->
  In (k, v)
     (snd (launch2 grid block
             (GammaBetaBackwardSimpleCUDAKernel M N dY X mean rstd dg db block)))
  <->
  (k < N)%nat /\ (k < grid * block)%nat /\ (0 < block)%nat /\
  db <> None /\ v = col_dbeta M N dY k.
Proof.
  intros Hfits.
  rewrite launch2_blocks. cbn [snd]. rewrite in_launch. split.
  - intros (b & t & Hb & Ht & Hin).
    rewrite GammaBetaBackwardSimple_thread in Hin. cbv zeta in Hin.
    rewrite (thread_index_small grid block b t Hfits Hb Ht) in Hin.
    destruct (Nat.ltb (b * block + t) N) eqn:E; [| contradiction].
    apply Nat.ltb_lt in E. destruct db as [g |]; [| contradiction].
    cbn [snd store_if] in Hin. destruct Hin as [Hin | []].
    inversion Hin; subst.
    split; [lia |]. split; [nia |]. split; [lia |].
    split; [discriminate | reflexivity].
  - intros (Hk & Hcover & Hblock & Hreq & ->).
    exists (k / block)%nat, (k mod block)%nat.
    assert (Hkk : ((k / block) * block + k mod block)%nat = k).
    { pose proof (Nat.div_mod_eq k block). lia. }
    split; [apply Nat.Div0.div_lt_upper_bound; lia |].
    split; [apply Nat.mod_upper_bound; lia |].
    rewrite GammaBetaBackwardSimple_thread. cbv zeta. rewrite Hkk.
    rewrite (uint32_small k) by lia.
    rewrite (proj2 (Nat.ltb_lt _ _) Hk).
    destruct db as [g |]; [| contradiction]. now left.
Qed.

(** ** The parameter-gradient reduction: the tiled kernel *)

Lemma suml_filter (c : nat -> bool) (l : list nat) (f : nat -> R) :
  suml l (fun i => if c i then f i else 0) = suml (filter c l) f.
Proof.
  unfold suml. induction l as [| a l IH]; [reflexivity |].
  simpl. destruct (c a); simpl; rewrite IH; lra.
Qed.

Lemma lane_cols_NoDup (t N B : nat) : NoDup (lane_cols t N B).
Proof. apply NoDup_filter, seq_NoDup. Qed.

Lemma mod_stripe_up (B h y i : nat) :
  B = (h * 2)%nat -> (y < h)%nat -> i mod B = y -> (i + h) mod B = (y + h)%nat.
Proof.
  intros HB Hy Hi. symmetry.
  apply Nat.mod_unique with (q := (i / B)%nat); [lia |].
  pose proof (Nat.div_mod_eq i B). lia.
Qed.

Lemma mod_stripe_down (B h y x : nat) :
  B = (h * 2)%nat -> (y < h)%nat -> x mod B = (y + h)%nat ->
  (h <= x)%nat /\ (x - h) mod B = y.
Proof.
  intros HB Hy Hx.
  pose proof (Nat.div_mod_eq x B) as Hdm.
  split; [lia |]. symmetry.
  apply Nat.mod_unique with (q := (x / B)%nat); lia.
Qed.

(** The second row stripe of a lane of the tiled kernel: the rows [i + h]
    for the rows [i] of the first stripe, as long as they exist, are the
    rows of the lane [y + h] of a block twice as high. *)
Lemma second_stripe (M h y : nat) (f : nat -> R) :
  (y < h)%nat ->
  suml (lane_cols y M (h * 2))
       (fun i => if Nat.ltb (i + h) M then f (i + h)%nat else 0) =
  suml (lane_cols (y + h) M (h * 2)) f.
Proof.
  intros Hy.
  rewrite (suml_filter (fun i => Nat.ltb (i + h) M) _ (fun i => f (i + h)%nat)).
  rewrite <- (suml_map (fun i => (i + h)%nat)).
  apply suml_perm, NoDup_Permutation.
  - apply Finite.Injective_map_NoDup.
    + intros a b Hab. lia.
    + apply NoDup_filter, lane_cols_NoDup.
  - apply lane_cols_NoDup.
  - intros x. rewrite in_map_iff, in_lane_cols. split.
    + intros (i & <- & Hin). apply filter_In in Hin.
      destruct Hin as [Hin Hlt]. apply in_lane_cols in Hin.
      apply Nat.ltb_lt in Hlt. split; [exact Hlt |].
      apply (mod_stripe_up (h * 2) h y i); tauto.
    + intros [Hx Hmod].
      destruct (mod_stripe_down (h * 2) h y x eq_refl Hy Hmod) as [Hle Hm].
      exists (x - h)%nat. split; [lia |].
      apply filter_In. split.
      * apply in_lane_cols. split; [lia | exact Hm].
      * apply Nat.ltb_lt. lia.
Qed.

Lemma fold_left_stripes (cond : nat -> bool) (f f2 g g2 : nat -> R)
    (l : list nat) :
  forall s0 : R * R * R * R,
  fold_left
    (fun s i =>
       let '(s1, s2, s3, s4) := s in
       if cond i then (s1 + f i, s2 + f2 i, s3 + g i, s4 + g2 i)
       else (s1 + f i, s2, s3 + g i, s4))
    l s0 =
  let '(s1, s2, s3, s4) := s0 in
  (s1 + suml l f, s2 + suml l (fun i => if cond i then f2 i else 0),
   s3 + suml l g, s4 + suml l (fun i => if cond i then g2 i else 0)).
Proof.
  unfold suml.
  induction l as [| a l IH]; intros [[[s1 s2] s3] s4].
  - simpl. f_equal; [f_equal; [f_equal |] |]; lra.
  - cbn [fold_left]. destruct (cond a) eqn:E; rewrite IH; simpl; rewrite E;
      (f_equal; [f_equal; [f_equal |] |]; lra).
Qed.

(** The four partial sums of a lane of the tiled kernel: the sums over the
    rows of its two stripes for its column, or zero for a lane beyond the
    last column. *)
Lemma gamma_beta_lane_sums (M N : nat) (dY X mean rstd : buffer)
    (dg db : option buffer) (bdx h b tx ty : nat) :
  (ty < h)%nat ->
  gamma_beta_lane M N dY X mean rstd dg db bdx h b tx ty =
  let j := uint32 (b * bdx + tx) in
  if Nat.ltb j N then
    (suml (lane_cols ty M (h * 2))
          (fun i => dg_term dY X mean rstd dg i (i * N + j)),
     suml (lane_cols (ty + h) M (h * 2))
          (fun i => dg_term dY X mean rstd dg i (i * N + j)),
     suml (lane_cols ty M (h * 2)) (fun i => db_term dY db (i * N + j)),
     suml (lane_cols (ty + h) M (h * 2)) (fun i => db_term dY db (i * N + j)))
  else (0, 0, 0, 0).
Proof.
  intros Hty. unfold gamma_beta_lane. cbv zeta.
  destruct (Nat.ltb (uint32 (b * bdx + tx)) N); [| reflexivity].
  rewrite for_stride_lane by lia.
  etransitivity.
  - exact (fold_left_stripes
             (fun i => Nat.ltb (i + h) M)
             (fun i => dg_term dY X mean rstd dg i (i * N + uint32 (b * bdx + tx)))
             (fun i => dg_term dY X mean rstd dg (i + h)
                         ((i + h) * N + uint32 (b * bdx + tx)))
             (fun i => db_term dY db (i * N + uint32 (b * bdx + tx)))
             (fun i => db_term dY db ((i + h) * N + uint32 (b * bdx + tx)))
             (lane_cols ty M (h * 2)) (0, 0, 0, 0)).
  - cbv iota beta.
    rewrite (second_stripe M h ty
               (fun i => dg_term dY X mean rstd dg i (i * N + uint32 (b * bdx + tx)))
               Hty).
    rewrite (second_stripe M h ty
               (fun i => db_term dY db (i * N + uint32 (b * bdx + tx))) Hty).
    f_equal; [f_equal; [f_equal |] |]; lra.
Qed.

Lemma in_tile_writes (P : nat -> nat -> R) (k : nat) (v : R) :
  In (k, v) (tile_writes P) <->
  exists r c, (r < 32)%nat /\ (c < 32)%nat /\ k = tile_index r c /\ v = P r c.
Proof.
  unfold tile_writes. rewrite in_flat_map. split.
  - intros ([y x] & Hyx & Hin). apply in_grid_threads in Hyx.
    cbn [fst snd] in Hin. destruct Hin as [E | [E | []]]; inversion E; subst.
    + exists y, x. repeat split; lia.
    + exists (y + 16)%nat, x. repeat split; lia.
  - intros (r & c & Hr & Hc & -> & ->).
    destruct (Nat.lt_ge_cases r 16) as [Hlt | Hge].
    + exists (r, c). split; [apply in_grid_threads; lia |]. now left.
    + exists ((r - 16)%nat, c). split; [apply in_grid_threads; lia |].
      right. left. cbn [fst snd].
      replace (r - 16 + 16)%nat with r by lia. reflexivity.
Qed.

Lemma tile_index_inj (r c r' c' : nat) :
  (c < 32)%nat -> (c' < 32)%nat -> tile_index r c = tile_index r' c' ->
  r = r' /\ c = c'.
Proof.
  unfold tile_index, kColwiseReduceTileSize. intros Hc Hc' H.
  apply (matrix_index_inj (32 + 1) r c r' c'); lia.
Qed.

(** After the barrier, element [a[r][c]] of a shared tile holds the value
    stored by the thread that owns it, whatever the tile held before. *)
Lemma tile_content (P : nat -> nat -> R) (smem : buffer) (r c : nat) :
  (r < 32)%nat -> (c < 32)%nat ->
  commit smem (tile_writes P) (tile_index r c) = P r c.
Proof.
  intros Hr Hc. apply commit_functional.
  - intros v' Hin. apply in_tile_writes in Hin.
    destruct Hin as (r' & c' & Hr' & Hc' & Hk & ->).
    destruct (tile_index_inj r c r' c' Hc Hc' Hk) as [-> ->]. reflexivity.
  - apply in_tile_writes. exists r, c. auto.
Qed.

Lemma warp_collective_sum (v : nat -> R) (w : nat) :
  warp_collective Rplus v (w * C10_WARP_SIZE) =
  sumn C10_WARP_SIZE (fun l => v (w * C10_WARP_SIZE + l)%nat).
Proof.
  rewrite <- msum_Rplus.
  apply (warp_collective_rel Rplus Rplus 0 (@eq R)); auto.
  - intros; lra.
  - intros; lra.
  - intros; lra.
  - intros; subst; reflexivity.
Qed.

(** The transposed read and the reduction over the lane group: lane 0 of
    the group [ty] receives the sum of column [ty + shift] of the tile. *)
Lemma tile_transpose_sum (P : nat -> nat -> R) (smem : buffer)
    (ty shift : nat) :
  (ty + shift < 32)%nat ->
  warp_collective Rplus
    (fun t => commit smem (tile_writes P)
                (tile_index (t mod 32) (t / 32 + shift)))
    (ty * 32 + 0) =
  sumn 32 (fun l => P l (ty + shift)%nat).
Proof.
  intros H. rewrite Nat.add_0_r.
  change 32%nat with C10_WARP_SIZE at 3.
  rewrite warp_collective_sum. unfold C10_WARP_SIZE.
  apply sumn_ext. intros l Hl.
  replace ((ty * 32 + l) mod 32) with l.
  - replace ((ty * 32 + l) / 32)%nat with ty.
    + apply tile_content; lia.
    + apply Nat.div_unique with (r := l); lia.
  - apply Nat.mod_unique with (q := ty); lia.
Qed.

Lemma sumn_tile_value (M N b : nat) (f : nat -> nat -> R) (c : nat) :
  sumn 32 (fun l => tile_value M N b f l c) =
  if Nat.ltb (uint32 (b * 32 + c)) N
  then sumn M (f (uint32 (b * 32 + c))) else 0.
Proof.
  unfold tile_value. destruct (Nat.ltb (uint32 (b * 32 + c)) N).
  - apply sum_lanes. lia.
  - rewrite <- msum_Rplus. apply (msum_zero Rplus 0). intros; lra.
Qed.

(** The writes of the threads of a block to the two shared tiles. *)
Lemma shared_tiles (M N : nat) (dY X mean rstd : buffer)
    (dg db : option buffer) (b : nat) :
  flat_map
    (fun yx =>
       fst (gamma_beta_shared_writes M N dY X mean rstd dg db 32 16 b
              (snd yx) (fst yx)))
    (grid_threads 16 32) =
  tile_writes
    (tile_value M N b (fun j i => dg_term dY X mean rstd dg i (i * N + j))) /\
  flat_map
    (fun yx =>
       snd (gamma_beta_shared_writes M N dY X mean rstd dg db 32 16 b
              (snd yx) (fst yx)))
    (grid_threads 16 32) =
  tile_writes (tile_value M N b (fun j i => db_term dY db (i * N + j))).
Proof.
  unfold tile_writes.
  split; apply flat_map_ext_in; intros [y x] Hyx;
    apply in_grid_threads in Hyx; cbn [fst snd];
    unfold gamma_beta_shared_writes;
    rewrite gamma_beta_lane_sums by lia; cbv zeta; unfold tile_value;
    change (16 * 2)%nat with 32%nat;
    destruct (Nat.ltb (uint32 (b * 32 + x)) N); reflexivity.
Qed.

(** The writes of one thread of the tiled kernel: lane 0 of the lane group
    [ty] stores the sums of the columns [ty] and [ty + 16] of its tile, when
    they are columns of the matrix; the other lanes store nothing. *)
Lemma GammaBetaBackward_thread (M N : nat) (dY X mean rstd : buffer)
    (dg db : option buffer) (smem : buffer) (b tx ty : nat) :
  (ty < 16)%nat ->
  GammaBetaBackwardCUDAKernel M N dY X mean rstd dg db smem 32 16 b tx ty =
  if Nat.eqb tx 0 then
    let j1 := uint32 (b * 32 + ty) in
    let j2 := uint32 (b * 32 + (ty + 16)) in
    ((if Nat.ltb j1 N
      then store_if dg j1
             (sumn M (fun i => dg_term dY X mean rstd dg i (i * N + j1)))
      else []) ++
     (if Nat.ltb j2 N
      then store_if dg j2
             (sumn M (fun i => dg_term dY X mean rstd dg i (i * N + j2)))
      else []),
     (if Nat.ltb j1 N
      then store_if db j1 (sumn M (fun i => db_term dY db (i * N + j1)))
      else []) ++
     (if Nat.ltb j2 N
      then store_if db j2 (sumn M (fun i => db_term dY db (i * N + j2)))
      else []))
  else ([], []).
Proof.
  intros Hty. unfold GammaBetaBackwardCUDAKernel. cbv zeta.
  destruct (Nat.eqb tx 0) eqn:Etx; [| reflexivity].
  apply Nat.eqb_eq in Etx. subst tx.
  destruct (shared_tiles M N dY X mean rstd dg db b) as [Eg Eb].
  rewrite Eg, Eb.
  rewrite (tile_transpose_sum _ smem ty 0) by lia.
  rewrite (tile_transpose_sum _ smem ty 0) by lia.
  rewrite (tile_transpose_sum _ smem ty 16) by lia.
  rewrite (tile_transpose_sum _ smem ty 16) by lia.
  rewrite !sumn_tile_value.
  rewrite Nat.add_0_r, <- !Nat.add_assoc.
  destruct (Nat.ltb (uint32 (b * 32 + ty)) N),
    (Nat.ltb (uint32 (b * 32 + (ty + 16))) N);
    reflexivity.
Qed.

(** What a write of the tiled kernel to [dg] is. *)
Lemma GammaBetaBackward_dg_writes (M N : nat) (dY X mean rstd : buffer)
    (dg db : option buffer) (smem : buffer) (grid k : nat) (v : R) :
  (Z.of_nat (grid * 32) <= 2 ^ 32)%Z ->
  In (k, v)
     (fst (launch2_xy grid 32 16
             (GammaBetaBackwardCUDAKernel M N dY X mean rstd dg db smem 32 16)))
  <->
  (k < N)%nat /\ (k < grid * 32)%nat /\
  dg <> None /\ v = col_dgamma M N dY X mean rstd k.
Proof.
  intros Hfits.
  unfold launch2_xy. rewrite launch2_blocks. cbn [fst]. rewrite in_launch.
  split.
  - intros (b & t & Hb & Ht & Hin).
    assert (Hty : (t / 32 < 16)%nat)
      by (apply Nat.Div0.div_lt_upper_bound; lia).
    rewrite GammaBetaBackward_thread in Hin by exact Hty.
    destruct (Nat.eqb (t mod 32) 0); [| contradiction].
    remember (t / 32)%nat as ty eqn:Ety. clear Ety.
    cbv zeta in Hin.
    rewrite (uint32_small (b * 32 + ty)),
      (uint32_small (b * 32 + (ty + 16))) in Hin by lia.
    cbn [fst] in Hin. apply in_app_or in Hin.
    destruct dg as [g |].
    + destruct Hin as [Hin | Hin].
      * destruct (Nat.ltb (b * 32 + ty) N) eqn:E; [| contradiction].
        apply Nat.ltb_lt in E. destruct Hin as [Hin | []].
        injection Hin as <- <-.
        split; [lia |]. split; [lia |]. split; [discriminate | reflexivity].
      * destruct (Nat.ltb (b * 32 + (ty + 16)) N) eqn:E; [| contradiction].
        apply Nat.ltb_lt in E. destruct Hin as [Hin | []].
        injection Hin as <- <-.
        split; [lia |]. split; [lia |]. split; [discriminate | reflexivity].
    + destruct Hin as [Hin | Hin].
      * destruct (Nat.ltb (b * 32 + ty) N); contradiction.
      * destruct (Nat.ltb (b * 32 + (ty + 16)) N); contradiction.
  - intros (Hk & Hcover & Hdg & ->).
    destruct dg as [g |]; [| contradiction].
    pose proof (Nat.div_mod_eq k 32) as Hdm.
    pose proof (Nat.mod_upper_bound k 32 ltac:(discriminate)) as Hr.
    assert (Hb : (k / 32 < grid)%nat)
      by (apply Nat.Div0.div_lt_upper_bound; lia).
    destruct (Nat.lt_ge_cases (k mod 32) 16) as [Hlt | Hge].
    + exists (k / 32)%nat, (k mod 32 * 32)%nat.
      split; [exact Hb |]. split; [lia |].
      rewrite Nat.Div0.mod_mul, Nat.div_mul by discriminate.
      rewrite GammaBetaBackward_thread by exact Hlt.
      cbn [Nat.eqb fst]. cbv zeta. apply in_or_app. left.
      replace (k / 32 * 32 + k mod 32)%nat with k by lia.
      rewrite (uint32_small k) by lia.
      rewrite (proj2 (Nat.ltb_lt _ _) Hk). now left.
    + exists (k / 32)%nat, ((k mod 32 - 16) * 32)%nat.
      split; [exact Hb |]. split; [lia |].
      rewrite Nat.Div0.mod_mul, Nat.div_mul by discriminate.
      rewrite GammaBetaBackward_thread by lia.
      cbn [Nat.eqb fst]. cbv zeta. apply in_or_app. right.
      replace (k / 32 * 32 + (k mod 32 - 16 + 16))%nat with k by lia.
      rewrite (uint32_small k) by lia.
      rewrite (proj2 (Nat.ltb_lt _ _) Hk). now left.
Qed.

(** What a write of the tiled kernel to [db] is. *)
Lemma GammaBetaBackward_db_writes (M N : nat) (dY X mean rstd : buffer)
    (dg db : option buffer) (smem : buffer) (grid k : nat) (v : R) :
  (Z.of_nat (grid * 32) <= 2 ^ 32)%Z ->
  In (k, v)
     (snd (launch2_xy grid 32 16
             (GammaBetaBackwardCUDAKernel M N dY X mean rstd dg db smem 32 16)))
  <->
  (k < N)%nat /\ (k < grid * 32)%nat /\
  db <> None /\ v = col_dbeta M N dY k.
Proof.
  intros Hfits.
  unfold launch2_xy. rewrite launch2_blocks. cbn [snd]. rewrite in_launch.
  split.
  - intros (b & t & Hb & Ht & Hin).
    assert (Hty : (t / 32 < 16)%nat)
      by (apply Nat.Div0.div_lt_upper_bound; lia).
    rewrite GammaBetaBackward_thread in Hin by exact Hty.
    destruct (Nat.eqb (t mod 32) 0); [| contradiction].
    remember (t / 32)%nat as ty eqn:Ety. clear Ety.
    cbv zeta in Hin.
    rewrite (uint32_small (b * 32 + ty)),
      (uint32_small (b * 32 + (ty + 16))) in Hin by lia.
    cbn [snd] in Hin. apply in_app_or in Hin.
    destruct db as [g |].
    + destruct Hin as [Hin | Hin].
      * destruct (Nat.ltb (b * 32 + ty) N) eqn:E; [| contradiction].
        apply Nat.ltb_lt in E. destruct Hin as [Hin | []].
        injection Hin as <- <-.
        split; [lia |]. split; [lia |]. split; [discriminate | reflexivity].
      * destruct (Nat.ltb (b * 32 + (ty + 16)) N) eqn:E; [| contradiction].
        apply Nat.ltb_lt in E. destruct Hin as [Hin | []].
        injection Hin as <- <-.
        split; [lia |]. split; [lia |]. split; [discriminate | reflexivity].
    + destruct Hin as [Hin | Hin].
      * destruct (Nat.ltb (b * 32 + ty) N); contradiction.
      * destruct (Nat.ltb (b * 32 + (ty + 16)) N); contradiction.
  - intros (Hk & Hcover & Hdb & ->).
    destruct db as [g |]; [| contradiction].
    pose proof (Nat.div_mod_eq k 32) as Hdm.
    pose proof (Nat.mod_upper_bound k 32 ltac:(discriminate)) as Hr.
    assert (Hb : (k / 32 < grid)%nat)
      by (apply Nat.Div0.div_lt_upper_bound; lia).
    destruct (Nat.lt_ge_cases (k mod 32) 16) as [Hlt | Hge].
    + exists (k / 32)%nat, (k mod 32 * 32)%nat.
      split; [exact Hb |]. split; [lia |].
      rewrite Nat.Div0.mod_mul, Nat.div_mul by discriminate.
      rewrite GammaBetaBackward_thread by exact Hlt.
      cbn [Nat.eqb snd]. cbv zeta. apply in_or_app. left.
      replace (k / 32 * 32 + k mod 32)%nat with k by lia.
      rewrite (uint32_small k) by lia.
      rewrite (proj2 (Nat.ltb_lt _ _) Hk). now left.
    + exists (k / 32)%nat, ((k mod 32 - 16) * 32)%nat.
      split; [exact Hb |]. split; [lia |].
      rewrite Nat.Div0.mod_mul, Nat.div_mul by discriminate.
      rewrite GammaBetaBackward_thread by lia.
      cbn [Nat.eqb snd]. cbv zeta. apply in_or_app. right.
      replace (k / 32 * 32 + (k mod 32 - 16 + 16))%nat with k by lia.
      rewrite (uint32_small k) by lia.
      rewrite (proj2 (Nat.ltb_lt _ _) Hk). now left.
Qed.

(** A launch whose writes are [g k] at the columns [k < N] of a requested
    output, the grid covering the columns, leaves [reduced_into]. *)
Lemma column_writes_commit (p : option buffer) (N cover : nat)
    (g : nat -> R) (ws : list write) :
  (N <= cover)%nat ->
  (forall k v, In (k, v) ws <->
     (k < N)%nat /\ (k < cover)%nat /\ p <> None /\ v = g k) ->
  forall b k, commit b ws k = reduced_into p N g b k.
Proof.
  intros Hcover Hws b k. unfold reduced_into.
  destruct p as [q |].
  - destruct (Nat.ltb k N) eqn:E.
    + apply Nat.ltb_lt in E. apply commit_functional.
      * intros v' Hv'. now apply Hws in Hv'.
      * apply Hws. repeat split; try lia. discriminate.
    + apply Nat.ltb_ge in E. apply commit_no_write.
      intros v Hv. apply Hws in Hv. lia.
  - apply commit_no_write. intros v Hv. apply Hws in Hv.
    destruct Hv as (_ & _ & Hp & _). now apply Hp.
Qed.

Lemma grid_covers_any (n : Z) (block : nat) :
  (0 < block)%nat ->
  (Z.to_nat n <=
   Z.to_nat (Z.quot (n + Z.of_nat block - 1) (Z.of_nat block)) * block)%nat.
Proof.
  intros Hb. destruct (Z.lt_ge_cases n 0) as [Hneg | Hpos].
  - replace (Z.to_nat n) with 0%nat by lia. lia.
  - apply grid_covers; lia.
Qed.

(** The effect of the simple kernel on the output buffers. *)
Lemma simple_launch_effect (M N grid : nat) (dY X mean rstd : buffer)
    (dg db : option buffer) :
  (N <= grid * kCUDANumThreads)%nat ->
  (Z.of_nat (grid * kCUDANumThreads) <= 2 ^ 32)%Z ->
  let ws :=
    launch2 grid kCUDANumThreads
      (GammaBetaBackwardSimpleCUDAKernel M N dY X mean rstd dg db
         kCUDANumThreads) in
  forall b k,
    commit b (fst ws) k =
      reduced_into dg N (col_dgamma M N dY X mean rstd) b k /\
    commit b (snd ws) k = reduced_into db N (col_dbeta M N dY) b k.
Proof.
  intros Hcover Hfits ws b k. split.
  - apply (column_writes_commit dg N (grid * kCUDANumThreads)); [exact Hcover |].
    intros k' v. unfold ws.
    rewrite GammaBetaBackwardSimple_dg_writes by exact Hfits.
    pose proof kCUDANumThreads_pos. tauto.
  - apply (column_writes_commit db N (grid * kCUDANumThreads)); [exact Hcover |].
    intros k' v. unfold ws.
    rewrite GammaBetaBackwardSimple_db_writes by exact Hfits.
    pose proof kCUDANumThreads_pos. tauto.
Qed.

(** The effect of the tiled kernel on the output buffers, whatever the
    shared tiles held when the blocks started. *)
Lemma tiled_launch_effect (M N grid : nat) (dY X mean rstd : buffer)
    (dg db : option buffer) (smem : buffer) :
  (N <= grid * 32)%nat -> (Z.of_nat (grid * 32) <= 2 ^ 32)%Z ->
  let ws :=
    launch2_xy grid 32 16
      (GammaBetaBackwardCUDAKernel M N dY X mean rstd dg db smem 32 16) in
  forall b k,
    commit b (fst ws) k =
      reduced_into dg N (col_dgamma M N dY X mean rstd) b k /\
    commit b (snd ws) k = reduced_into db N (col_dbeta M N dY) b k.
Proof.
  intros Hcover Hfits ws b k. split.
  - apply (column_writes_commit dg N (grid * 32)); [exact Hcover |].
    intros k' v. unfold ws. now apply GammaBetaBackward_dg_writes.
  - apply (column_writes_commit db N (grid * 32)); [exact Hcover |].
    intros k' v. unfold ws. now apply GammaBetaBackward_db_writes.
Qed.

(** The launch chosen by the entry point is the simple kernel below 512
    rows and the tiled kernel from 512 rows on. *)
Lemma backward_gamma_beta_launch_select (uninit : buffer) (M N : Z)
    (dY X mean rstd : buffer) (dg db : option buffer) :
  backward_gamma_beta_launch uninit M N dY X mean rstd dg db =
  if Z.ltb M 512 then
    launch2
      (grid_blocks (Z.quot (N + Z.of_nat kCUDANumThreads - 1)
                           (Z.of_nat kCUDANumThreads)))
      kCUDANumThreads
      (GammaBetaBackwardSimpleCUDAKernel (Z.to_nat M) (Z.to_nat N)
         dY X mean rstd dg db kCUDANumThreads)
  else
    launch2_xy
      (grid_blocks (Z.quot (N + Z.of_nat kColwiseReduceTileSize - 1)
                           (Z.of_nat kColwiseReduceTileSize)))
      32 16
      (GammaBetaBackwardCUDAKernel (Z.to_nat M) (Z.to_nat N)
         dY X mean rstd dg db uninit 32 16).
Proof. reflexivity. Qed.

(** For at most 2^32 columns, the grid of either parameter-gradient launch
    is taken as it is, covers the columns and has at most 2^32 threads. *)
Lemma column_grid (N : Z) (block : nat) :
  (0 <= N <= 2 ^ 32)%Z -> block = 256%nat \/ block = 32%nat ->
  let g := Z.quot (N + Z.of_nat block - 1) (Z.of_nat block) in
  grid_blocks g = Z.to_nat g /\
  (Z.to_nat N <= Z.to_nat g * block)%nat /\
  (Z.of_nat (Z.to_nat g * block) <= 2 ^ 32)%Z.
Proof.
  intros HN Hblock g.
  destruct (ceil_grid_fits N block HN Hblock) as [Hg Hfit].
  fold g in Hg, Hfit.
  split; [now apply grid_blocks_small |]. split.
  - apply grid_covers_any. destruct Hblock; subst; lia.
  - rewrite Nat2Z.inj_mul, Z2Nat.id by lia. exact Hfit.
Qed.

(** The effect of the parameter-gradient launch of the entry point, on
    either path. *)
Lemma backward_gamma_beta_launch_effect (uninit : buffer) (M N : Z)
    (dY X mean rstd : buffer) (dg db : option buffer) (b : buffer) (k : nat) :
  (0 <= N <= 2 ^ 32)%Z ->
  let ws := backward_gamma_beta_launch uninit M N dY X mean rstd dg db in
  commit b (fst ws) k =
    reduced_into dg (Z.to_nat N)
      (col_dgamma (Z.to_nat M) (Z.to_nat N) dY X mean rstd) b k /\
  commit b (snd ws) k =
    reduced_into db (Z.to_nat N) (col_dbeta (Z.to_nat M) (Z.to_nat N) dY) b k.
Proof.
  intros HN ws. unfold ws. rewrite backward_gamma_beta_launch_select.
  destruct (Z.ltb M 512).
  - destruct (column_grid N kCUDANumThreads HN (or_introl eq_refl))
      as (-> & Hcover & Hfits).
    now apply simple_launch_effect.
  - destruct (column_grid N kColwiseReduceTileSize HN (or_intror eq_refl))
      as (-> & Hcover & Hfits).
    now apply tiled_launch_effect.
Qed.





(** ** The moment pass as a launch *)

Lemma rsqrt_defined (x : R) : 0 < x -> Acc.rsqrt x = Some (/ sqrt x).
Proof.
  intros H. unfold Acc.rsqrt. destruct (Rlt_dec 0 x); [reflexivity | contradiction].
Qed.

Lemma rsqrt_undefined (x : R) : x <= 0 -> Acc.rsqrt x = None.
Proof.
  intros H. unfold Acc.rsqrt. destruct (Rlt_dec 0 x); [lra | reflexivity].
Qed.

Lemma rsqrt_positive (x r : R) : Acc.rsqrt x = Some r -> 0 < r.
Proof.
  unfold Acc.rsqrt. destruct (Rlt_dec 0 x) as [H | H]; [| discriminate].
  intros E. injection E as <-. apply Rinv_0_lt_compat, sqrt_lt_R0, H.
Qed.

Lemma row_radicand_ge_eps (N : nat) (eps : R) (X : buffer) (i : nat) :
  eps <= row_radicand N eps X i.
Proof.
  unfold row_radicand.
  pose proof (Rmax_r (row_m2 N X i / INR N) 0). lra.
Qed.

Lemma RowwiseMoments_thread (N : nat) (eps : R) (X : buffer) (B i t : nat) :
  reducible_block B -> (1 <= N)%nat -> 0 < row_radicand N eps X i ->
  RowwiseMomentsCUDAKernel N eps X B i t =
  Some (if Nat.eqb t 0
        then ([(i, row_mean N X i)], [(i, row_rstd N eps X i)])
        else ([], [])).
Proof.
  intros HB HN Hrad. destruct (Nat.eqb t 0) eqn:E.
  - apply Nat.eqb_eq in E. subst t.
    rewrite RowwiseMoments_thread0 by assumption.
    unfold Acc.max. fold (row_radicand N eps X i).
    now rewrite rsqrt_defined.
  - apply Nat.eqb_neq in E. now apply RowwiseMoments_other_threads.
Qed.

(** The launch of the moment pass over [M] rows of at least one column,
    each with a positive radicand: [mean[i]] and [rstd[i]] are written once
    for every row. *)
Lemma RowwiseMoments_launch (M N : nat) (eps : R) (X : buffer) (B : nat) :
  reducible_block B -> (1 <= N)%nat ->
  (forall i, (i < M)%nat -> 0 < row_radicand N eps X i) ->
  launch2_partial M B (RowwiseMomentsCUDAKernel N eps X B) =
  Some (vector_writes M (row_mean N X), vector_writes M (row_rstd N eps X)).
Proof.
  intros HB HN Hrad. pose proof (reducible_block_pos B HB) as HB0.
  rewrite (launch2_partial_total M B _
             (fun i t => if Nat.eqb t 0
                then ([(i, row_mean N X i)], [(i, row_rstd N eps X i)])
                else ([], []))).
  - rewrite launch2_blocks. f_equal. f_equal.
    + apply thread0_launch; [exact HB0 | reflexivity |].
      intros i t Ht. now rewrite (proj2 (Nat.eqb_neq _ _) Ht).
    + apply thread0_launch; [exact HB0 | reflexivity |].
      intros i t Ht. now rewrite (proj2 (Nat.eqb_neq _ _) Ht).
  - intros i t Hi _. apply RowwiseMoments_thread; auto.
Qed.

(** C2.  For a row [i] of [N >= 1] columns, thread 0 of block [i] of the
    moment pass ends its streaming fold and the reduction with the
    arithmetic mean of the row, which it stores in [mean[i]], and with the
    sum [M2] of the squared deviations from that mean, and stores in
    [rstd[i]] the reciprocal square root of [max(M2/N, 0) + eps] (no value
    when that number is not positive); the other threads store nothing.  In
    a launch over [M] rows whose radicands are positive, [mean[i]] and
    [rstd[i] = 1/sqrt(max(M2/N, 0) + eps)] are what the buffers hold
    afterwards. *)
Theorem moment_pass_mean_rstd (B N : nat) (eps : R) (X : buffer) (i : nat) :
  reducible_block B -> (1 <= N)%nat ->
  RowwiseMomentsCUDAKernel N eps X B i 0 =
    (r <- Acc.rsqrt (Acc.max (row_m2 N X i / INR N) 0 + eps) ;;
     Some ([(i, sumn N (fun j => X (i * N + j)%nat) / INR N)], [(i, r)])) /\
  (forall t, t <> 0%nat ->
     RowwiseMomentsCUDAKernel N eps X B i t = Some ([], [])) /\
  (forall M mean rstd,
     (i < M)%nat ->
     (forall i', (i' < M)%nat ->
        0 < Rmax (row_m2 N X i' / INR N) 0 + eps) ->
     exists mean_ws rstd_ws,
       launch2_partial M B (RowwiseMomentsCUDAKernel N eps X B) =
         Some (mean_ws, rstd_ws) /\
       commit mean mean_ws i = sumn N (fun j => X (i * N + j)%nat) / INR N /\
       commit rstd rstd_ws i =
         / sqrt (Rmax (row_m2 N X i / INR N) 0 + eps)).
Proof.
  intros HB HN. split; [| split].
  - now apply RowwiseMoments_thread0.
  - intros t Ht. now apply RowwiseMoments_other_threads.
  - intros M mean rstd Hi Hrad.
    exists (vector_writes M (row_mean N X)),
           (vector_writes M (row_rstd N eps X)).
    split; [now apply RowwiseMoments_launch |]. split.
    + exact (proj1 (commit_vector M (row_mean N X) mean) i Hi).
    + exact (proj1 (commit_vector M (row_rstd N eps X) rstd) i Hi).
Qed.

Lemma moment_pass_mean_rstd_witness :
  reducible_block 32 /\ (1 <= 2)%nat /\
  RowwiseMomentsCUDAKernel 2 1 (fun _ => 3) 32 0 0 =
    (r <- Acc.rsqrt (Acc.max (row_m2 2 (fun _ => 3) 0 / INR 2) 0 + 1) ;;
     Some ([(0%nat, sumn 2 (fun j => 3) / INR 2)], [(0%nat, r)])).
Proof.
  split; [exact reducible_block_32 | split; [lia |]].
  exact (proj1 (moment_pass_mean_rstd 32 2 1 (fun _ => 3) 0
                  reducible_block_32 (le_S 1 1 (le_n 1)))).
Defined.

(** C7.  In exact arithmetic, with [eps > 0] and rows of [N >= 1]
    columns.  Whatever the variance estimate [q] is, negative or not, the
    clamp followed by the addition of [eps] gives a number of at least
    [eps], whose reciprocal square root is a strictly positive number.
    Thread 0 of block [i] of the moment pass stores such an [rstd[i]]: it
    is [1/sqrt(max(M2/N, 0) + eps)] and strictly positive, for a constant
    row as for any other; and in a launch every [rstd[i]] is written and
    strictly positive. *)
Theorem rstd_strictly_positive (B N : nat) (eps : R) (X : buffer) (i : nat) :
  reducible_block B -> (1 <= N)%nat -> 0 < eps ->
  (forall q,
     eps <= Acc.max q 0 + eps /\
     exists r, Acc.rsqrt (Acc.max q 0 + eps) = Some r /\ 0 < r) /\
  (exists mean_ws r,
     RowwiseMomentsCUDAKernel N eps X B i 0 = Some (mean_ws, [(i, r)]) /\
     r = / sqrt (Rmax (row_m2 N X i / INR N) 0 + eps) /\ 0 < r) /\
  (forall M rstd,
   exists mean_ws rstd_ws,
     launch2_partial M B (RowwiseMomentsCUDAKernel N eps X B) =
       Some (mean_ws, rstd_ws) /\
     forall i', (i' < M)%nat -> 0 < commit rstd rstd_ws i').
Proof.
  intros HB HN Heps.
  assert (Hrad : forall i', 0 < row_radicand N eps X i').
  { intros i'. pose proof (row_radicand_ge_eps N eps X i'). lra. }
  split; [| split].
  - intros q. unfold Acc.max.
    pose proof (Rmax_r q 0) as Hq.
    split; [lra |].
    exists (/ sqrt (Rmax q 0 + eps)).
    split; [apply rsqrt_defined; lra |].
    apply Rinv_0_lt_compat, sqrt_lt_R0. lra.
  - rewrite (RowwiseMoments_thread N eps X B i 0 HB HN (Hrad i)).
    cbn [Nat.eqb]. eexists _, _. split; [reflexivity |].
    split; [reflexivity |].
    apply Rinv_0_lt_compat, sqrt_lt_R0, Hrad.
  - intros M rstd.
    exists (vector_writes M (row_mean N X)),
           (vector_writes M (row_rstd N eps X)).
    split; [apply RowwiseMoments_launch; auto |].
    intros i' Hi'.
    rewrite (proj1 (commit_vector M (row_rstd N eps X) rstd) i' Hi').
    apply Rinv_0_lt_compat, sqrt_lt_R0, Hrad.
Qed.

Lemma rstd_strictly_positive_witness :
  reducible_block 32 /\ (1 <= 2)%nat /\ 0 < 1 /\
  exists mean_ws r,
    RowwiseMomentsCUDAKernel 2 1 (fun _ => 3) 32 0 0 =
      Some (mean_ws, [(0%nat, r)]) /\
    r = / sqrt (Rmax (row_m2 2 (fun _ => 3) 0 / INR 2) 0 + 1) /\ 0 < r.
Proof.
  split; [exact reducible_block_32 |]. split; [lia |].
  split; [exact Rlt_0_1 |].
  exact (proj1 (proj2 (rstd_strictly_positive 32 2 1 (fun _ => 3) 0
                         reducible_block_32 (le_S 1 1 (le_n 1)) Rlt_0_1))).
Defined.

(** At [T = double], a row of 513 finite numbers and [eps = 2^-17 > 0], in
    a block of 512 threads: thread 0 folds [2^600] and [-2^600], its sum
    of squared deviations overflows to infinity, and the [rstd] that the
    block stores is [0], which is not strictly positive. *)
Lemma rstd_not_positive_in_binary64 :
  PrimFloat.ltb PrimFloat.zero Double.small_eps = true /\
  (forall k, PrimFloat.is_finite (Double.wide_row k) = true) /\
  Double.RowwiseMomentsCUDAKernel 513 Double.small_eps Double.wide_row
    512 0 0 =
    ([(0%nat, PrimFloat.zero)], [(0%nat, PrimFloat.zero)]) /\
  PrimFloat.ltb PrimFloat.zero PrimFloat.zero = false.
Proof.
  split; [vm_compute; reflexivity |]. split; [| split].
  - intros k. unfold Double.wide_row.
    destruct (Nat.eqb k 0); [vm_compute; reflexivity |].
    destruct (Nat.eqb k 512); vm_compute; reflexivity.
  - vm_compute. reflexivity.
  - vm_compute. reflexivity.
Qed.

(** ** The entry points *)

Lemma mul64_exact (M N : Z) : fits_int64 (M * N) -> mul64 M N = (M * N)%Z.
Proof.
  unfold fits_int64, mul64. intros H.
  rewrite Z.mod_small by lia. lia.
Qed.

Lemma undefined_or_numel_false (t : option Tensor) (n : Z) :
  undefined_or_numel t n = false <-> exists s, t = Some s /\ numel s <> n.
Proof.
  destruct t as [s |]; simpl.
  - rewrite Z.eqb_neq. split.
    + intros H. exists s. auto.
    + intros (s' & E & H). now injection E as ->.
  - split; [discriminate | intros (s & E & _); discriminate].
Qed.

Lemma LayerNormKernelImplInternal_checked (B : nat) (err : cudaError_t)
    (X : Tensor) (gamma beta : option Tensor) (M N : Z) (eps : R)
    (out : forward_out) :
  LayerNormKernelImplInternal B err X gamma beta M N eps out =
  if forward_checks X gamma beta M N then
    if Z.eqb M 0 then (Returned, out)
    else
      match forward_launches B (grid_blocks M) (Z.to_nat N) eps (data_ptr X)
              (data_or_null gamma) (data_or_null beta) out with
      | None => (OutsideReals, out)
      | Some out' => AT_CUDA_CHECK err out'
      end
  else (Threw TorchCheckError, out).
Proof.
  unfold LayerNormKernelImplInternal, forward_checks, TORCH_CHECK.
  destruct (Z.eqb (numel X) (mul64 M N)); [| reflexivity].
  destruct (undefined_or_numel gamma N); [| reflexivity].
  destruct (undefined_or_numel beta N); reflexivity.
Qed.

(** A number of rows that a grid can hold is the number of blocks of the
    launches by row, and the grid of the coefficient pass is taken as it
    is. *)
Lemma row_grids (M : nat) :
  (Z.of_nat M <= maxGridSize)%Z ->
  grid_blocks (Z.of_nat M) = M /\
  grid_blocks (Z.quot (Z.of_nat M + Z.of_nat kCUDANumThreads - 1)
                      (Z.of_nat kCUDANumThreads)) =
  Z.to_nat (Z.quot (Z.of_nat M + Z.of_nat kCUDANumThreads - 1)
                   (Z.of_nat kCUDANumThreads)).
Proof.
  intros HM. split.
  - rewrite grid_blocks_small by lia. apply Nat2Z.id.
  - apply grid_blocks_small.
    unfold maxGridSize in HM.
    apply (ceil_grid_fits (Z.of_nat M) kCUDANumThreads); [lia | now left].
Qed.

(** A forward call on at least one row, with a number of rows that a grid
    can hold, runs the two launches on [M] blocks. *)
Lemma forward_entry_rows (B : nat) (err : cudaError_t)
    (X : Tensor) (gamma beta : option Tensor) (M N : nat) (eps : R)
    (out : forward_out) :
  forward_checks X gamma beta (Z.of_nat M) (Z.of_nat N) = true ->
  (1 <= M)%nat -> (Z.of_nat M <= maxGridSize)%Z ->
  LayerNormKernelImplInternal B err X gamma beta (Z.of_nat M) (Z.of_nat N)
    eps out =
  match forward_launches B M N eps (data_ptr X)
          (data_or_null gamma) (data_or_null beta) out with
  | None => (OutsideReals, out)
  | Some out' => AT_CUDA_CHECK err out'
  end.
Proof.
  intros Hc HM Hgrid.
  rewrite LayerNormKernelImplInternal_checked, Hc.
  rewrite (proj2 (Z.eqb_neq (Z.of_nat M) 0)) by lia.
  now rewrite (proj1 (row_grids M Hgrid)), Nat2Z.id.
Qed.

Lemma LayerNormBackwardKernelImplInternal_checked (B : nat)
    (err : cudaError_t) (uninit : buffer) (dY X mean rstd : Tensor)
    (gamma : option Tensor) (M N : Z) (out : backward_out) :
  backward_checks dY X mean rstd gamma M N = false ->
  LayerNormBackwardKernelImplInternal B err uninit dY X mean rstd gamma M N out =
  (Threw TorchCheckError, out).
Proof.
  unfold LayerNormBackwardKernelImplInternal, backward_checks, TORCH_CHECK.
  destruct (Z.eqb (numel dY) (mul64 M N)); [| reflexivity].
  destruct (Z.eqb (numel X) (mul64 M N)); [| reflexivity].
  destruct (Z.eqb (numel mean) M); [| reflexivity].
  destruct (Z.eqb (numel rstd) M); [| reflexivity].
  destruct (undefined_or_numel gamma N); [discriminate | reflexivity].
Qed.

Lemma LayerNormBackwardKernelImplInternal_passed (B : nat)
    (err : cudaError_t) (uninit : buffer) (dY X mean rstd : Tensor)
    (gamma : option Tensor) (M N : Z) (dX dgamma dbeta : option Tensor) :
  backward_checks dY X mean rstd gamma M N = true ->
  LayerNormBackwardKernelImplInternal B err uninit dY X mean rstd gamma M N
    (dX, dgamma, dbeta) =
  if Z.eqb M 0 then (Returned, (dX, dgamma, dbeta))
  else
    match
      match dX, data_or_null dX with
      | Some dX_t, Some _ =>
          option_map Some
            (backward_dX_launches_on B uninit (grid_blocks M)
               (grid_blocks (Z.quot (M + Z.of_nat kCUDANumThreads - 1)
                                    (Z.of_nat kCUDANumThreads)))
               (Z.to_nat M) (Z.to_nat N)
               (data_ptr dY) (data_ptr X) (data_ptr mean) (data_ptr rstd)
               (data_or_null gamma) dX_t)
      | _, _ => Some dX
      end
    with
    | None => (OutsideReals, (dX, dgamma, dbeta))
    | Some dX' =>
        if match dgamma, dbeta with None, None => false | _, _ => true end
        then
          let ws :=
            backward_gamma_beta_launch uninit M N (data_ptr dY) (data_ptr X)
              (data_ptr mean) (data_ptr rstd)
              (data_or_null dgamma) (data_or_null dbeta) in
          AT_CUDA_CHECK err
            (dX',
             option_map (fun t => written t (fst ws)) dgamma,
             option_map (fun t => written t (snd ws)) dbeta)
        else AT_CUDA_CHECK err (dX', dgamma, dbeta)
    end.
Proof.
  unfold LayerNormBackwardKernelImplInternal, backward_checks, TORCH_CHECK.
  destruct (Z.eqb (numel dY) (mul64 M N)); [| discriminate].
  destruct (Z.eqb (numel X) (mul64 M N)); [| discriminate].
  destruct (Z.eqb (numel mean) M); [| discriminate].
  destruct (Z.eqb (numel rstd) M); [| discriminate].
  destruct (undefined_or_numel gamma N); [| discriminate].
  intros _. destruct (Z.eqb M 0); [reflexivity |]. cbv zeta.
  match goal with
  | |- match ?e with Some _ => _ | None => _ end = _ =>
      destruct e; [| reflexivity]
  end.
  destruct (match dgamma with Some _ => _ | None => _ end); [| reflexivity].
  destruct (backward_gamma_beta_launch uninit M N (data_ptr dY) (data_ptr X)
              (data_ptr mean) (data_ptr rstd) (data_or_null dgamma)
              (data_or_null dbeta)).
  reflexivity.
Qed.

(** A backward call on at least one row, with a number of rows that a grid
    can hold: the launches that compute [dX] run when [dX] is defined and
    has elements, on [M] blocks by row. *)
Lemma backward_entry_rows (B : nat)
    (err : cudaError_t) (uninit : buffer) (dY X mean rstd : Tensor)
    (gamma : option Tensor) (M N : nat) (dX dgamma dbeta : option Tensor) :
  backward_checks dY X mean rstd gamma (Z.of_nat M) (Z.of_nat N) = true ->
  (1 <= M)%nat -> (Z.of_nat M <= maxGridSize)%Z ->
  LayerNormBackwardKernelImplInternal B err uninit dY X mean rstd gamma
    (Z.of_nat M) (Z.of_nat N) (dX, dgamma, dbeta) =
  match
    match dX with
    | Some dX_t =>
        if Z.eqb (numel dX_t) 0 then Some dX
        else
          option_map Some
            (backward_dX_launches B uninit M N
               (data_ptr dY) (data_ptr X) (data_ptr mean) (data_ptr rstd)
               (data_or_null gamma) dX_t)
    | None => Some dX
    end
  with
  | None => (OutsideReals, (dX, dgamma, dbeta))
  | Some dX' =>
      if match dgamma, dbeta with None, None => false | _, _ => true end
      then
        let ws :=
          backward_gamma_beta_launch uninit (Z.of_nat M) (Z.of_nat N)
            (data_ptr dY) (data_ptr X) (data_ptr mean) (data_ptr rstd)
            (data_or_null dgamma) (data_or_null dbeta) in
        AT_CUDA_CHECK err
          (dX',
           option_map (fun t => written t (fst ws)) dgamma,
           option_map (fun t => written t (snd ws)) dbeta)
      else AT_CUDA_CHECK err (dX', dgamma, dbeta)
  end.
Proof.
  intros Hc HM Hgrid.
  rewrite LayerNormBackwardKernelImplInternal_passed by exact Hc.
  rewrite (proj2 (Z.eqb_neq (Z.of_nat M) 0)) by lia.
  destruct (row_grids M Hgrid) as [-> ->]. rewrite !Nat2Z.id.
  destruct dX as [dX_t |]; [| reflexivity].
  unfold data_or_null. destruct (Z.eqb (numel dX_t) 0); reflexivity.
Qed.

Lemma AT_CUDA_CHECK_state {St : Type} (err : cudaError_t) (s : St) :
  snd (AT_CUDA_CHECK err s) = s /\
  fst (AT_CUDA_CHECK err s) <> Threw TorchCheckError /\
  (err = cudaSuccess -> fst (AT_CUDA_CHECK err s) = Returned).
Proof.
  destruct err; simpl; repeat split; try discriminate; auto.
Qed.

Lemma forward_checks_false (X : Tensor) (gamma beta : option Tensor)
    (M N : Z) :
  forward_checks X gamma beta M N = false <->
  numel X <> mul64 M N \/
  (exists g, gamma = Some g /\ numel g <> N) \/
  (exists b, beta = Some b /\ numel b <> N).
Proof.
  unfold forward_checks.
  rewrite !andb_false_iff, Z.eqb_neq, !undefined_or_numel_false. tauto.
Qed.

Lemma backward_checks_false (dY X mean rstd : Tensor)
    (gamma : option Tensor) (M N : Z) :
  backward_checks dY X mean rstd gamma M N = false <->
  numel dY <> mul64 M N \/ numel X <> mul64 M N \/
  numel mean <> M \/ numel rstd <> M \/
  (exists g, gamma = Some g /\ numel g <> N).
Proof.
  unfold backward_checks.
  rewrite !andb_false_iff, !Z.eqb_neq, undefined_or_numel_false. tauto.
Qed.

(** A forward call that passes the checks does not end in a check error;
    it throws only when the device reports an error; with no row it
    returns at once. *)
Lemma forward_passed_outcome (B : nat) (err : cudaError_t) (X : Tensor)
    (gamma beta : option Tensor) (M N : Z) (eps : R) (out : forward_out) :
  forward_checks X gamma beta M N = true ->
  let r := LayerNormKernelImplInternal B err X gamma beta M N eps out in
  fst r <> Threw TorchCheckError /\
  (err = cudaSuccess -> forall e, fst r <> Threw e) /\
  (M = 0%Z -> r = (Returned, out)).
Proof.
  intros Hc r. unfold r. rewrite LayerNormKernelImplInternal_checked, Hc.
  destruct (Z.eqb M 0) eqn:EM.
  - repeat split; intros; discriminate.
  - apply Z.eqb_neq in EM.
    destruct (forward_launches B (grid_blocks M) (Z.to_nat N) eps (data_ptr X)
                (data_or_null gamma) (data_or_null beta) out) as [out' |].
    + destruct err; simpl; repeat split; intros; try discriminate;
        contradiction.
    + repeat split; intros; try discriminate; contradiction.
Qed.

(** The same for a backward call. *)
Lemma backward_passed_outcome (B : nat) (err : cudaError_t)
    (uninit : buffer) (dY X mean rstd : Tensor) (gamma : option Tensor)
    (M N : Z) (out : backward_out) :
  backward_checks dY X mean rstd gamma M N = true ->
  let r :=
    LayerNormBackwardKernelImplInternal B err uninit dY X mean rstd gamma
      M N out in
  fst r <> Threw TorchCheckError /\
  (err = cudaSuccess -> forall e, fst r <> Threw e) /\
  (M = 0%Z -> r = (Returned, out)).
Proof.
  intros Hc r. unfold r. destruct out as [[dX dgamma] dbeta].
  rewrite LayerNormBackwardKernelImplInternal_passed by exact Hc.
  destruct (Z.eqb M 0) eqn:EM.
  - repeat split; intros; discriminate.
  - apply Z.eqb_neq in EM.
    match goal with
    | |- context [match ?e with Some _ => _ | None => (OutsideReals, _) end] =>
        destruct e
    end.
    + destruct (match dgamma with Some _ => _ | None => _ end);
        destruct err; simpl; repeat split; intros; try discriminate;
        contradiction.
    + repeat split; intros; try discriminate; contradiction.
Qed.

(** C6.  When [M * N] fits [int64_t]: the forward entry point ends in a
    check error exactly when [X.numel() != M*N], or scale is defined with
    [numel() != N], or shift is defined with [numel() != N]; the backward
    entry point, which takes no shift, exactly when [dY.numel() != M*N],
    [X.numel() != M*N], [mean.numel() != M], [rstd.numel() != M], or scale
    is defined with [numel() != N].  When the device reports no error these
    are the only calls that throw.  A check error leaves every output
    tensor as it was, and a call with [M = 0] whose sizes pass the checks
    returns with every output tensor as it was, whatever the device
    reports. *)
Theorem size_checks_before_work (B : nat) (err : cudaError_t)
    (uninit : buffer) (M N : Z) :
  fits_int64 (M * N) ->
  (forall X gamma beta eps out,
     let r := LayerNormKernelImplInternal B err X gamma beta M N eps out in
     (fst r = Threw TorchCheckError <->
        numel X <> (M * N)%Z \/
        (exists g, gamma = Some g /\ numel g <> N) \/
        (exists b, beta = Some b /\ numel b <> N)) /\
     (fst r = Threw TorchCheckError -> snd r = out) /\
     (err = cudaSuccess -> forall e, fst r = Threw e -> e = TorchCheckError) /\
     (M = 0%Z -> fst r <> Threw TorchCheckError -> r = (Returned, out))) /\
  (forall dY X mean rstd gamma out,
     let r :=
       LayerNormBackwardKernelImplInternal B err uninit dY X mean rstd gamma
         M N out in
     (fst r = Threw TorchCheckError <->
        numel dY <> (M * N)%Z \/ numel X <> (M * N)%Z \/
        numel mean <> M \/ numel rstd <> M \/
        (exists g, gamma = Some g /\ numel g <> N)) /\
     (fst r = Threw TorchCheckError -> snd r = out) /\
     (err = cudaSuccess -> forall e, fst r = Threw e -> e = TorchCheckError) /\
     (M = 0%Z -> fst r <> Threw TorchCheckError -> r = (Returned, out))).
Proof.
  intros Hfit. pose proof (mul64_exact M N Hfit) as Hmul. split.
  - intros X gamma beta eps out r.
    rewrite <- Hmul, <- forward_checks_false.
    destruct (forward_checks X gamma beta M N) eqn:Hc.
    + destruct (forward_passed_outcome B err X gamma beta M N eps out Hc)
        as (Hne & Hdev & HM0).
      fold r in Hne, Hdev, HM0.
      split; [split; [contradiction | discriminate] |].
      split; [contradiction |].
      split; [intros Herr e He; now apply Hdev in He |].
      intros HM _. now apply HM0.
    + unfold r. rewrite LayerNormKernelImplInternal_checked, Hc. cbn [fst snd].
      split; [tauto |]. split; [reflexivity |].
      split; [intros _ e He; now injection He as <- |].
      intros _ H. contradiction.
  - intros dY X mean rstd gamma out r.
    rewrite <- Hmul, <- backward_checks_false.
    destruct (backward_checks dY X mean rstd gamma M N) eqn:Hc.
    + destruct (backward_passed_outcome B err uninit dY X mean rstd gamma
                  M N out Hc) as (Hne & Hdev & HM0).
      fold r in Hne, Hdev, HM0.
      split; [split; [contradiction | discriminate] |].
      split; [contradiction |].
      split; [intros Herr e He; now apply Hdev in He |].
      intros HM _. now apply HM0.
    + unfold r.
      rewrite LayerNormBackwardKernelImplInternal_checked by exact Hc.
      cbn [fst snd].
      split; [tauto |]. split; [reflexivity |].
      split; [intros _ e He; now injection He as <- |].
      intros _ H. contradiction.
Qed.

Lemma size_checks_before_work_witness :
  fits_int64 (0 * 3) /\
  LayerNormKernelImplInternal 32 cudaErrorLaunch (mkTensor 0 (fun _ => 0))
    None None 0 3 1
    (mkTensor 0 (fun _ => 0), mkTensor 0 (fun _ => 0), mkTensor 0 (fun _ => 0)) =
  (Returned,
   (mkTensor 0 (fun _ => 0), mkTensor 0 (fun _ => 0), mkTensor 0 (fun _ => 0))).
Proof.
  assert (Hfit : fits_int64 (0 * 3)) by (unfold fits_int64; simpl; lia).
  split; [exact Hfit |].
  destruct (size_checks_before_work 32 cudaErrorLaunch (fun _ => 0) 0 3 Hfit)
    as [Hfwd _].
  destruct (Hfwd (mkTensor 0 (fun _ => 0)) None None 1
              (mkTensor 0 (fun _ => 0), mkTensor 0 (fun _ => 0),
               mkTensor 0 (fun _ => 0))) as (Hiff & _ & _ & HM0).
  apply HM0; [reflexivity |].
  intros Hthrow. apply Hiff in Hthrow.
  destruct Hthrow as [H | [(g & E & _) | (b & E & _)]].
  - apply H. reflexivity.
  - discriminate E.
  - discriminate E.
Defined.

(** ** Rows of no column *)

Lemma RowwiseMoments_launch_empty (M : nat) (eps : R) (X : buffer) (B : nat) :
  reducible_block B -> (0 < M)%nat ->
  launch2_partial M B (RowwiseMomentsCUDAKernel 0 eps X B) = None.
Proof.
  intros HB HM. apply (launch2_partial_none M B 0 0).
  - exact HM.
  - now apply reducible_block_pos.
  - now apply RowwiseMoments_thread0_empty.
Qed.

Lemma backward_dX_launches_empty (B : nat) (uninit : buffer) (M : nat)
    (dY X mean rstd : buffer) (gamma : option buffer) (dX : Tensor) :
  (0 < M)%nat ->
  backward_dX_launches B uninit M 0 dY X mean rstd gamma dX = None.
Proof.
  intros HM. unfold backward_dX_launches, backward_dX_launches_on.
  destruct (launch2 M B (ComputeInternalGradientsCUDAKernel 0 dY X gamma B))
    as [ds_ws db_ws].
  rewrite (launch2_partial_none _ kCUDANumThreads 0 0); [reflexivity | | |].
  - pose proof (fused_grid_covers M). unfold kCUDANumThreads in *. lia.
  - exact kCUDANumThreads_pos.
  - apply ComputeGradientFusedParams_thread_empty.
    change (uint32 (0 * kCUDANumThreads + 0)) with 0%nat. exact HM.
Qed.

(** With a column, every thread of the coefficient pass computes real
    numbers, whatever the grid. *)
Lemma ComputeGradientFusedParams_defined (M N grid block : nat)
    (mean rstd ds db : buffer) :
  (1 <= N)%nat ->
  launch2_partial grid block
    (ComputeGradientFusedParamsCUDAKernel M N mean rstd ds db block) <> None.
Proof.
  intros HN.
  rewrite (launch2_partial_total grid block _
             (fun b t =>
                if Nat.ltb (uint32 (b * block + t)) M
                then ([(uint32 (b * block + t),
                        fused_c1 N mean rstd ds db (uint32 (b * block + t)))],
                      [(uint32 (b * block + t),
                        fused_c2 N mean rstd ds db (uint32 (b * block + t)))])
                else ([], []))).
  - discriminate.
  - intros b t _ _. now apply ComputeGradientFusedParams_thread.
Qed.

Lemma backward_dX_launches_some (B : nat) (uninit : buffer) (M N : nat)
    (dY X mean rstd : buffer) (gamma : option buffer) (dX : Tensor) :
  (1 <= N)%nat ->
  backward_dX_launches B uninit M N dY X mean rstd gamma dX <> None.
Proof.
  intros HN. unfold backward_dX_launches, backward_dX_launches_on.
  destruct (launch2 M B (ComputeInternalGradientsCUDAKernel N dY X gamma B))
    as [ds_ws db_ws].
  destruct (launch2_partial _ kCUDANumThreads
              (ComputeGradientFusedParamsCUDAKernel M N mean rstd
                 (commit uninit ds_ws) (commit uninit db_ws) kCUDANumThreads))
    as [[c1_ws c2_ws] |] eqn:E.
  - discriminate.
  - exfalso. revert E. now apply ComputeGradientFusedParams_defined.
Qed.



(** At [T = double] the same block does store: the quotient [0/0] is a
    NaN, of which the clamp makes [0], and thread 0 stores the mean [0] and
    [rstd = 1/sqrt(eps)]. *)
Lemma moments_of_no_column_in_binary64 :
  PrimFloat.is_nan (PrimFloat.div PrimFloat.zero (Double.of_int64 0)) = true /\
  Double.RowwiseMomentsCUDAKernel 0 Double.small_eps Double.wide_row 32 0 0 =
    ([(0%nat, PrimFloat.zero)], [(0%nat, Double.rsqrt Double.small_eps)]).
Proof. split; vm_compute; reflexivity. Qed.

(** ** The input gradient of the backward entry point *)

Lemma data_or_null_some (t : Tensor) :
  numel t <> 0%Z -> data_or_null (Some t) = Some (data_ptr t).
Proof.
  intros H. unfold data_or_null. now rewrite (proj2 (Z.eqb_neq _ _) H).
Qed.

(** A backward call that asks for [dX], on at least one row and one
    column, with a number of rows that a grid can hold and a [dX] that has
    elements: the three launches run on [M] blocks by row, and [dX] is
    written by the last one from the buffers that the first two filled. *)
Lemma backward_entry_dX (B : nat) (err : cudaError_t) (uninit : buffer)
    (dY X mean rstd : Tensor) (gamma : option Tensor) (M N : nat)
    (dX : Tensor) (dgamma dbeta : option Tensor) :
  reducible_block B ->
  backward_checks dY X mean rstd gamma (Z.of_nat M) (Z.of_nat N) = true ->
  (1 <= M)%nat -> (Z.of_nat M <= maxGridSize)%Z -> (1 <= N)%nat ->
  numel dX <> 0%Z ->
  let ds :=
    commit uninit
      (vector_writes M
         (row_ds N (data_ptr dY) (data_ptr X) (data_or_null gamma))) in
  let db :=
    commit uninit
      (vector_writes M (row_db N (data_ptr dY) (data_or_null gamma))) in
  let c1 :=
    commit uninit
      (vector_writes M (fused_c1 N (data_ptr mean) (data_ptr rstd) ds db)) in
  let c2 :=
    commit uninit
      (vector_writes M (fused_c2 N (data_ptr mean) (data_ptr rstd) ds db)) in
  let dX1 :=
    written dX
      (launch M kCUDANumThreads
         (LayerNormBackwardCUDAKenrel N (data_ptr dY) (data_ptr X)
            (data_or_null gamma) (data_ptr rstd) c1 c2 kCUDANumThreads)) in
  LayerNormBackwardKernelImplInternal B err uninit dY X mean rstd gamma
    (Z.of_nat M) (Z.of_nat N) (Some dX, dgamma, dbeta) =
  if match dgamma, dbeta with None, None => false | _, _ => true end
  then
    let ws :=
      backward_gamma_beta_launch uninit (Z.of_nat M) (Z.of_nat N)
        (data_ptr dY) (data_ptr X) (data_ptr mean) (data_ptr rstd)
        (data_or_null dgamma) (data_or_null dbeta) in
    AT_CUDA_CHECK err
      (Some dX1,
       option_map (fun t => written t (fst ws)) dgamma,
       option_map (fun t => written t (snd ws)) dbeta)
  else AT_CUDA_CHECK err (Some dX1, dgamma, dbeta).
Proof.
  intros HB Hc HM Hgrid HN HdX ds db c1 c2 dX1.
  rewrite backward_entry_rows by assumption.
  rewrite (proj2 (Z.eqb_neq _ _) HdX).
  rewrite backward_dX_launches_defined
    by (try assumption; unfold maxGridSize in Hgrid; lia).
  reflexivity.
Qed.




(** ** The [dbeta] output of the backward entry point *)

Lemma reduced_into_no_column (p : option buffer) (g : nat -> R) (b : buffer)
    (k : nat) :
  reduced_into p 0 g b k = b k.
Proof. unfold reduced_into. destruct p; reflexivity. Qed.

(** The writes of the parameter-gradient launch to [db] are computed from
    [dY] alone: they are the same for any [X], [mean], [rstd] and [dg]. *)
Lemma backward_gamma_beta_launch_db (uninit : buffer) (M N : Z)
    (dY X X' mean mean' rstd rstd' : buffer) (dg dg' db : option buffer) :
  snd (backward_gamma_beta_launch uninit M N dY X mean rstd dg db) =
  snd (backward_gamma_beta_launch uninit M N dY X' mean' rstd' dg' db).
Proof.
  rewrite !backward_gamma_beta_launch_select. destruct (Z.ltb M 512).
  - rewrite !launch2_blocks. cbn [snd]. apply launch_ext.
    intros b t _ _. rewrite !GammaBetaBackwardSimple_thread. cbv zeta.
    destruct (Nat.ltb _ _); reflexivity.
  - unfold launch2_xy. rewrite !launch2_blocks. cbn [snd]. apply launch_ext.
    intros b t _ Ht.
    assert (Hty : (t / 32 < 16)%nat)
      by (apply Nat.Div0.div_lt_upper_bound; lia).
    rewrite !GammaBetaBackward_thread by exact Hty.
    destruct (Nat.eqb (t mod 32) 0); reflexivity.
Qed.

(** Without a column, no thread of the parameter-gradient launch stores to
    [db], whatever the grid. *)
Lemma backward_gamma_beta_launch_no_column (uninit : buffer) (M N : Z)
    (dY X mean rstd : buffer) (dg db : option buffer) (b : buffer) (k : nat) :
  Z.to_nat N = 0%nat ->
  commit b (snd (backward_gamma_beta_launch uninit M N dY X mean rstd dg db))
         k = b k.
Proof.
  intros HN. apply commit_no_write. intros v.
  rewrite backward_gamma_beta_launch_select, HN. destruct (Z.ltb M 512).
  - rewrite launch2_blocks. cbn [snd]. rewrite in_launch.
    intros (b' & t & _ & _ & Hin).
    now rewrite GammaBetaBackwardSimple_thread in Hin.
  - unfold launch2_xy. rewrite launch2_blocks. cbn [snd]. rewrite in_launch.
    intros (b' & t & _ & Ht & Hin).
    assert (Hty : (t / 32 < 16)%nat)
      by (apply Nat.Div0.div_lt_upper_bound; lia).
    rewrite GammaBetaBackward_thread in Hin by exact Hty.
    destruct (Nat.eqb (t mod 32) 0); exact Hin.
Qed.

(** With a column, the launches that compute [dX] store real numbers,
    whatever the grids. *)
Lemma backward_dX_launches_on_some (B : nat) (uninit : buffer)
    (rows coef M N : nat) (dY X mean rstd : buffer) (gamma : option buffer)
    (dX : Tensor) :
  (1 <= N)%nat ->
  backward_dX_launches_on B uninit rows coef M N dY X mean rstd gamma dX <>
  None.
Proof.
  intros HN. unfold backward_dX_launches_on.
  destruct (launch2 rows B (ComputeInternalGradientsCUDAKernel N dY X gamma B))
    as [ds_ws db_ws].
  destruct (launch2_partial _ kCUDANumThreads
              (ComputeGradientFusedParamsCUDAKernel M N mean rstd
                 (commit uninit ds_ws) (commit uninit db_ws) kCUDANumThreads))
    as [[c1_ws c2_ws] |] eqn:E.
  - discriminate.
  - exfalso. revert E. now apply ComputeGradientFusedParams_defined.
Qed.

(** What the backward entry point leaves in a requested [dbeta]: when the
    checks pass and there is a row, the writes to [db] of the
    parameter-gradient launch, which are those of a launch that is given
    [dY] and [db] alone; the former content otherwise. *)
Lemma backward_dbeta_output (B : nat) (err : cudaError_t) (uninit : buffer)
    (dY X mean rstd : Tensor) (gamma : option Tensor) (M N : Z)
    (dX dgamma : option Tensor) (dbeta : Tensor) :
  exists t,
    snd (snd (LayerNormBackwardKernelImplInternal B err uninit dY X mean rstd
                gamma M N (dX, dgamma, Some dbeta))) = Some t /\
    numel t = numel dbeta /\
    forall k,
      data_ptr t k =
      if backward_checks dY X mean rstd gamma M N && negb (Z.eqb M 0)
      then commit (data_ptr dbeta)
             (snd (backward_gamma_beta_launch uninit M N (data_ptr dY)
                     (fun _ => 0) (fun _ => 0) (fun _ => 0) None
                     (data_or_null (Some dbeta)))) k
      else data_ptr dbeta k.
Proof.
  destruct (backward_checks dY X mean rstd gamma M N) eqn:Hc.
  - rewrite LayerNormBackwardKernelImplInternal_passed by exact Hc.
    destruct (Z.eqb M 0) eqn:EM.
    + exists dbeta. cbn [snd andb negb]. auto.
    + cbn [andb negb].
      assert (Hrun : forall dX' : option Tensor,
                exists t,
                  snd (snd
                    (if match dgamma with Some _ => true | None => true end
                     then
                       let ws :=
                         backward_gamma_beta_launch uninit M N (data_ptr dY)
                           (data_ptr X) (data_ptr mean) (data_ptr rstd)
                           (data_or_null dgamma)
                           (data_or_null (Some dbeta)) in
                       AT_CUDA_CHECK err
                         (dX',
                          option_map (fun t => written t (fst ws)) dgamma,
                          option_map (fun t => written t (snd ws))
                                     (Some dbeta))
                     else AT_CUDA_CHECK err (dX', dgamma, Some dbeta))) =
                  Some t /\
                  numel t = numel dbeta /\
                  forall k,
                    data_ptr t k =
                    commit (data_ptr dbeta)
                      (snd (backward_gamma_beta_launch uninit M N
                              (data_ptr dY) (fun _ => 0) (fun _ => 0)
                              (fun _ => 0) None
                              (data_or_null (Some dbeta)))) k).
      { intros dX'. eexists.
        replace (match dgamma with Some _ => true | None => true end)
          with true by (destruct dgamma; reflexivity).
        cbv zeta. rewrite (proj1 (AT_CUDA_CHECK_state err _)).
        cbn [snd option_map]. split; [reflexivity |].
        split; [reflexivity |]. intros k. cbn [data_ptr written].
        now rewrite (backward_gamma_beta_launch_db uninit M N (data_ptr dY)
                       (data_ptr X) (fun _ => 0) (data_ptr mean) (fun _ => 0)
                       (data_ptr rstd) (fun _ => 0) (data_or_null dgamma)
                       None). }
      destruct dX as [dX_t |]; [| destruct dgamma; apply Hrun].
      destruct (data_or_null (Some dX_t)); [| destruct dgamma; apply Hrun].
      destruct (backward_dX_launches_on B uninit _ _ (Z.to_nat M) (Z.to_nat N)
                  (data_ptr dY) (data_ptr X) (data_ptr mean)
                  (data_ptr rstd) (data_or_null gamma) dX_t) eqn:EdX.
      * cbn [option_map]. destruct dgamma; apply Hrun.
      * cbn [option_map snd]. exists dbeta.
        split; [reflexivity |]. split; [reflexivity |].
        assert (HN : Z.to_nat N = 0%nat).
        { destruct (Z.to_nat N) eqn:EN; [reflexivity |].
          exfalso. revert EdX. rewrite <- EN.
          apply backward_dX_launches_on_some. lia. }
        intros k.
        now rewrite backward_gamma_beta_launch_no_column by exact HN.
  - rewrite LayerNormBackwardKernelImplInternal_checked by exact Hc.
    exists dbeta. cbn [snd andb]. auto.
Qed.

Lemma backward_checks_sizes (dY X mean1 rstd1 mean2 rstd2 : Tensor)
    (gamma : option Tensor) (M N : Z) :
  numel mean1 = numel mean2 -> numel rstd1 = numel rstd2 ->
  backward_checks dY X mean1 rstd1 gamma M N =
  backward_checks dY X mean2 rstd2 gamma M N.
Proof. unfold backward_checks. now intros -> ->. Qed.

(** C8.  The [dbeta] output of the backward entry point is the same for
    any two contents of the [mean] and [rstd] tensors of the same size,
    and the same whether only [dbeta] is requested or [dX], [dgamma] and
    [dbeta] together; when the checks pass, there is a row, there are at
    most 2^32 columns and [dbeta] has elements, its element [j < N] is the
    sum over the rows of [dY[i,j]]. *)
Theorem dShift_independent (B : nat) (err : cudaError_t) (uninit : buffer)
    (dY X mean1 rstd1 mean2 rstd2 : Tensor) (gamma : option Tensor)
    (M N : Z) (dX dgamma : option Tensor) (dX_t dgamma_t dbeta : Tensor) :
  numel mean1 = numel mean2 -> numel rstd1 = numel rstd2 ->
  let run mean rstd out :=
    snd (snd (LayerNormBackwardKernelImplInternal B err uninit dY X mean rstd
                gamma M N out)) in
  same_content (run mean1 rstd1 (dX, dgamma, Some dbeta))
               (run mean2 rstd2 (dX, dgamma, Some dbeta)) /\
  same_content (run mean1 rstd1 (None, None, Some dbeta))
               (run mean1 rstd1 (Some dX_t, Some dgamma_t, Some dbeta)) /\
  (backward_checks dY X mean1 rstd1 gamma M N = true -> M <> 0%Z ->
   (N <= 2 ^ 32)%Z -> numel dbeta <> 0%Z ->
   exists t,
     run mean1 rstd1 (dX, dgamma, Some dbeta) = Some t /\
     forall j, (j < Z.to_nat N)%nat ->
       data_ptr t j =
       sumn (Z.to_nat M) (fun i => data_ptr dY (i * Z.to_nat N + j)%nat)).
Proof.
  intros Hm Hr run.
  destruct (backward_dbeta_output B err uninit dY X mean1 rstd1 gamma M N
              dX dgamma dbeta) as (t1 & E1 & Hn1 & H1).
  destruct (backward_dbeta_output B err uninit dY X mean2 rstd2 gamma M N
              dX dgamma dbeta) as (t2 & E2 & Hn2 & H2).
  destruct (backward_dbeta_output B err uninit dY X mean1 rstd1 gamma M N
              None None dbeta) as (t3 & E3 & Hn3 & H3).
  destruct (backward_dbeta_output B err uninit dY X mean1 rstd1 gamma M N
              (Some dX_t) (Some dgamma_t) dbeta) as (t4 & E4 & Hn4 & H4).
  unfold run. rewrite E1, E2, E3, E4. cbn [same_content].
  split; [| split].
  - split; [congruence |]. intros k. rewrite H1, H2.
    now rewrite (backward_checks_sizes dY X mean1 rstd1 mean2 rstd2 gamma M N
                   Hm Hr).
  - split; [congruence |]. intros k. now rewrite H3, H4.
  - intros Hc HM HN Hdb. exists t1. split; [reflexivity |].
    intros j Hj. rewrite H1, Hc, (proj2 (Z.eqb_neq M 0) HM).
    cbn [andb negb data_or_null].
    rewrite (proj2 (Z.eqb_neq (numel dbeta) 0) Hdb).
    rewrite (proj2 (backward_gamma_beta_launch_effect uninit M N (data_ptr dY)
                      (fun _ => 0) (fun _ => 0) (fun _ => 0) None
                      (Some (data_ptr dbeta)) (data_ptr dbeta) j
                      ltac:(lia))).
    unfold reduced_into.
    now rewrite (proj2 (Nat.ltb_lt _ _) Hj).
Qed.

Lemma dShift_independent_witness :
  let dY := mkTensor 2 (fun k => INR k) in
  let X := mkTensor 2 (fun _ => 1) in
  let dbeta := mkTensor 2 (fun _ => 0) in
  let run mean rstd out :=
    snd (snd (LayerNormBackwardKernelImplInternal 32 cudaSuccess (fun _ => 0)
                dY X mean rstd None 1 2 out)) in
  same_content
    (run (mkTensor 1 (fun _ => 0)) (mkTensor 1 (fun _ => 1))
         (None, None, Some dbeta))
    (run (mkTensor 1 (fun _ => 7)) (mkTensor 1 (fun _ => 9))
         (None, None, Some dbeta)) /\
  exists t,
    run (mkTensor 1 (fun _ => 0)) (mkTensor 1 (fun _ => 1))
        (None, None, Some dbeta) = Some t /\
    forall j, (j < Z.to_nat 2)%nat ->
      data_ptr t j =
      sumn (Z.to_nat 1) (fun i => data_ptr dY (i * Z.to_nat 2 + j)%nat).
Proof.
  destruct (dShift_independent 32 cudaSuccess (fun _ => 0)
              (mkTensor 2 (fun k => INR k)) (mkTensor 2 (fun _ => 1))
              (mkTensor 1 (fun _ => 0)) (mkTensor 1 (fun _ => 1))
              (mkTensor 1 (fun _ => 7)) (mkTensor 1 (fun _ => 9))
              None 1 2 None None
              (mkTensor 2 (fun _ => 0)) (mkTensor 2 (fun _ => 0))
              (mkTensor 2 (fun _ => 0)) eq_refl eq_refl) as (H1 & _ & H3).
  split; [exact H1 |].
  apply H3; [reflexivity | discriminate | lia | discriminate].
Defined.

(** ** Closed forms of the launches of the entry points *)

Lemma forward_launches_defined (B M N : nat) (eps : R) (X : buffer)
    (gamma beta : option buffer) (Y mean rstd : Tensor) :
  reducible_block B -> (1 <= N)%nat ->
  (forall i, (i < M)%nat -> 0 < row_radicand N eps X i) ->
  exists Y1 m1 r1,
    forward_launches B M N eps X gamma beta (Y, mean, rstd) =
      Some (Y1, m1, r1) /\
    forall i, (i < M)%nat ->
      data_ptr m1 i = row_mean N X i /\
      data_ptr r1 i = row_rstd N eps X i /\
      forall j, (j < N)%nat ->
        data_ptr Y1 (i * N + j)%nat =
        (X (i * N + j)%nat - row_mean N X i) * row_rstd N eps X i *
        read_or gamma 1 j + read_or beta 0 j.
Proof.
  intros HB HN Hrad. unfold forward_launches.
  rewrite RowwiseMoments_launch by assumption. cbn [Acc.bind].
  eexists _, _, _. split; [reflexivity |].
  intros i Hi. cbn [data_ptr written].
  pose proof (proj1 (commit_vector M (row_mean N X) (data_ptr mean)) i Hi) as Em.
  pose proof (proj1 (commit_vector M (row_rstd N eps X) (data_ptr rstd)) i Hi)
    as Er.
  split; [exact Em |]. split; [exact Er |].
  intros j Hj.
  pose proof (LayerNormForward_launch M N kCUDANumThreads X
                (commit (data_ptr mean) (vector_writes M (row_mean N X)))
                (commit (data_ptr rstd) (vector_writes M (row_rstd N eps X)))
                gamma beta kCUDANumThreads_pos) as Hp.
  rewrite (proj1 (commit_matrix M N _ _ (data_ptr Y) Hp) i j Hi Hj).
  now rewrite Em, Er.
Qed.

Lemma mapM_some_each {A B : Type} (f : A -> option B) (l : list A)
    (ys : list B) (x : A) :
  mapM f l = Some ys -> In x l -> f x <> None.
Proof.
  intros E Hin Hx. rewrite (mapM_none f l x Hin Hx) in E. discriminate.
Qed.

(** A forward run over at least one row has a result only when the rows
    have a column and every radicand is positive. *)
Lemma forward_launches_inv (B M N : nat) (eps : R) (X : buffer)
    (gamma beta : option buffer) (out out' : forward_out) :
  reducible_block B -> (0 < M)%nat ->
  forward_launches B M N eps X gamma beta out = Some out' ->
  (1 <= N)%nat /\ forall i, (i < M)%nat -> 0 < row_radicand N eps X i.
Proof.
  intros HB HM E. unfold forward_launches in E.
  destruct out as [[Y mean] rstd].
  destruct (launch2_partial M B (RowwiseMomentsCUDAKernel N eps X B))
    as [ws |] eqn:El; [| discriminate].
  clear E.
  assert (HN : (1 <= N)%nat).
  { destruct N as [| N]; [| lia].
    rewrite RowwiseMoments_launch_empty in El by assumption. discriminate. }
  split; [exact HN |]. intros i Hi.
  destruct (Rlt_dec 0 (row_radicand N eps X i)) as [Hpos | Hneg]; [exact Hpos |].
  exfalso.
  rewrite (launch2_partial_none M B i 0) in El; [discriminate | exact Hi | |].
  - now apply reducible_block_pos.
  - rewrite RowwiseMoments_thread0 by assumption.
    unfold Acc.max. fold (row_radicand N eps X i).
    rewrite rsqrt_undefined by lra. reflexivity.
Qed.

Lemma backward_dX_launches_values (B : nat) (uninit : buffer) (M N : nat)
    (dY X mean rstd : buffer) (gamma : option buffer) (dX : Tensor) :
  reducible_block B -> (1 <= N)%nat -> (Z.of_nat M <= 2 ^ 32)%Z ->
  exists d1,
    backward_dX_launches B uninit M N dY X mean rstd gamma dX = Some d1 /\
    forall i j, (i < M)%nat -> (j < N)%nat ->
      data_ptr d1 (i * N + j)%nat = dX_value N dY X mean rstd gamma i j.
Proof.
  intros HB HN HM.
  rewrite (backward_dX_launches_defined B uninit M N dY X mean rstd gamma dX
             HB HN HM).
  eexists. split; [reflexivity |].
  intros i j Hi Hj. cbn [data_ptr written].
  set (ds := commit uninit (vector_writes M (row_ds N dY X gamma))).
  set (db := commit uninit (vector_writes M (row_db N dY gamma))).
  set (c1 := commit uninit (vector_writes M (fused_c1 N mean rstd ds db))).
  set (c2 := commit uninit (vector_writes M (fused_c2 N mean rstd ds db))).
  pose proof (LayerNormBackward_launch M N kCUDANumThreads dY X gamma
                rstd c1 c2 kCUDANumThreads_pos) as Hp.
  rewrite (proj1 (commit_matrix M N _ _ (data_ptr dX) Hp) i j Hi Hj).
  assert (Eds : ds i = row_ds N dY X gamma i)
    by exact (proj1 (commit_vector M _ uninit) i Hi).
  assert (Edb : db i = row_db N dY gamma i)
    by exact (proj1 (commit_vector M _ uninit) i Hi).
  assert (E1 : c1 i = fused_c1 N mean rstd ds db i)
    by exact (proj1 (commit_vector M _ uninit) i Hi).
  assert (E2 : c2 i = fused_c2 N mean rstd ds db i)
    by exact (proj1 (commit_vector M _ uninit) i Hi).
  rewrite E1, E2. unfold fused_c2, fused_c1, dX_value. rewrite Eds, Edb.
  reflexivity.
Qed.

Lemma backward_dX_launches_no_row (B : nat) (uninit : buffer) (N : nat)
    (dY X mean rstd : buffer) (gamma : option buffer) (dX : Tensor) :
  backward_dX_launches B uninit 0 N dY X mean rstd gamma dX <> None.
Proof.
  unfold backward_dX_launches, launch2, launch2_partial, grid_threads.
  cbn [seq flat_map]. cbn [Acc.bind]. discriminate.
Qed.

(** ** Permuting the rows *)

Lemma row_permutation_lt (M : nat) (p : nat -> nat) (i : nat) :
  row_permutation M p -> (i < M)%nat -> (p i < M)%nat.
Proof.
  intros Hp Hi.
  assert (Hin : In (p i) (seq 0 M)).
  { apply (Permutation_in _ Hp). apply in_map. apply in_seq. lia. }
  apply in_seq in Hin. lia.
Qed.

(** A sum over the rows does not depend on their order. *)
Lemma sumn_row_permutation (M : nat) (p : nat -> nat) (f : nat -> R) :
  row_permutation M p -> sumn M (fun i => f (p i)) = sumn M f.
Proof.
  intros Hp. rewrite !sumn_suml, <- suml_map. now apply suml_perm.
Qed.

Section PermutedRows.

Variables (M N : nat) (p : nat -> nat).
Variables (X X' : buffer).
Hypothesis HX : permuted_rows M N p X X'.

Lemma row_mean_permuted (i : nat) :
  (i < M)%nat -> row_mean N X' i = row_mean N X (p i).
Proof.
  intros Hi. unfold row_mean. f_equal. apply sumn_ext.
  intros j Hj. unfold at_. now apply HX.
Qed.

Lemma row_m2_permuted (i : nat) :
  (i < M)%nat -> row_m2 N X' i = row_m2 N X (p i).
Proof.
  intros Hi. unfold row_m2. rewrite row_mean_permuted by exact Hi.
  apply sumn_ext. intros j Hj. unfold at_. now rewrite HX.
Qed.

Lemma row_radicand_permuted (eps : R) (i : nat) :
  (i < M)%nat -> row_radicand N eps X' i = row_radicand N eps X (p i).
Proof.
  intros Hi. unfold row_radicand. now rewrite row_m2_permuted.
Qed.

Lemma row_rstd_permuted (eps : R) (i : nat) :
  (i < M)%nat -> row_rstd N eps X' i = row_rstd N eps X (p i).
Proof.
  intros Hi. unfold row_rstd. now rewrite row_radicand_permuted.
Qed.

Variables (dY dY' : buffer).
Hypothesis HdY : permuted_rows M N p dY dY'.

Lemma row_ds_permuted (gamma : option buffer) (i : nat) :
  (i < M)%nat -> row_ds N dY' X' gamma i = row_ds N dY X gamma (p i).
Proof.
  intros Hi. unfold row_ds. apply sumn_ext.
  intros j Hj. unfold at_. now rewrite HX, HdY.
Qed.

Lemma row_db_permuted (gamma : option buffer) (i : nat) :
  (i < M)%nat -> row_db N dY' gamma i = row_db N dY gamma (p i).
Proof.
  intros Hi. unfold row_db. apply sumn_ext.
  intros j Hj. unfold at_. now rewrite HdY.
Qed.

Variables (mean mean' rstd rstd' : buffer).
Hypothesis Hmean : permuted M p mean mean'.
Hypothesis Hrstd : permuted M p rstd rstd'.

Lemma dX_value_permuted (gamma : option buffer) (i j : nat) :
  (i < M)%nat -> (j < N)%nat ->
  dX_value N dY' X' mean' rstd' gamma i j =
  dX_value N dY X mean rstd gamma (p i) j.
Proof.
  intros Hi Hj. unfold dX_value.
  rewrite row_ds_permuted, row_db_permuted by exact Hi.
  now rewrite Hmean, Hrstd, HX, HdY.
Qed.

Hypothesis Hp : row_permutation M p.

Lemma col_dgamma_permuted (j : nat) :
  (j < N)%nat ->
  col_dgamma M N dY' X' mean' rstd' j = col_dgamma M N dY X mean rstd j.
Proof.
  intros Hj. unfold col_dgamma.
  rewrite <- (sumn_row_permutation M p
                (fun i => at_ N dY i j * (at_ N X i j - mean i) * rstd i) Hp).
  apply sumn_ext. intros i Hi. unfold at_.
  now rewrite Hmean, Hrstd, HX, HdY.
Qed.

Lemma col_dbeta_permuted (j : nat) :
  (j < N)%nat -> col_dbeta M N dY' j = col_dbeta M N dY j.
Proof.
  intros Hj. unfold col_dbeta.
  rewrite <- (sumn_row_permutation M p (fun i => at_ N dY i j) Hp).
  apply sumn_ext. intros i Hi. unfold at_. now rewrite HdY.
Qed.

End PermutedRows.

Lemma reduced_into_ext (q : option buffer) (N : nat) (g g' : nat -> R)
    (b : buffer) (k : nat) :
  (forall j, (j < N)%nat -> g' j = g j) ->
  reduced_into q N g' b k = reduced_into q N g b k.
Proof.
  intros H. unfold reduced_into. destruct q; [| reflexivity].
  destruct (Nat.ltb k N) eqn:E; [| reflexivity].
  apply H. now apply Nat.ltb_lt.
Qed.

Lemma radicand_all_or_some (M : nat) (r : nat -> R) :
  (forall i, (i < M)%nat -> 0 < r i) \/ (exists i, (i < M)%nat /\ r i <= 0).
Proof.
  induction M as [| M [IH | (i & Hi & Hr)]].
  - left. intros i Hi. lia.
  - destruct (Rlt_le_dec 0 (r M)) as [Hpos | Hneg].
    + left. intros i Hi.
      destruct (Nat.eq_dec i M) as [-> | Hne]; [exact Hpos | apply IH; lia].
    + right. exists M. split; [lia | exact Hneg].
  - right. exists i. split; [lia | exact Hr].
Qed.

(** Every row is the image of a row. *)
Lemma row_permutation_onto (M : nat) (p : nat -> nat) (i : nat) :
  row_permutation M p -> (i < M)%nat -> exists i', (i' < M)%nat /\ p i' = i.
Proof.
  intros Hp Hi.
  assert (Hin : In i (map p (seq 0 M))).
  { apply (Permutation_in _ (Permutation_sym Hp)). apply in_seq. lia. }
  apply in_map_iff in Hin. destruct Hin as (i' & E & Hi').
  apply in_seq in Hi'. exists i'. split; [lia | exact E].
Qed.

Lemma same_content_refl (t : option Tensor) : same_content t t.
Proof. destruct t; cbn; auto. Qed.

Lemma AT_CUDA_CHECK_outcome {St St' : Type} (err : cudaError_t) (s : St)
    (s' : St') :
  fst (AT_CUDA_CHECK err s') = fst (AT_CUDA_CHECK err s).
Proof. destruct err; reflexivity. Qed.

(** The forward launches on an input whose rows are permuted: they have a
    result exactly when they have one on the original input, and it is the
    original result with its rows permuted. *)
Lemma forward_launches_permuted (B M N : nat) (eps : R) (p : nat -> nat)
    (X X' : buffer) (gamma beta : option buffer) (out : forward_out) :
  reducible_block B -> row_permutation M p -> permuted_rows M N p X X' ->
  match forward_launches B M N eps X gamma beta out,
        forward_launches B M N eps X' gamma beta out with
  | Some (Y1, m1, r1), Some (Y1', m1', r1') =>
      permuted_rows M N p (data_ptr Y1) (data_ptr Y1') /\
      permuted M p (data_ptr m1) (data_ptr m1') /\
      permuted M p (data_ptr r1) (data_ptr r1')
  | None, None => True
  | _, _ => False
  end.
Proof.
  intros HB Hp HX. destruct out as [[Y mean] rstd].
  destruct (Nat.eq_dec M 0) as [-> | HM].
  - unfold forward_launches, launch2_partial, grid_threads.
    cbn [seq flat_map mapM Acc.bind].
    repeat split; intros i; intros; lia.
  - assert (Hlt : forall i, (i < M)%nat -> (p i < M)%nat)
      by (intros i Hi; now apply row_permutation_lt).
    destruct (forward_launches B M N eps X gamma beta (Y, mean, rstd))
      as [[[Y1 m1] r1] |] eqn:E;
      destruct (forward_launches B M N eps X' gamma beta (Y, mean, rstd))
        as [[[Y1' m1'] r1'] |] eqn:E'.
    + destruct (forward_launches_inv B M N eps X gamma beta _ _ HB
                  ltac:(lia) E) as [HN Hrad].
      destruct (forward_launches_inv B M N eps X' gamma beta _ _ HB
                  ltac:(lia) E') as [_ Hrad'].
      destruct (forward_launches_defined B M N eps X gamma beta Y mean rstd
                  HB HN Hrad) as (Ya & ma & ra & Ea & Ha).
      rewrite Ea in E. injection E as <- <- <-.
      destruct (forward_launches_defined B M N eps X' gamma beta Y mean rstd
                  HB HN Hrad') as (Yb & mb & rb & Eb & Hb).
      rewrite Eb in E'. injection E' as <- <- <-.
      split; [| split].
      * intros i j Hi Hj.
        destruct (Hb i Hi) as (_ & _ & HYb).
        destruct (Ha (p i) (Hlt i Hi)) as (_ & _ & HYa).
        rewrite HYb, HYa by exact Hj.
        rewrite (row_mean_permuted M N p X X' HX i Hi).
        rewrite (row_rstd_permuted M N p X X' HX eps i Hi).
        now rewrite HX.
      * intros i Hi.
        rewrite (proj1 (Hb i Hi)), (proj1 (Ha (p i) (Hlt i Hi))).
        exact (row_mean_permuted M N p X X' HX i Hi).
      * intros i Hi.
        rewrite (proj1 (proj2 (Hb i Hi))),
          (proj1 (proj2 (Ha (p i) (Hlt i Hi)))).
        exact (row_rstd_permuted M N p X X' HX eps i Hi).
    + destruct (forward_launches_inv B M N eps X gamma beta _ _ HB
                  ltac:(lia) E) as [HN Hrad].
      assert (Hrad' : forall i, (i < M)%nat -> 0 < row_radicand N eps X' i).
      { intros i Hi. rewrite (row_radicand_permuted M N p X X' HX eps i Hi).
        apply Hrad. now apply Hlt. }
      destruct (forward_launches_defined B M N eps X' gamma beta Y mean rstd
                  HB HN Hrad') as (Yb & mb & rb & Eb & _).
      rewrite Eb in E'. discriminate.
    + destruct (forward_launches_inv B M N eps X' gamma beta _ _ HB
                  ltac:(lia) E') as [HN Hrad'].
      assert (Hrad : forall i, (i < M)%nat -> 0 < row_radicand N eps X i).
      { intros i Hi. destruct (row_permutation_onto M p i Hp Hi)
          as (i' & Hi' & <-).
        rewrite <- (row_radicand_permuted M N p X X' HX eps i' Hi').
        now apply Hrad'. }
      destruct (forward_launches_defined B M N eps X gamma beta Y mean rstd
                  HB HN Hrad) as (Ya & ma & ra & Ea & _).
      rewrite Ea in E. discriminate.
    + exact I.
Qed.

(** The launches that compute [dX], on at most 2^32 rows that are permuted
    together with [mean] and [rstd]. *)
Lemma backward_dX_launches_permuted (B : nat) (uninit : buffer) (M N : nat)
    (p : nat -> nat) (dY dY' X X' mean mean' rstd rstd' : buffer)
    (gamma : option buffer) (dX : Tensor) :
  reducible_block B -> (1 <= M)%nat -> (Z.of_nat M <= 2 ^ 32)%Z ->
  row_permutation M p ->
  permuted_rows M N p X X' -> permuted_rows M N p dY dY' ->
  permuted M p mean mean' -> permuted M p rstd rstd' ->
  match backward_dX_launches B uninit M N dY X mean rstd gamma dX,
        backward_dX_launches B uninit M N dY' X' mean' rstd' gamma dX with
  | Some d1, Some d1' => permuted_rows M N p (data_ptr d1) (data_ptr d1')
  | None, None => True
  | _, _ => False
  end.
Proof.
  intros HB HM Hfits Hp HX HdY Hmean Hrstd.
  destruct N as [| N0].
  - now rewrite !backward_dX_launches_empty by lia.
  - assert (HN : (1 <= S N0)%nat) by lia.
    destruct (backward_dX_launches_values B uninit M (S N0) dY X mean rstd
                gamma dX HB HN Hfits) as (da & -> & Ha).
    destruct (backward_dX_launches_values B uninit M (S N0) dY' X' mean' rstd'
                gamma dX HB HN Hfits) as (db & -> & Hb).
    intros i j Hi Hj.
    rewrite Hb, Ha by (auto using row_permutation_lt).
    now apply (dX_value_permuted M (S N0) p X X' HX dY dY' HdY mean mean' rstd
                 rstd' Hmean Hrstd).
Qed.

(** The parameter-gradient launch stores the same values from the same
    threads when the rows are permuted: each sum over the rows has the
    same terms. *)
Lemma backward_gamma_beta_launch_permuted (uninit : buffer) (M N : nat)
    (p : nat -> nat) (dY dY' X X' mean mean' rstd rstd' : buffer)
    (dg db : option buffer) :
  row_permutation M p ->
  permuted_rows M N p X X' -> permuted_rows M N p dY dY' ->
  permuted M p mean mean' -> permuted M p rstd rstd' ->
  backward_gamma_beta_launch uninit (Z.of_nat M) (Z.of_nat N)
    dY' X' mean' rstd' dg db =
  backward_gamma_beta_launch uninit (Z.of_nat M) (Z.of_nat N)
    dY X mean rstd dg db.
Proof.
  intros Hp HX HdY Hmean Hrstd.
  assert (Sg : forall j, (j < N)%nat ->
            sumn M (fun i => dg_term dY' X' mean' rstd' dg i (i * N + j)) =
            sumn M (fun i => dg_term dY X mean rstd dg i (i * N + j))).
  { intros j Hj. destruct dg as [g |]; [| reflexivity].
    rewrite !dg_term_requested.
    now apply (col_dgamma_permuted M N p X X' HX dY dY' HdY mean mean' rstd
                 rstd' Hmean Hrstd Hp). }
  assert (Sb : forall j, (j < N)%nat ->
            sumn M (fun i => db_term dY' db (i * N + j)) =
            sumn M (fun i => db_term dY db (i * N + j))).
  { intros j Hj. destruct db as [g |]; [| reflexivity].
    rewrite !db_term_requested.
    now apply (col_dbeta_permuted M N p dY dY' HdY Hp). }
  assert (Tg : forall j,
            (if Nat.ltb j N
             then store_if dg j
                    (sumn M (fun i =>
                               dg_term dY' X' mean' rstd' dg i (i * N + j)))
             else []) =
            (if Nat.ltb j N
             then store_if dg j
                    (sumn M (fun i =>
                               dg_term dY X mean rstd dg i (i * N + j)))
             else [])).
  { intros j. destruct (Nat.ltb j N) eqn:E; [| reflexivity].
    apply Nat.ltb_lt in E. now rewrite Sg. }
  assert (Tb : forall j,
            (if Nat.ltb j N
             then store_if db j
                    (sumn M (fun i => db_term dY' db (i * N + j)))
             else []) =
            (if Nat.ltb j N
             then store_if db j
                    (sumn M (fun i => db_term dY db (i * N + j)))
             else [])).
  { intros j. destruct (Nat.ltb j N) eqn:E; [| reflexivity].
    apply Nat.ltb_lt in E. now rewrite Sb. }
  rewrite !backward_gamma_beta_launch_select, !Nat2Z.id.
  destruct (Z.ltb (Z.of_nat M) 512).
  - apply launch2_ext. intros b0 t _ _.
    rewrite !GammaBetaBackwardSimple_thread. cbv zeta.
    destruct (Nat.ltb (uint32 (b0 * kCUDANumThreads + t)) N) eqn:Ej;
      [| reflexivity].
    apply Nat.ltb_lt in Ej. now rewrite Sg, Sb.
  - unfold launch2_xy. apply launch2_ext. intros b0 t _ Ht.
    assert (Hty : (t / 32 < 16)%nat)
      by (apply Nat.Div0.div_lt_upper_bound; lia).
    rewrite !GammaBetaBackward_thread by exact Hty.
    destruct (Nat.eqb (t mod 32) 0); [| reflexivity].
    cbv zeta. now rewrite !Tg, !Tb.
Qed.

(** C9.  In exact arithmetic, for at most [maxGridSize] (2^31 - 1) rows.
    Let [p] permute the rows, and let [X'] be [X] with its rows permuted
    by [p].  A forward call on [X'] ends as the call on [X] does, and
    when they return, the [Y], [mean] and [rstd] of the one are those of
    the other with their rows permuted by [p].  Let also [dY'], [mean']
    and [rstd'] be [dY], [mean] and [rstd] permuted by [p]: a backward
    call on the permuted input ends as the call on the original input
    does, its [dgamma] and [dbeta] are exactly those of the original
    input, and when the calls return with a [dX] that has elements, the
    [dX] of the one is the [dX] of the other with its rows permuted by
    [p].  The calls do return when the sizes pass the checks, there is a
    column, [eps > 0] and the device reports no error. *)
Theorem rows_permutation_equivariant (B : nat) (err : cudaError_t)
    (uninit : buffer) (M N : nat) (eps : R) (p : nat -> nat)
    (X X' : Tensor) (gamma beta : option Tensor) :
  reducible_block B -> row_permutation M p ->
  (Z.of_nat M <= maxGridSize)%Z ->
  numel X' = numel X -> permuted_rows M N p (data_ptr X) (data_ptr X') ->
  (forall out,
     let r :=
       LayerNormKernelImplInternal B err X gamma beta (Z.of_nat M)
         (Z.of_nat N) eps out in
     let r' :=
       LayerNormKernelImplInternal B err X' gamma beta (Z.of_nat M)
         (Z.of_nat N) eps out in
     fst r' = fst r /\
     (fst r = Returned ->
      let '(Y1, mean1, rstd1) := snd r in
      let '(Y1', mean1', rstd1') := snd r' in
      permuted_rows M N p (data_ptr Y1) (data_ptr Y1') /\
      permuted M p (data_ptr mean1) (data_ptr mean1') /\
      permuted M p (data_ptr rstd1) (data_ptr rstd1')) /\
     (forward_checks X gamma beta (Z.of_nat M) (Z.of_nat N) = true ->
      (1 <= N)%nat -> 0 < eps -> err = cudaSuccess -> fst r = Returned)) /\
  (forall dY dY' mean mean' rstd rstd' dX dgamma dbeta,
     numel dY' = numel dY ->
     permuted_rows M N p (data_ptr dY) (data_ptr dY') ->
     numel mean' = numel mean ->
     permuted M p (data_ptr mean) (data_ptr mean') ->
     numel rstd' = numel rstd ->
     permuted M p (data_ptr rstd) (data_ptr rstd') ->
     let r :=
       LayerNormBackwardKernelImplInternal B err uninit dY X mean rstd gamma
         (Z.of_nat M) (Z.of_nat N) (dX, dgamma, dbeta) in
     let r' :=
       LayerNormBackwardKernelImplInternal B err uninit dY' X' mean' rstd'
         gamma (Z.of_nat M) (Z.of_nat N) (dX, dgamma, dbeta) in
     fst r' = fst r /\
     same_content (snd (fst (snd r'))) (snd (fst (snd r))) /\
     same_content (snd (snd r')) (snd (snd r)) /\
     (fst r = Returned ->
      match dX, fst (fst (snd r)), fst (fst (snd r')) with
      | None, None, None => True
      | Some d, Some d1, Some d1' =>
          numel d <> 0%Z ->
          permuted_rows M N p (data_ptr d1) (data_ptr d1')
      | _, _, _ => False
      end) /\
     (backward_checks dY X mean rstd gamma (Z.of_nat M) (Z.of_nat N) = true ->
      (1 <= N)%nat -> err = cudaSuccess -> fst r = Returned)).
Proof.
  intros HB Hp Hgrid HnX HX.
  assert (HM32 : (Z.of_nat M <= 2 ^ 32)%Z)
    by (unfold maxGridSize in Hgrid; lia).
  split.
  - intros out r r'. unfold r, r'. clear r r'.
    rewrite !LayerNormKernelImplInternal_checked.
    replace (forward_checks X' gamma beta (Z.of_nat M) (Z.of_nat N))
      with (forward_checks X gamma beta (Z.of_nat M) (Z.of_nat N))
      by (unfold forward_checks; now rewrite HnX).
    destruct (forward_checks X gamma beta (Z.of_nat M) (Z.of_nat N));
      [| repeat split; intros; discriminate].
    destruct (Z.eqb (Z.of_nat M) 0) eqn:EM.
    + apply Z.eqb_eq in EM.
      split; [reflexivity |]. split; [| reflexivity].
      intros _. cbn [snd]. destruct out as [[Y mean] rstd].
      repeat split; intros i; intros; lia.
    + rewrite (proj1 (row_grids M Hgrid)), !Nat2Z.id.
      pose proof (forward_launches_permuted B M N eps p (data_ptr X)
                    (data_ptr X') (data_or_null gamma) (data_or_null beta)
                    out HB Hp HX) as Hperm.
      destruct (forward_launches B M N eps (data_ptr X) (data_or_null gamma)
                  (data_or_null beta) out) as [[[Y1 m1] r1] |] eqn:E;
        destruct (forward_launches B M N eps (data_ptr X')
                    (data_or_null gamma) (data_or_null beta) out)
          as [[[Y1' m1'] r1'] |] eqn:E'; try contradiction.
      * split; [apply AT_CUDA_CHECK_outcome |]. split.
        -- intros _. rewrite !(proj1 (AT_CUDA_CHECK_state err _)).
           exact Hperm.
        -- intros _ _ _ ->. reflexivity.
      * split; [reflexivity |]. split; [discriminate |].
        intros _ HN Heps _. exfalso.
        destruct out as [[Y mean] rstd].
        destruct (forward_launches_defined B M N eps (data_ptr X)
                    (data_or_null gamma) (data_or_null beta) Y mean rstd
                    HB HN) as (Ya & ma & ra & Ea & _).
        -- intros i _.
           pose proof (row_radicand_ge_eps N eps (data_ptr X) i). lra.
        -- rewrite Ea in E. discriminate.
  - intros dY dY' mean mean' rstd rstd' dX dgamma dbeta HndY HdY Hnm Hmean
      Hnr Hrstd r r'. unfold r, r'. clear r r'.
    assert (Hsame : backward_checks dY' X' mean' rstd' gamma (Z.of_nat M)
                      (Z.of_nat N) =
                    backward_checks dY X mean rstd gamma (Z.of_nat M)
                      (Z.of_nat N)).
    { unfold backward_checks. now rewrite HndY, HnX, Hnm, Hnr. }
    destruct (backward_checks dY X mean rstd gamma (Z.of_nat M) (Z.of_nat N))
      eqn:Hc.
    2:{ rewrite !LayerNormBackwardKernelImplInternal_checked by congruence.
        cbn [fst snd].
        split; [reflexivity |].
        split; [apply same_content_refl |].
        split; [apply same_content_refl |].
        split; discriminate. }
    destruct (Nat.eq_dec M 0) as [-> | HM].
    { rewrite !LayerNormBackwardKernelImplInternal_passed by congruence.
      cbn [Z.of_nat Z.eqb fst snd].
      split; [reflexivity |].
      split; [apply same_content_refl |].
      split; [apply same_content_refl |].
      split; [| reflexivity].
      intros _. destruct dX as [d |]; [| exact I].
      intros _ i j Hi. lia. }
    rewrite !backward_entry_rows by (try congruence; lia).
    rewrite (backward_gamma_beta_launch_permuted uninit M N p (data_ptr dY)
               (data_ptr dY') (data_ptr X) (data_ptr X') (data_ptr mean)
               (data_ptr mean') (data_ptr rstd) (data_ptr rstd')
               (data_or_null dgamma) (data_or_null dbeta) Hp HX HdY Hmean
               Hrstd).
    cbv zeta.
    set (ws := backward_gamma_beta_launch uninit (Z.of_nat M) (Z.of_nat N)
                 (data_ptr dY) (data_ptr X) (data_ptr mean) (data_ptr rstd)
                 (data_or_null dgamma) (data_or_null dbeta)).
    destruct dX as [d |].
    + destruct (Z.eqb (numel d) 0) eqn:Ed.
      * apply Z.eqb_eq in Ed.
        destruct dgamma, dbeta, err; cbn [AT_CUDA_CHECK fst snd option_map];
          (split; [reflexivity |]);
          (split; [apply same_content_refl |]);
          (split; [apply same_content_refl |]);
          (split;
           [intros HR; try discriminate HR; intros Hd; now exfalso
           | intros _ _ Herr; try discriminate Herr; reflexivity]).
      * pose proof (backward_dX_launches_permuted B uninit M N p (data_ptr dY)
                      (data_ptr dY') (data_ptr X) (data_ptr X')
                      (data_ptr mean) (data_ptr mean') (data_ptr rstd)
                      (data_ptr rstd') (data_or_null gamma) d HB
                      ltac:(lia) HM32 Hp HX HdY Hmean Hrstd) as Hperm.
        destruct (backward_dX_launches B uninit M N (data_ptr dY) (data_ptr X)
                    (data_ptr mean) (data_ptr rstd) (data_or_null gamma) d)
          as [d1 |] eqn:E;
          destruct (backward_dX_launches B uninit M N (data_ptr dY')
                      (data_ptr X') (data_ptr mean') (data_ptr rstd')
                      (data_or_null gamma) d) as [d1' |] eqn:E';
          try contradiction.
        -- destruct dgamma, dbeta, err;
             cbn [AT_CUDA_CHECK fst snd option_map];
             (split; [reflexivity |]);
             (split; [apply same_content_refl |]);
             (split; [apply same_content_refl |]);
             (split;
              [intros HR; try discriminate HR; intros _; exact Hperm
              | intros _ _ Herr; try discriminate Herr; reflexivity]).
        -- cbn [option_map fst snd].
           split; [reflexivity |].
           split; [apply same_content_refl |].
           split; [apply same_content_refl |].
           split; [discriminate |].
           intros _ HN _. exfalso. revert E.
           now apply backward_dX_launches_some.
    + destruct dgamma, dbeta, err; cbn [AT_CUDA_CHECK fst snd option_map];
        (split; [reflexivity |]);
        (split; [apply same_content_refl |]);
        (split; [apply same_content_refl |]);
        (split;
         [intros HR; try discriminate HR; exact I
         | intros _ _ Herr; try discriminate Herr; reflexivity]).
Qed.

Lemma rows_permutation_equivariant_witness :
  let p := fun i => (1 - i)%nat in
  let swap := fun k => if Nat.ltb k 2 then (k + 2)%nat else (k - 2)%nat in
  let X := mkTensor 4 (fun k => INR k) in
  let X' := mkTensor 4 (fun k => INR (swap k)) in
  let dY := mkTensor 4 (fun k => INR (k * k)) in
  let dY' := mkTensor 4 (fun k => INR (swap k * swap k)) in
  let mean := mkTensor 2 (fun i => INR i) in
  let mean' := mkTensor 2 (fun i => INR (p i)) in
  let rstd := mkTensor 2 (fun _ => 1) in
  let O := mkTensor 4 (fun _ => 0) in
  let S2 := mkTensor 2 (fun _ => 0) in
  reducible_block 32 /\ row_permutation 2 p /\
  (Z.of_nat 2 <= maxGridSize)%Z /\ numel X' = numel X /\
  permuted_rows 2 2 p (data_ptr X) (data_ptr X') /\
  fst (LayerNormKernelImplInternal 32 cudaSuccess X' None None (Z.of_nat 2)
         (Z.of_nat 2) 1 (O, S2, S2)) =
  fst (LayerNormKernelImplInternal 32 cudaSuccess X None None (Z.of_nat 2)
         (Z.of_nat 2) 1 (O, S2, S2)) /\
  same_content
    (snd (snd (LayerNormBackwardKernelImplInternal 32 cudaSuccess
                 (fun _ => 0) dY' X' mean' rstd None (Z.of_nat 2) (Z.of_nat 2)
                 (Some O, Some S2, Some S2))))
    (snd (snd (LayerNormBackwardKernelImplInternal 32 cudaSuccess
                 (fun _ => 0) dY X mean rstd None (Z.of_nat 2) (Z.of_nat 2)
                 (Some O, Some S2, Some S2)))).
Proof.
  intros p swap X X' dY dY' mean mean' rstd O S2.
  assert (Hp : row_permutation 2 p) by (apply perm_swap).
  assert (Hgrid : (Z.of_nat 2 <= maxGridSize)%Z) by (unfold maxGridSize; lia).
  assert (HX : permuted_rows 2 2 p (data_ptr X) (data_ptr X')).
  { intros [| [| i]] [| [| j]] Hi Hj; try lia; reflexivity. }
  assert (HdY : permuted_rows 2 2 p (data_ptr dY) (data_ptr dY')).
  { intros [| [| i]] [| [| j]] Hi Hj; try lia; reflexivity. }
  split; [exact reducible_block_32 |]. split; [exact Hp |].
  split; [exact Hgrid |]. split; [reflexivity |]. split; [exact HX |].
  destruct (rows_permutation_equivariant 32 cudaSuccess (fun _ => 0) 2 2 1 p
              X X' None None reducible_block_32 Hp Hgrid eq_refl HX)
    as (Hf & Hb).
  split.
  - exact (proj1 (Hf (O, S2, S2))).
  - exact (proj1 (proj2 (proj2
             (Hb dY dY' mean mean' rstd rstd (Some O) (Some S2) (Some S2)
                 eq_refl HdY eq_refl (fun i _ => eq_refl) eq_refl
                 (fun i _ => eq_refl))))).
Defined.

(** At [T = double], a column of three finite numbers and the same column
    with its rows 1 and 2 exchanged: the simple parameter-gradient kernel
    adds the rows in their order, and stores [dbeta[0] = 0] for the one
    and [dbeta[0] = 1] for the other. *)
Lemma dbeta_depends_on_row_order_in_binary64 :
  let p := fun i => match i with 1%nat => 2%nat | 2%nat => 1%nat | _ => i end in
  let O : Double.buffer := fun _ => PrimFloat.zero in
  let I : Double.buffer := fun _ => PrimFloat.one in
  row_permutation 3 p /\
  (forall i, (i < 3)%nat ->
     Double.column_b (i * 1 + 0)%nat = Double.column_a (p i * 1 + 0)%nat) /\
  (forall k, PrimFloat.is_finite (Double.column_a k) = true) /\
  snd (Double.GammaBetaBackwardSimpleCUDAKernel 3 1 Double.column_a
         Double.column_a O I None (Some O) 256 0 0) =
    [(0%nat, PrimFloat.zero)] /\
  snd (Double.GammaBetaBackwardSimpleCUDAKernel 3 1 Double.column_b
         Double.column_b O I None (Some O) 256 0 0) =
    [(0%nat, PrimFloat.one)] /\
  PrimFloat.eqb PrimFloat.zero PrimFloat.one = false.
Proof.
  intros p O I.
  split; [apply perm_skip, perm_swap |].
  split; [intros [| [| [| i]]] Hi; try lia; reflexivity |].
  split; [intros [| [| k]]; vm_compute; reflexivity |].
  repeat split; vm_compute; reflexivity.
Qed.

(** * Further properties of the kernels and of the entry points *)

(** ** The streaming fold of one lane *)

Lemma suml_sq_dev (l : list nat) (f : nat -> R) (c : R) :
  suml l (fun j => (f j - c) * (f j - c)) =
  suml l (fun j => f j * f j) - 2 * c * suml l f + INR (length l) * (c * c).
Proof.
  unfold suml. induction l as [| a l IH].
  - simpl. ring.
  - change (length (a :: l)) with (S (length l)). rewrite S_INR.
    cbn [fold_right]. rewrite IH. ring.
Qed.

Lemma suml_nonneg (l : list nat) (f : nat -> R) :
  (forall j, 0 <= f j) -> 0 <= suml l f.
Proof.
  intros H. unfold suml. induction l as [| a l IH]; simpl; [lra |].
  pose proof (H a). lra.
Qed.

(** X1.  The loop of a lane of the moment pass never divides by zero, and
    leaves the lane with the number of columns it visited, their mean, and
    the sum of their squared deviations from that mean; a lane that starts
    beyond the last column keeps the triple of no sample. *)
Theorem welford_lane_invariant (N : nat) (X : buffer) (B i t : nat) :
  (t < B)%nat ->
  (exists m0 m1 m2,
     moments_lane N X B i t = Some (m0, m1, m2) /\
     m0 = length (lane_cols t N B) /\
     INR m0 * m1 = suml (lane_cols t N B) (fun j => X (i * N + j)%nat) /\
     m2 = suml (lane_cols t N B)
               (fun j => (X (i * N + j)%nat - m1) * (X (i * N + j)%nat - m1))) /\
  ((N <= t)%nat -> moments_lane N X B i t = Some no_sample).
Proof.
  intros Ht. split.
  - destruct (moments_lane_represents N X B i t Ht) as ([[m0 m1] m2] & E & H).
    exists m0, m1, m2. split; [exact E |].
    destruct H as (Hn & Hs & Hm & _).
    rewrite suml_ones in Hs, Hn. apply INR_eq in Hn. subst m0.
    change (at_ N X i) with (fun j => X (i * N + j)%nat) in Hs, Hm.
    change (fun j => at_ N X i j * at_ N X i j)
      with (fun j => X (i * N + j)%nat * X (i * N + j)%nat) in Hm.
    split; [reflexivity |]. split.
    + exact (eq_sym Hs).
    + rewrite (suml_sq_dev (lane_cols t N B) (fun j => X (i * N + j)%nat) m1).
      rewrite Hm, Hs. ring.
  - intros Hle. unfold moments_lane.
    rewrite for_stride_lane by exact Ht.
    unfold lane_cols. rewrite filter_none; [reflexivity |].
    intros c Hc. apply in_seq in Hc. apply Nat.eqb_neq.
    rewrite Nat.mod_small by lia. lia.
Qed.

Lemma welford_lane_invariant_witness :
  (1 < 32)%nat /\
  exists m0 m1 m2,
    moments_lane 40 (fun k => INR k) 32 0 1 = Some (m0, m1, m2) /\
    m0 = length (lane_cols 1 40 32).
Proof.
  split; [lia |].
  destruct (proj1 (welford_lane_invariant 40 (fun k => INR k) 32 0 1
                     ltac:(lia))) as (m0 & m1 & m2 & E & Hn & _).
  exists m0, m1, m2. auto.
Defined.

(** ** The variance of a row *)

Lemma sumn_nonneg (n : nat) (f : nat -> R) :
  (forall j, 0 <= f j) -> 0 <= sumn n f.
Proof. intros H. rewrite sumn_suml. now apply suml_nonneg. Qed.

Lemma row_m2_nonneg (N : nat) (X : buffer) (i : nat) : 0 <= row_m2 N X i.
Proof.
  unfold row_m2. apply sumn_nonneg. intros j.
  apply Rle_0_sqr.
Qed.

Lemma row_radicand_unclamped (N : nat) (eps : R) (X : buffer) (i : nat) :
  (1 <= N)%nat -> row_radicand N eps X i = row_m2 N X i / INR N + eps.
Proof.
  intros HN. unfold row_radicand. rewrite Rmax_left; [reflexivity |].
  apply Rmult_le_pos; [apply row_m2_nonneg |].
  apply Rlt_le, Rinv_0_lt_compat, lt_0_INR. lia.
Qed.

(** X2.  For a row of at least one column the sum of squared deviations
    that the moment pass divides by [N] is not negative, so in exact
    arithmetic the clamp to zero changes nothing: thread 0 stores the
    reciprocal square root of the variance plus [eps], the variance being
    the mean of the squares minus the square of the mean. *)
Theorem variance_clamp_inactive (B N : nat) (eps : R) (X : buffer) (i : nat) :
  reducible_block B -> (1 <= N)%nat ->
  let mean := sumn N (fun j => X (i * N + j)%nat) / INR N in
  let var := sumn N (fun j => X (i * N + j)%nat * X (i * N + j)%nat) / INR N
             - mean * mean in
  0 <= var /\
  RowwiseMomentsCUDAKernel N eps X B i 0 =
    (r <- Acc.rsqrt (var + eps) ;; Some ([(i, mean)], [(i, r)])).
Proof.
  intros HB HN mean var.
  assert (Hpos : INR N <> 0) by (apply not_0_INR; lia).
  assert (Hvar : var = row_m2 N X i / INR N).
  { unfold var, row_m2.
    rewrite (sumn_sq_dev N (at_ N X i) (row_mean N X i)).
    change (row_mean N X i) with mean.
    change (sumn N (fun j => at_ N X i j * at_ N X i j))
      with (sumn N (fun j => X (i * N + j)%nat * X (i * N + j)%nat)).
    assert (Hs : sumn N (at_ N X i) = INR N * mean).
    { unfold mean. change (at_ N X i) with (fun j => X (i * N + j)%nat).
      field. exact Hpos. }
    rewrite Hs. field. exact Hpos. }
  split.
  - rewrite Hvar. apply Rmult_le_pos; [apply row_m2_nonneg |].
    apply Rlt_le, Rinv_0_lt_compat, lt_0_INR. lia.
  - rewrite RowwiseMoments_thread0 by assumption.
    unfold Acc.max. fold (row_radicand N eps X i).
    rewrite row_radicand_unclamped by exact HN.
    rewrite <- Hvar. reflexivity.
Qed.

Lemma variance_clamp_inactive_witness :
  reducible_block 32 /\ (1 <= 2)%nat /\
  0 <= sumn 2 (fun j => INR j * INR j) / INR 2
       - sumn 2 (fun j => INR j) / INR 2 * (sumn 2 (fun j => INR j) / INR 2).
Proof.
  split; [exact reducible_block_32 | split; [lia |]].
  exact (proj1 (variance_clamp_inactive 32 2 1 (fun k => INR k) 0
                  reducible_block_32 (le_S 1 1 (le_n 1)))).
Defined.

(** ** The forward entry point, end to end *)

Lemma forward_launches_closed (B M N : nat) (eps : R) (X : buffer)
    (gamma beta : option buffer) (Y mean rstd : Tensor) :
  reducible_block B -> (1 <= N)%nat ->
  (forall i, (i < M)%nat -> 0 < row_radicand N eps X i) ->
  forward_launches B M N eps X gamma beta (Y, mean, rstd) =
  let mean1 := written mean (vector_writes M (row_mean N X)) in
  let rstd1 := written rstd (vector_writes M (row_rstd N eps X)) in
  Some (written Y
          (launch M kCUDANumThreads
             (LayerNormForwardCUDAKernel N X (data_ptr mean1) (data_ptr rstd1)
                gamma beta kCUDANumThreads)),
        mean1, rstd1).
Proof.
  intros HB HN Hrad. unfold forward_launches.
  rewrite RowwiseMoments_launch by assumption. reflexivity.
Qed.

Lemma AT_CUDA_CHECK_not_outside {St : Type} (err : cudaError_t) (s : St) :
  fst (AT_CUDA_CHECK err s) <> OutsideReals.
Proof. destruct err; discriminate. Qed.

(** X3.  In exact arithmetic, a forward call whose sizes pass the checks,
    with at least one row and no more rows than a grid has blocks
    ([maxGridSize], 2^31 - 1), at least one column and [eps > 0], always
    has a result: it returns (or reports the device error) after writing,
    for every row [i < M], the mean of the row to [mean[i]],
    [1/sqrt(variance + eps)] to [rstd[i]] and
    [(X[i,j] - mean[i]) * rstd[i] * scale[j] + shift[j]] to [Y[i,j]].  The
    element counts of the outputs are kept, and nothing is written beyond
    the [M] statistics and the [M * N] elements. *)
Theorem forward_entry_normalises (B : nat) (err : cudaError_t) (X : Tensor)
    (gamma beta : option Tensor) (M N : nat) (eps : R)
    (Y mean rstd : Tensor) :
  reducible_block B ->
  forward_checks X gamma beta (Z.of_nat M) (Z.of_nat N) = true ->
  (1 <= M)%nat -> (Z.of_nat M <= maxGridSize)%Z -> (1 <= N)%nat -> 0 < eps ->
  exists Y1 mean1 rstd1,
    LayerNormKernelImplInternal B err X gamma beta (Z.of_nat M) (Z.of_nat N)
      eps (Y, mean, rstd) = AT_CUDA_CHECK err (Y1, mean1, rstd1) /\
    (numel Y1 = numel Y /\ numel mean1 = numel mean /\
     numel rstd1 = numel rstd) /\
    (forall i, (i < M)%nat ->
       data_ptr mean1 i = sumn N (fun j => data_ptr X (i * N + j)%nat) / INR N /\
       data_ptr rstd1 i = / sqrt (row_m2 N (data_ptr X) i / INR N + eps) /\
       forall j, (j < N)%nat ->
         data_ptr Y1 (i * N + j)%nat =
         (data_ptr X (i * N + j)%nat - data_ptr mean1 i) * data_ptr rstd1 i *
         read_or (data_or_null gamma) 1 j + read_or (data_or_null beta) 0 j) /\
    (forall k, (M <= k)%nat ->
       data_ptr mean1 k = data_ptr mean k /\
       data_ptr rstd1 k = data_ptr rstd k) /\
    (forall k, (M * N <= k)%nat -> data_ptr Y1 k = data_ptr Y k).
Proof.
  intros HB Hc HM Hgrid HN Heps.
  assert (Hrad : forall i, (i < M)%nat -> 0 < row_radicand N eps (data_ptr X) i).
  { intros i _. pose proof (row_radicand_ge_eps N eps (data_ptr X) i). lra. }
  rewrite forward_entry_rows by assumption.
  rewrite forward_launches_closed by assumption. cbv zeta.
  eexists _, _, _. split; [reflexivity |].
  cbn [numel data_ptr written].
  split; [auto |].
  pose proof (commit_vector M (row_mean N (data_ptr X)) (data_ptr mean))
    as [Hm_in Hm_out].
  pose proof (commit_vector M (row_rstd N eps (data_ptr X)) (data_ptr rstd))
    as [Hr_in Hr_out].
  pose proof (LayerNormForward_launch M N kCUDANumThreads (data_ptr X)
                (commit (data_ptr mean)
                   (vector_writes M (row_mean N (data_ptr X))))
                (commit (data_ptr rstd)
                   (vector_writes M (row_rstd N eps (data_ptr X))))
                (data_or_null gamma) (data_or_null beta)
                kCUDANumThreads_pos) as Hp.
  destruct (commit_matrix M N _ _ (data_ptr Y) Hp) as [HY_in HY_out].
  split; [| split].
  - intros i Hi. split; [exact (Hm_in i Hi) |]. split.
    + rewrite (Hr_in i Hi). unfold row_rstd.
      now rewrite row_radicand_unclamped.
    + intros j Hj. exact (HY_in i j Hi Hj).
  - intros k Hk. split; [exact (Hm_out k Hk) | exact (Hr_out k Hk)].
  - exact HY_out.
Qed.

Lemma forward_entry_normalises_witness :
  let X := mkTensor 2 (fun k => INR k) in
  let O := mkTensor 2 (fun _ => 0) in
  reducible_block 32 /\
  forward_checks X None None (Z.of_nat 1) (Z.of_nat 2) = true /\
  (1 <= 1)%nat /\ (Z.of_nat 1 <= maxGridSize)%Z /\ (1 <= 2)%nat /\ 0 < 1 /\
  exists out,
    LayerNormKernelImplInternal 32 cudaSuccess X None None (Z.of_nat 1)
      (Z.of_nat 2) 1 (O, O, O) = (Returned, out).
Proof.
  intros X O.
  assert (Hgrid : (Z.of_nat 1 <= maxGridSize)%Z) by (unfold maxGridSize; lia).
  split; [exact reducible_block_32 |]. split; [reflexivity |].
  split; [lia |]. split; [exact Hgrid |]. split; [lia |].
  split; [exact Rlt_0_1 |].
  destruct (forward_entry_normalises 32 cudaSuccess X None None 1 2 1 O O O
              reducible_block_32 eq_refl (le_n 1) Hgrid (le_S 1 1 (le_n 1))
              Rlt_0_1)
    as (Y1 & m1 & r1 & E & _).
  exists (Y1, m1, r1). exact E.
Defined.

(** X4.  In exact arithmetic, a forward call whose sizes pass the checks,
    with at least one row, no more rows than a grid has blocks and at
    least one column, ends with a value that is not a real number exactly
    when some row has a clamped variance plus [eps] that is not positive
    (the reciprocal square root of such a number is not a real number); so
    with [eps > 0] it never does. *)
Theorem forward_outside_reals_iff (B : nat) (err : cudaError_t) (X : Tensor)
    (gamma beta : option Tensor) (M N : nat) (eps : R) (out : forward_out) :
  reducible_block B ->
  forward_checks X gamma beta (Z.of_nat M) (Z.of_nat N) = true ->
  (1 <= M)%nat -> (Z.of_nat M <= maxGridSize)%Z -> (1 <= N)%nat ->
  (fst (LayerNormKernelImplInternal B err X gamma beta (Z.of_nat M)
          (Z.of_nat N) eps out) = OutsideReals <->
   exists i, (i < M)%nat /\
             Rmax (row_m2 N (data_ptr X) i / INR N) 0 + eps <= 0) /\
  (0 < eps ->
   fst (LayerNormKernelImplInternal B err X gamma beta (Z.of_nat M)
          (Z.of_nat N) eps out) <> OutsideReals).
Proof.
  intros HB Hc HM Hgrid HN.
  assert (Hiff :
            fst (LayerNormKernelImplInternal B err X gamma beta (Z.of_nat M)
                   (Z.of_nat N) eps out) = OutsideReals <->
            exists i, (i < M)%nat /\
                      Rmax (row_m2 N (data_ptr X) i / INR N) 0 + eps <= 0).
  { rewrite forward_entry_rows by assumption.
    destruct out as [[Y mean] rstd].
    destruct (forward_launches B M N eps (data_ptr X) (data_or_null gamma)
                (data_or_null beta) (Y, mean, rstd)) as [out' |] eqn:E.
    - split.
      + intros H. now apply AT_CUDA_CHECK_not_outside in H.
      + intros H. exfalso.
        destruct (forward_launches_inv B M N eps (data_ptr X) _ _ _ _ HB
                    ltac:(lia) E) as [_ Hrad].
        destruct H as (i & Hi & Hle).
        specialize (Hrad i Hi). unfold row_radicand in Hrad. lra.
    - split; [| reflexivity]. intros _.
      destruct (radicand_all_or_some M
                  (row_radicand N eps (data_ptr X))) as [Hall | Hex].
      + rewrite forward_launches_closed in E by auto. discriminate.
      + exact Hex. }
  split; [exact Hiff |].
  intros Heps H. apply Hiff in H. destruct H as (i & Hi & Hle).
  pose proof (row_radicand_ge_eps N eps (data_ptr X) i) as Hge.
  unfold row_radicand in Hge. lra.
Qed.

Lemma forward_outside_reals_iff_witness :
  let X := mkTensor 2 (fun k => INR k) in
  let O := mkTensor 2 (fun _ => 0) in
  reducible_block 32 /\
  forward_checks X None None (Z.of_nat 1) (Z.of_nat 2) = true /\
  (1 <= 1)%nat /\ (Z.of_nat 1 <= maxGridSize)%Z /\ (1 <= 2)%nat /\ 0 < 1 /\
  fst (LayerNormKernelImplInternal 32 cudaSuccess X None None (Z.of_nat 1)
         (Z.of_nat 2) 1 (O, O, O)) <> OutsideReals.
Proof.
  intros X O.
  assert (Hgrid : (Z.of_nat 1 <= maxGridSize)%Z) by (unfold maxGridSize; lia).
  split; [exact reducible_block_32 |]. split; [reflexivity |].
  split; [lia |]. split; [exact Hgrid |]. split; [lia |].
  split; [exact Rlt_0_1 |].
  exact (proj2 (forward_outside_reals_iff 32 cudaSuccess X None None 1 2 1
                  (O, O, O) reducible_block_32 eq_refl (le_n 1) Hgrid
                  (le_S 1 1 (le_n 1))) Rlt_0_1).
Defined.

(** ** What the forward pass computes *)

Lemma sumn_const (n : nat) (c : R) : sumn n (fun _ => c) = INR n * c.
Proof.
  induction n as [| n IH]; [unfold sumn; simpl; ring |].
  rewrite sumn_S, IH, S_INR. ring.
Qed.

Lemma sumn_scal (n : nat) (c : R) (f : nat -> R) :
  sumn n (fun j => c * f j) = c * sumn n f.
Proof.
  induction n as [| n IH]; [unfold sumn; simpl; ring |].
  rewrite !sumn_S, IH. ring.
Qed.

Lemma sumn_plus (n : nat) (f g : nat -> R) :
  sumn n (fun j => f j + g j) = sumn n f + sumn n g.
Proof. rewrite !sumn_suml. apply suml_plus. Qed.

Lemma row_mean_constant (N : nat) (X : buffer) (i : nat) (v : R) :
  (1 <= N)%nat -> (forall j, (j < N)%nat -> X (i * N + j)%nat = v) ->
  row_mean N X i = v.
Proof.
  intros HN Hv. unfold row_mean.
  rewrite (sumn_ext N _ (fun _ => v)) by (intros j Hj; now apply Hv).
  rewrite sumn_const. field. apply not_0_INR. lia.
Qed.

Lemma row_m2_constant (N : nat) (X : buffer) (i : nat) (v : R) :
  (1 <= N)%nat -> (forall j, (j < N)%nat -> X (i * N + j)%nat = v) ->
  row_m2 N X i = 0.
Proof.
  intros HN Hv. unfold row_m2.
  rewrite (row_mean_constant N X i v HN Hv).
  rewrite (sumn_ext N _ (fun _ => 0)).
  - rewrite sumn_const. ring.
  - intros j Hj. unfold at_. rewrite (Hv j Hj). ring.
Qed.

Lemma radicand_positive (N : nat) (eps : R) (X : buffer) :
  0 < eps -> forall i, 0 < row_radicand N eps X i.
Proof.
  intros Heps i. pose proof (row_radicand_ge_eps N eps X i). lra.
Qed.



Lemma rstd_squared (N : nat) (eps : R) (X : buffer) (i : nat) :
  0 < row_radicand N eps X i ->
  row_rstd N eps X i * row_rstd N eps X i * row_radicand N eps X i = 1.
Proof.
  intros Hpos. unfold row_rstd.
  pose proof (sqrt_lt_R0 _ Hpos) as Hs.
  pose proof (sqrt_sqrt _ (Rlt_le _ _ Hpos)) as Hsq.
  rewrite <- Hsq at 3. field. lra.
Qed.

(** X7.  In exact arithmetic, without scale and shift, for rows of
    [N >= 1] columns and [eps > 0], every row of the output [Y] of the
    forward launches sums to zero, and the sum of its squares times
    (variance + eps) is the row's sum of squared deviations; so the
    squares sum to at most [N]. *)
Theorem forward_rows_standardised (B M N : nat) (eps : R) (X : buffer)
    (out : forward_out) (i : nat) :
  reducible_block B -> (1 <= N)%nat -> 0 < eps -> (i < M)%nat ->
  exists Y1 mean1 rstd1,
    forward_launches B M N eps X None None out = Some (Y1, mean1, rstd1) /\
    sumn N (fun j => data_ptr Y1 (i * N + j)%nat) = 0 /\
    sumn N (fun j => data_ptr Y1 (i * N + j)%nat *
                     data_ptr Y1 (i * N + j)%nat) *
      (row_m2 N X i / INR N + eps) = row_m2 N X i /\
    sumn N (fun j => data_ptr Y1 (i * N + j)%nat *
                     data_ptr Y1 (i * N + j)%nat) <= INR N.
Proof.
  intros HB HN Heps Hi. destruct out as [[Y mean] rstd].
  destruct (forward_launches_defined B M N eps X None None Y mean rstd HB HN
              (fun i' _ => radicand_positive N eps X Heps i'))
    as (Y1 & m1 & r1 & E & H).
  exists Y1, m1, r1. split; [exact E |].
  destruct (H i Hi) as (_ & _ & HY).
  assert (Hpos : INR N <> 0) by (apply not_0_INR; lia).
  assert (HNpos : 0 < INR N) by (apply lt_0_INR; lia).
  pose proof (radicand_positive N eps X Heps i) as Hrad.
  pose proof (rstd_squared N eps X i Hrad) as Hsq.
  rewrite row_radicand_unclamped in Hrad, Hsq by exact HN.
  pose proof (row_m2_nonneg N X i) as Hm2.
  set (r := row_rstd N eps X i) in *.
  set (mu := row_mean N X i) in *.
  assert (Hsum : sumn N (fun j => data_ptr Y1 (i * N + j)%nat) = 0).
  { rewrite (sumn_ext N _ (fun j => r * (at_ N X i j + - mu)))
      by (intros j Hj; rewrite (HY j Hj); unfold at_; cbn [read_or]; ring).
    rewrite sumn_scal, sumn_plus, sumn_const.
    unfold mu, row_mean. field. exact Hpos. }
  assert (Hsqs : sumn N (fun j => data_ptr Y1 (i * N + j)%nat *
                                  data_ptr Y1 (i * N + j)%nat) =
                 r * r * row_m2 N X i).
  { rewrite (sumn_ext N _
               (fun j => (r * r) * ((at_ N X i j - mu) * (at_ N X i j - mu))))
      by (intros j Hj; rewrite (HY j Hj); unfold at_; cbn [read_or]; ring).
    rewrite sumn_scal. reflexivity. }
  split; [exact Hsum |].
  assert (Hprod : r * r * row_m2 N X i * (row_m2 N X i / INR N + eps) =
                  row_m2 N X i).
  { transitivity (row_m2 N X i * (r * r * (row_m2 N X i / INR N + eps)));
      [ring |]. rewrite Hsq. ring. }
  split; [rewrite Hsqs; exact Hprod |].
  rewrite Hsqs.
  (* r^2 * M2 * rad = M2 <= N * rad, and rad > 0 *)
  apply Rmult_le_reg_r with (r := row_m2 N X i / INR N + eps); [exact Hrad |].
  rewrite Hprod.
  replace (INR N * (row_m2 N X i / INR N + eps))
    with (row_m2 N X i + INR N * eps) by (field; exact Hpos).
  pose proof (Rmult_lt_0_compat _ _ HNpos Heps). lra.
Qed.

Lemma forward_rows_standardised_witness :
  let O := mkTensor 3 (fun _ => 9) in
  reducible_block 32 /\ (1 <= 3)%nat /\ 0 < 1 /\ (0 < 1)%nat /\
  exists Y1 mean1 rstd1,
    forward_launches 32 1 3 1 (fun k => INR k) None None (O, O, O) =
      Some (Y1, mean1, rstd1) /\
    sumn 3 (fun j => data_ptr Y1 (0 * 3 + j)%nat) = 0.
Proof.
  intros O.
  split; [exact reducible_block_32 |]. split; [lia |].
  split; [exact Rlt_0_1 |]. split; [lia |].
  destruct (forward_rows_standardised 32 1 3 1 (fun k => INR k) (O, O, O) 0
              reducible_block_32 ltac:(lia) Rlt_0_1 ltac:(lia))
    as (Y1 & m1 & r1 & E & Hs & _).
  exists Y1, m1, r1. auto.
Defined.

(** X8.  In exact arithmetic, adding a constant [c i] to every element of
    row [i] of the input (rows of [N >= 1] columns, [eps > 0]) adds [c i]
    to the [mean[i]] that the forward launches store and leaves [rstd[i]]
    and the whole row of [Y] as they were. *)
Theorem forward_shift_invariant (B M N : nat) (eps : R) (X X2 : buffer)
    (c : nat -> R) (gamma beta : option buffer) (out : forward_out) :
  reducible_block B -> (1 <= N)%nat -> 0 < eps ->
  (forall i j, (i < M)%nat -> (j < N)%nat ->
     X2 (i * N + j)%nat = X (i * N + j)%nat + c i) ->
  exists Y1 mean1 rstd1 Y2 mean2 rstd2,
    forward_launches B M N eps X gamma beta out = Some (Y1, mean1, rstd1) /\
    forward_launches B M N eps X2 gamma beta out = Some (Y2, mean2, rstd2) /\
    forall i, (i < M)%nat ->
      data_ptr mean2 i = data_ptr mean1 i + c i /\
      data_ptr rstd2 i = data_ptr rstd1 i /\
      forall j, (j < N)%nat ->
        data_ptr Y2 (i * N + j)%nat = data_ptr Y1 (i * N + j)%nat.
Proof.
  intros HB HN Heps HX2. destruct out as [[Y mean] rstd].
  destruct (forward_launches_defined B M N eps X gamma beta Y mean rstd HB HN
              (fun i' _ => radicand_positive N eps X Heps i'))
    as (Y1 & m1 & r1 & E1 & H1).
  destruct (forward_launches_defined B M N eps X2 gamma beta Y mean rstd HB HN
              (fun i' _ => radicand_positive N eps X2 Heps i'))
    as (Y2 & m2 & r2 & E2 & H2).
  exists Y1, m1, r1, Y2, m2, r2. split; [exact E1 |]. split; [exact E2 |].
  intros i Hi.
  assert (Hpos : INR N <> 0) by (apply not_0_INR; lia).
  assert (Hmean : row_mean N X2 i = row_mean N X i + c i).
  { unfold row_mean.
    rewrite (sumn_ext N (at_ N X2 i) (fun j => at_ N X i j + c i))
      by (intros j Hj; unfold at_; now apply HX2).
    rewrite sumn_plus, sumn_const. field. exact Hpos. }
  assert (Hm2 : row_m2 N X2 i = row_m2 N X i).
  { unfold row_m2. rewrite Hmean. apply sumn_ext.
    intros j Hj. unfold at_. rewrite (HX2 i j Hi Hj). ring. }
  assert (Hrstd : row_rstd N eps X2 i = row_rstd N eps X i).
  { unfold row_rstd, row_radicand. now rewrite Hm2. }
  destruct (H1 i Hi) as (Hm1 & Hr1 & HY1).
  destruct (H2 i Hi) as (Hmb & Hrb & HY2).
  split; [rewrite Hmb, Hm1; exact Hmean |].
  split; [rewrite Hrb, Hr1; exact Hrstd |].
  intros j Hj. rewrite (HY2 j Hj), (HY1 j Hj), Hmean, Hrstd.
  rewrite (HX2 i j Hi Hj). ring.
Qed.

Lemma forward_shift_invariant_witness :
  let O := mkTensor 2 (fun _ => 0) in
  reducible_block 32 /\ (1 <= 2)%nat /\ 0 < 1 /\
  exists Y1 mean1 rstd1 Y2 mean2 rstd2,
    forward_launches 32 1 2 1 (fun k => INR k) None None (O, O, O) =
      Some (Y1, mean1, rstd1) /\
    forward_launches 32 1 2 1 (fun k => INR k + 5) None None (O, O, O) =
      Some (Y2, mean2, rstd2) /\
    data_ptr rstd2 0%nat = data_ptr rstd1 0%nat.
Proof.
  intros O.
  split; [exact reducible_block_32 |]. split; [lia |].
  split; [exact Rlt_0_1 |].
  destruct (forward_shift_invariant 32 1 2 1 (fun k => INR k)
              (fun k => INR k + 5) (fun _ => 5) None None (O, O, O)
              reducible_block_32 ltac:(lia) Rlt_0_1
              (fun i j _ _ => eq_refl))
    as (Y1 & m1 & r1 & Y2 & m2 & r2 & E1 & E2 & H).
  exists Y1, m1, r1, Y2, m2, r2. split; [exact E1 |]. split; [exact E2 |].
  exact (proj1 (proj2 (H 0%nat ltac:(lia)))).
Defined.

(** ** What the input-gradient chain computes *)

Lemma dX_value_chain_rule (N : nat) (dY X mean rstd : buffer)
    (gamma : option buffer) (i j : nat) :
  (1 <= N)%nat ->
  let g := fun k => dY (i * N + k)%nat * read_or gamma 1 k in
  let xhat := fun k => (X (i * N + k)%nat - mean i) * rstd i in
  dX_value N dY X mean rstd gamma i j =
  rstd i * (g j - sumn N g / INR N -
            xhat j * (sumn N (fun k => g k * xhat k) / INR N)).
Proof.
  intros HN g xhat.
  assert (Hpos : INR N <> 0) by (apply not_0_INR; lia).
  assert (Hds : row_ds N dY X gamma i =
                sumn N (fun k => g k * X (i * N + k)%nat)).
  { unfold row_ds. apply sumn_ext. intros k Hk. unfold at_, g. ring. }
  assert (Hdb : row_db N dY gamma i = sumn N g) by reflexivity.
  assert (Hgx : sumn N (fun k => g k * xhat k) =
                rstd i * (sumn N (fun k => g k * X (i * N + k)%nat) -
                          mean i * sumn N g)).
  { rewrite (sumn_ext N _
               (fun k => rstd i * (g k * X (i * N + k)%nat) +
                         (- (rstd i * mean i)) * g k))
      by (intros k Hk; unfold xhat; ring).
    rewrite sumn_plus, !sumn_scal. ring. }
  unfold dX_value. rewrite Hds, Hdb, Hgx. unfold xhat.
  generalize (sumn N g) (sumn N (fun k => g k * X (i * N + k)%nat)).
  intros s1 s2. unfold g. field. exact Hpos.
Qed.

(** X9.  In exact arithmetic, the fused coefficients implement the chain
    rule of the normalisation: for at most 2^32 rows of [N >= 1] columns,
    with [g = dY * scale] and [xhat = (X - mean) * rstd] on row [i], the
    launches that compute [dX] leave
    [dX[i,j] = rstd[i] * (g[j] - mean(g) - xhat[j] * mean(g * xhat))],
    for any content of [mean] and [rstd]. *)
Theorem input_gradient_chain_rule (B : nat) (uninit : buffer) (M N : nat)
    (dY X mean rstd : buffer) (gamma : option buffer) (dX : Tensor)
    (i j : nat) :
  reducible_block B -> (1 <= N)%nat -> (Z.of_nat M <= 2 ^ 32)%Z ->
  (i < M)%nat -> (j < N)%nat ->
  exists d1,
    backward_dX_launches B uninit M N dY X mean rstd gamma dX = Some d1 /\
    let g := fun k => dY (i * N + k)%nat * read_or gamma 1 k in
    let xhat := fun k => (X (i * N + k)%nat - mean i) * rstd i in
    data_ptr d1 (i * N + j)%nat =
    rstd i * (g j - sumn N g / INR N -
              xhat j * (sumn N (fun k => g k * xhat k) / INR N)).
Proof.
  intros HB HN HM Hi Hj.
  destruct (backward_dX_launches_values B uninit M N dY X mean rstd gamma dX
              HB HN HM) as (d1 & E & H).
  exists d1. split; [exact E |]. cbv zeta.
  rewrite (H i j Hi Hj). now apply dX_value_chain_rule.
Qed.

Lemma input_gradient_chain_rule_witness :
  reducible_block 32 /\ (1 <= 2)%nat /\ (Z.of_nat 1 <= 2 ^ 32)%Z /\
  (0 < 1)%nat /\ (1 < 2)%nat /\
  exists d1,
    backward_dX_launches 32 (fun _ => 0) 1 2 (fun k => INR k) (fun _ => 3)
      (fun _ => 3) (fun _ => 1) None (mkTensor 2 (fun _ => 0)) = Some d1.
Proof.
  split; [exact reducible_block_32 |]. split; [lia |]. split; [lia |].
  split; [lia |]. split; [lia |].
  destruct (input_gradient_chain_rule 32 (fun _ => 0) 1 2 (fun k => INR k)
              (fun _ => 3) (fun _ => 3) (fun _ => 1) None
              (mkTensor 2 (fun _ => 0)) 0 1 reducible_block_32
              ltac:(lia) ltac:(lia) ltac:(lia) ltac:(lia)) as (d1 & E & _).
  exists d1. exact E.
Defined.

(** X10.  In exact arithmetic, for at most 2^32 rows of [N >= 1] columns:
    when [mean[i]] is the mean of row [i] of [X], as the forward pass
    leaves it, the input gradient of row [i] that the launches leave sums
    to zero, for any [dY], scale and [rstd]. *)
Theorem input_gradient_row_sums_to_zero (B : nat) (uninit : buffer)
    (M N : nat) (dY X mean rstd : buffer) (gamma : option buffer)
    (dX : Tensor) (i : nat) :
  reducible_block B -> (1 <= N)%nat -> (Z.of_nat M <= 2 ^ 32)%Z ->
  (i < M)%nat ->
  mean i = sumn N (fun j => X (i * N + j)%nat) / INR N ->
  exists d1,
    backward_dX_launches B uninit M N dY X mean rstd gamma dX = Some d1 /\
    sumn N (fun j => data_ptr d1 (i * N + j)%nat) = 0.
Proof.
  intros HB HN HM Hi Hmean.
  destruct (backward_dX_launches_values B uninit M N dY X mean rstd gamma dX
              HB HN HM) as (d1 & E & H).
  exists d1. split; [exact E |].
  assert (Hpos : INR N <> 0) by (apply not_0_INR; lia).
  set (ds := row_ds N dY X gamma i).
  set (db := row_db N dY gamma i).
  set (a := (db * mean i - ds) * rstd i ^ 3 * (1 / INR N)).
  rewrite (sumn_ext N _
             (fun j => rstd i * (at_ N dY i j * read_or gamma 1 j) +
                       (a * at_ N X i j +
                        - (a * mean i + db * rstd i * (1 / INR N))))).
  2:{ intros j Hj. rewrite (H i j Hi Hj). unfold dX_value, at_.
      fold ds db. fold a. ring. }
  rewrite !sumn_plus, !sumn_scal, sumn_const.
  change (sumn N (fun j => at_ N dY i j * read_or gamma 1 j)) with db.
  assert (Hs : sumn N (at_ N X i) = INR N * mean i).
  { rewrite Hmean. change (at_ N X i) with (fun j => X (i * N + j)%nat).
    field. exact Hpos. }
  rewrite Hs. field. exact Hpos.
Qed.

Lemma input_gradient_row_sums_to_zero_witness :
  reducible_block 32 /\ (1 <= 2)%nat /\ (Z.of_nat 1 <= 2 ^ 32)%Z /\
  (0 < 1)%nat /\ 3 = sumn 2 (fun j => 3) / INR 2 /\
  exists d1,
    backward_dX_launches 32 (fun _ => 0) 1 2 (fun k => INR k) (fun _ => 3)
      (fun _ => 3) (fun _ => 1) None (mkTensor 2 (fun _ => 0)) = Some d1 /\
    sumn 2 (fun j => data_ptr d1 (0 * 2 + j)%nat) = 0.
Proof.
  assert (Hm : 3 = sumn 2 (fun j => 3) / INR 2).
  { unfold sumn. simpl. lra. }
  split; [exact reducible_block_32 |]. split; [lia |]. split; [lia |].
  split; [lia |]. split; [exact Hm |].
  exact (input_gradient_row_sums_to_zero 32 (fun _ => 0) 1 2 (fun k => INR k)
           (fun _ => 3) (fun _ => 3) (fun _ => 1) None
           (mkTensor 2 (fun _ => 0)) 0 reducible_block_32
           ltac:(lia) ltac:(lia) ltac:(lia) Hm).
Defined.

Section LinearInDY.

Variables (N : nat) (a b : R) (dY1 dY2 dY3 : buffer).
Hypothesis HdY : forall k, dY3 k = a * dY1 k + b * dY2 k.

Lemma row_ds_linear (X : buffer) (gamma : option buffer) (i : nat) :
  row_ds N dY3 X gamma i =
  a * row_ds N dY1 X gamma i + b * row_ds N dY2 X gamma i.
Proof.
  unfold row_ds. rewrite <- !sumn_scal, <- sumn_plus.
  apply sumn_ext. intros j Hj. unfold at_. rewrite HdY. ring.
Qed.

Lemma row_db_linear (gamma : option buffer) (i : nat) :
  row_db N dY3 gamma i = a * row_db N dY1 gamma i + b * row_db N dY2 gamma i.
Proof.
  unfold row_db. rewrite <- !sumn_scal, <- sumn_plus.
  apply sumn_ext. intros j Hj. unfold at_. rewrite HdY. ring.
Qed.

Lemma dX_value_linear (X mean rstd : buffer) (gamma : option buffer)
    (i j : nat) :
  dX_value N dY3 X mean rstd gamma i j =
  a * dX_value N dY1 X mean rstd gamma i j +
  b * dX_value N dY2 X mean rstd gamma i j.
Proof.
  unfold dX_value. rewrite row_ds_linear, row_db_linear, HdY. ring.
Qed.

Lemma col_dgamma_linear (M : nat) (X mean rstd : buffer) (j : nat) :
  col_dgamma M N dY3 X mean rstd j =
  a * col_dgamma M N dY1 X mean rstd j + b * col_dgamma M N dY2 X mean rstd j.
Proof.
  unfold col_dgamma. rewrite <- !sumn_scal, <- sumn_plus.
  apply sumn_ext. intros i Hi. unfold at_. rewrite HdY. ring.
Qed.

Lemma col_dbeta_linear (M : nat) (j : nat) :
  col_dbeta M N dY3 j = a * col_dbeta M N dY1 j + b * col_dbeta M N dY2 j.
Proof.
  unfold col_dbeta. rewrite <- !sumn_scal, <- sumn_plus.
  apply sumn_ext. intros i Hi. unfold at_. rewrite HdY. ring.
Qed.

End LinearInDY.

(** X11.  In exact arithmetic, the backward launches are linear in [dY]:
    when [dY3 = a * dY1 + b * dY2] elementwise, then for at most 2^32 rows
    of [1 <= N <= 2^32] columns [dX], and for requested outputs [dgamma]
    and [dbeta] at every column [j < N], the results for [dY3] are [a]
    times those for [dY1] plus [b] times those for [dY2]. *)
Theorem backward_linear_in_dY (B : nat) (uninit : buffer) (M N : nat)
    (a b : R) (dY1 dY2 dY3 X mean rstd : buffer) (gamma : option buffer)
    (dX : Tensor) (dg db dgamma dbeta : buffer) :
  reducible_block B -> (1 <= N)%nat ->
  (Z.of_nat M <= 2 ^ 32)%Z -> (Z.of_nat N <= 2 ^ 32)%Z ->
  (forall k, dY3 k = a * dY1 k + b * dY2 k) ->
  let run_dX dY := backward_dX_launches B uninit M N dY X mean rstd gamma dX in
  let run_gb dY :=
    backward_gamma_beta_launch uninit (Z.of_nat M) (Z.of_nat N) dY X mean rstd
      (Some dg) (Some db) in
  (exists d1 d2 d3,
     run_dX dY1 = Some d1 /\ run_dX dY2 = Some d2 /\ run_dX dY3 = Some d3 /\
     forall i j, (i < M)%nat -> (j < N)%nat ->
       data_ptr d3 (i * N + j)%nat =
       a * data_ptr d1 (i * N + j)%nat + b * data_ptr d2 (i * N + j)%nat) /\
  (forall j, (j < N)%nat ->
     commit dgamma (fst (run_gb dY3)) j =
       a * commit dgamma (fst (run_gb dY1)) j +
       b * commit dgamma (fst (run_gb dY2)) j /\
     commit dbeta (snd (run_gb dY3)) j =
       a * commit dbeta (snd (run_gb dY1)) j +
       b * commit dbeta (snd (run_gb dY2)) j).
Proof.
  intros HB HN HM32 HN32 HdY run_dX run_gb. split.
  - destruct (backward_dX_launches_values B uninit M N dY1 X mean rstd gamma
                dX HB HN HM32) as (d1 & E1 & H1).
    destruct (backward_dX_launches_values B uninit M N dY2 X mean rstd gamma
                dX HB HN HM32) as (d2 & E2 & H2).
    destruct (backward_dX_launches_values B uninit M N dY3 X mean rstd gamma
                dX HB HN HM32) as (d3 & E3 & H3).
    exists d1, d2, d3. repeat split; try assumption.
    intros i j Hi Hj. rewrite H1, H2, H3 by assumption.
    now apply dX_value_linear.
  - intros j Hj. unfold run_gb.
    assert (HNZ : (0 <= Z.of_nat N <= 2 ^ 32)%Z) by lia.
    pose proof (fun dY b k =>
                  backward_gamma_beta_launch_effect uninit
                    (Z.of_nat M) (Z.of_nat N) dY X mean rstd (Some dg)
                    (Some db) b k HNZ)
      as Heff. cbv zeta in Heff.
    rewrite !(proj1 (Heff _ dgamma j)), !(proj2 (Heff _ dbeta j)).
    rewrite !Nat2Z.id. unfold reduced_into.
    rewrite (proj2 (Nat.ltb_lt _ _) Hj). split.
    + now apply col_dgamma_linear.
    + now apply col_dbeta_linear.
Qed.

Lemma backward_linear_in_dY_witness :
  let dY1 := fun k => INR k in
  let dY2 := fun _ : nat => 1 in
  let dY3 := fun k => 2 * INR k + 3 * 1 in
  let run_gb dY :=
    backward_gamma_beta_launch (fun _ => 0) (Z.of_nat 2) (Z.of_nat 2) dY
      (fun k => INR k) (fun _ => 0) (fun _ => 1)
      (Some (fun _ => 0)) (Some (fun _ => 0)) in
  reducible_block 32 /\ (1 <= 2)%nat /\
  (Z.of_nat 2 <= 2 ^ 32)%Z /\ (Z.of_nat 2 <= 2 ^ 32)%Z /\
  (forall k : nat, dY3 k = 2 * dY1 k + 3 * dY2 k) /\
  forall j, (j < 2)%nat ->
    commit (fun _ => 5) (fst (run_gb dY3)) j =
      2 * commit (fun _ => 5) (fst (run_gb dY1)) j +
      3 * commit (fun _ => 5) (fst (run_gb dY2)) j /\
    commit (fun _ => 5) (snd (run_gb dY3)) j =
      2 * commit (fun _ => 5) (snd (run_gb dY1)) j +
      3 * commit (fun _ => 5) (snd (run_gb dY2)) j.
Proof.
  intros dY1 dY2 dY3 run_gb.
  assert (H0 : forall k : nat, dY3 k = 2 * dY1 k + 3 * dY2 k)
    by (intros; reflexivity).
  assert (H32 : (Z.of_nat 2 <= 2 ^ 32)%Z) by lia.
  split; [exact reducible_block_32 |]. split; [lia |].
  split; [exact H32 |]. split; [exact H32 |]. split; [exact H0 |].
  exact (proj2 (backward_linear_in_dY 32 (fun _ => 0) 2 2 2 3
                  dY1 dY2 dY3 (fun k => INR k) (fun _ => 0) (fun _ => 1) None
                  (mkTensor 4 (fun _ => 0)) (fun _ => 0) (fun _ => 0)
                  (fun _ => 5) (fun _ => 5) reducible_block_32
                  ltac:(lia) H32 H32 H0)).
Defined.

(** ** No two threads store to the same element *)

Lemma flat_map_nil {A B : Type} (l : list A) :
  flat_map (fun _ => @nil B) l = [].
Proof. induction l; simpl; auto. Qed.

Lemma launch_nothing (grid block : nat) (kernel : nat -> nat -> list write) :
  (forall b t, kernel b t = []) -> launch grid block kernel = [].
Proof.
  intros H. unfold launch.
  rewrite flat_map_ext_in with (g := fun _ => []); [apply flat_map_nil |].
  intros [b t] _. apply H.
Qed.

(** The guarded store of the parameter-gradient kernels for column [j]. *)
Lemma guarded_store_if (p : option buffer) (N : nat) (v : nat -> R) (n : nat) :
  (N <= n)%nat ->
  flat_map (fun j => if Nat.ltb j N then store_if p j (v j) else [])
           (seq 0 n) =
  match p with
  | Some _ => vector_writes N v
  | None => []
  end.
Proof.
  intros H. destruct p as [q |].
  - exact (flat_map_guarded (fun j => (j, v j)) N n H).
  - rewrite flat_map_ext_in with (g := fun _ => []); [apply flat_map_nil |].
    intros j _. now destruct (Nat.ltb j N).
Qed.

Lemma simple_launch_writes (M N grid : nat) (dY X mean rstd : buffer)
    (dg db : option buffer) :
  (N <= grid * kCUDANumThreads)%nat ->
  (Z.of_nat (grid * kCUDANumThreads) <= 2 ^ 32)%Z ->
  launch2 grid kCUDANumThreads
    (GammaBetaBackwardSimpleCUDAKernel M N dY X mean rstd dg db
       kCUDANumThreads) =
  (match dg with
   | Some _ =>
       vector_writes N
         (fun j => sumn M (fun i => dg_term dY X mean rstd dg i (i * N + j)))
   | None => []
   end,
   match db with
   | Some _ =>
       vector_writes N (fun j => sumn M (fun i => db_term dY db (i * N + j)))
   | None => []
   end).
Proof.
  intros Hcover Hfits. rewrite launch2_blocks. f_equal.
  - rewrite launch_blocks.
    rewrite flat_map_ext_in with
      (g := fun b => flat_map
              (fun t =>
                 (fun j => if Nat.ltb j N
                           then store_if dg j
                                  (sumn M (fun i =>
                                     dg_term dY X mean rstd dg i (i * N + j)))
                           else [])
                   (b * kCUDANumThreads + t)%nat)
              (seq 0 kCUDANumThreads)).
    + rewrite (flat_map_linear
                 (fun j => if Nat.ltb j N
                           then store_if dg j
                                  (sumn M (fun i =>
                                     dg_term dY X mean rstd dg i (i * N + j)))
                           else [])).
      now apply guarded_store_if.
    + intros b Hb. apply flat_map_ext_in. intros t Ht.
      apply in_seq in Hb, Ht.
      rewrite GammaBetaBackwardSimple_thread. cbv zeta.
      rewrite (thread_index_small grid kCUDANumThreads b t Hfits) by lia.
      now destruct (Nat.ltb (b * kCUDANumThreads + t) N).
  - rewrite launch_blocks.
    rewrite flat_map_ext_in with
      (g := fun b => flat_map
              (fun t =>
                 (fun j => if Nat.ltb j N
                           then store_if db j
                                  (sumn M (fun i => db_term dY db (i * N + j)))
                           else [])
                   (b * kCUDANumThreads + t)%nat)
              (seq 0 kCUDANumThreads)).
    + rewrite (flat_map_linear
                 (fun j => if Nat.ltb j N
                           then store_if db j
                                  (sumn M (fun i => db_term dY db (i * N + j)))
                           else [])).
      now apply guarded_store_if.
    + intros b Hb. apply flat_map_ext_in. intros t Ht.
      apply in_seq in Hb, Ht.
      rewrite GammaBetaBackwardSimple_thread. cbv zeta.
      rewrite (thread_index_small grid kCUDANumThreads b t Hfits) by lia.
      now destruct (Nat.ltb (b * kCUDANumThreads + t) N).
Qed.

(** The stores of a 32 by 16 block in which lane 0 of lane group [y]
    stores [G] of the columns [y] and [y + 16] of its tile. *)
Lemma tiled_block_writes (G : nat -> list write) (b : nat)
    (K : nat -> nat -> list write) :
  (forall x y, (x < 32)%nat -> (y < 16)%nat ->
     K x y = if Nat.eqb x 0
             then G (b * 32 + y)%nat ++ G (b * 32 + (y + 16))%nat
             else []) ->
  Permutation
    (flat_map (fun t => K (t mod 32)%nat (t / 32)%nat) (seq 0 (32 * 16)))
    (flat_map (fun c => G (b * 32 + c)%nat) (seq 0 32)).
Proof.
  intros HK.
  change (32 * 16)%nat with (16 * 32)%nat.
  rewrite <- (flat_map_linear (fun t => K (t mod 32)%nat (t / 32)%nat) 16 32).
  rewrite flat_map_ext_in with
    (g := fun y => G (b * 32 + y)%nat ++ G (b * 32 + (y + 16))%nat).
  - rewrite flat_map_app_perm.
    change (seq 0 32) with (seq 0 (16 + 16)).
    rewrite seq_app, flat_map_app. apply Permutation_app_head.
    cbn [Nat.add]. rewrite <- (seq_shift_add 16 16), flat_map_of_map.
    match goal with
    | |- Permutation ?a ?c => replace c with a; [reflexivity |]
    end.
    apply flat_map_ext_in. intros y _. f_equal. lia.
  - intros y Hy. apply in_seq in Hy.
    change (seq 0 32) with (0%nat :: seq 1 31). cbn [flat_map].
    rewrite flat_map_ext_in with (g := fun _ => []).
    + rewrite flat_map_nil, app_nil_r, Nat.add_0_r.
      rewrite Nat.Div0.mod_mul, Nat.div_mul by discriminate.
      rewrite HK by lia. reflexivity.
    + intros x Hx. apply in_seq in Hx.
      replace ((y * 32 + x) mod 32)%nat with x
        by (apply Nat.mod_unique with (q := y); lia).
      replace ((y * 32 + x) / 32)%nat with y
        by (apply Nat.div_unique with (r := x); lia).
      rewrite HK by lia.
      destruct x; [lia | reflexivity].
Qed.

Lemma tiled_launch_writes (M N grid : nat) (dY X mean rstd : buffer)
    (dg db : option buffer) (smem : buffer) :
  (N <= grid * 32)%nat -> (Z.of_nat (grid * 32) <= 2 ^ 32)%Z ->
  let ws :=
    launch2_xy grid 32 16
      (GammaBetaBackwardCUDAKernel M N dY X mean rstd dg db smem 32 16) in
  Permutation (fst ws)
    (match dg with
     | Some _ =>
         vector_writes N
           (fun j => sumn M (fun i => dg_term dY X mean rstd dg i (i * N + j)))
     | None => []
     end) /\
  Permutation (snd ws)
    (match db with
     | Some _ =>
         vector_writes N (fun j => sumn M (fun i => db_term dY db (i * N + j)))
     | None => []
     end).
Proof.
  intros Hcover Hfits ws. unfold ws, launch2_xy. rewrite launch2_blocks.
  cbn [fst snd]. rewrite !launch_blocks. split.
  - rewrite <- (guarded_store_if dg N _ (grid * 32) Hcover).
    rewrite <- (flat_map_linear
                  (fun j => if Nat.ltb j N
                            then store_if dg j
                                   (sumn M (fun i =>
                                      dg_term dY X mean rstd dg i (i * N + j)))
                            else []) grid 32).
    apply flat_map_pointwise_perm. intros b Hb. apply in_seq in Hb.
    apply (tiled_block_writes
             (fun j => if Nat.ltb j N
                       then store_if dg j
                              (sumn M (fun i =>
                                 dg_term dY X mean rstd dg i (i * N + j)))
                       else []) b
             (fun x y =>
                fst (GammaBetaBackwardCUDAKernel M N dY X mean rstd dg db smem
                       32 16 b x y))).
    intros x y Hx Hy. rewrite GammaBetaBackward_thread by exact Hy.
    cbv zeta.
    rewrite (uint32_small (b * 32 + y)), (uint32_small (b * 32 + (y + 16)))
      by lia.
    now destruct (Nat.eqb x 0).
  - rewrite <- (guarded_store_if db N _ (grid * 32) Hcover).
    rewrite <- (flat_map_linear
                  (fun j => if Nat.ltb j N
                            then store_if db j
                                   (sumn M (fun i =>
                                      db_term dY db (i * N + j)))
                            else []) grid 32).
    apply flat_map_pointwise_perm. intros b Hb. apply in_seq in Hb.
    apply (tiled_block_writes
             (fun j => if Nat.ltb j N
                       then store_if db j
                              (sumn M (fun i => db_term dY db (i * N + j)))
                       else []) b
             (fun x y =>
                snd (GammaBetaBackwardCUDAKernel M N dY X mean rstd dg db smem
                       32 16 b x y))).
    intros x y Hx Hy. rewrite GammaBetaBackward_thread by exact Hy.
    cbv zeta.
    rewrite (uint32_small (b * 32 + y)), (uint32_small (b * 32 + (y + 16)))
      by lia.
    now destruct (Nat.eqb x 0).
Qed.

Lemma writes_to_optional_vector (p : option buffer) (N : nat) (v : nat -> R)
    (k : nat) :
  writes_to k (match p with Some _ => vector_writes N v | None => [] end) =
  match p with
  | Some _ => if Nat.ltb k N then 1%nat else 0%nat
  | None => 0%nat
  end.
Proof. destruct p; [apply writes_to_vector | reflexivity]. Qed.

(** X12.  In the parameter-gradient launch of the entry point over at
    most 2^32 columns, on the simple path and on the tiled path alike,
    every element [j < N] of a requested output is stored by exactly one
    thread, no other index is stored, and an output that is not requested
    is not stored at all. *)
Theorem parameter_gradient_stores_once (uninit : buffer) (M N : nat)
    (dY X mean rstd : buffer) (dg db : option buffer) (k : nat) :
  (Z.of_nat N <= 2 ^ 32)%Z ->
  let ws :=
    backward_gamma_beta_launch uninit (Z.of_nat M) (Z.of_nat N)
      dY X mean rstd dg db in
  writes_to k (fst ws) =
    match dg with
    | Some _ => if Nat.ltb k N then 1%nat else 0%nat
    | None => 0%nat
    end /\
  writes_to k (snd ws) =
    match db with
    | Some _ => if Nat.ltb k N then 1%nat else 0%nat
    | None => 0%nat
    end.
Proof.
  intros HN ws. unfold ws. rewrite backward_gamma_beta_launch_select.
  assert (HNZ : (0 <= Z.of_nat N <= 2 ^ 32)%Z) by lia.
  destruct (Z.ltb (Z.of_nat M) 512).
  - destruct (column_grid (Z.of_nat N) kCUDANumThreads HNZ
                (or_introl eq_refl)) as (-> & Hcover & Hfits).
    rewrite !Nat2Z.id in *.
    rewrite simple_launch_writes by assumption.
    cbn [fst snd]. now rewrite !writes_to_optional_vector.
  - destruct (column_grid (Z.of_nat N) kColwiseReduceTileSize HNZ
                (or_intror eq_refl)) as (-> & Hcover & Hfits).
    rewrite !Nat2Z.id in *.
    destruct (tiled_launch_writes M N _ dY X mean rstd dg db uninit Hcover
                Hfits) as [Hg Hb].
    rewrite (writes_to_perm _ _ _ Hg), (writes_to_perm _ _ _ Hb).
    now rewrite !writes_to_optional_vector.
Qed.

Lemma parameter_gradient_stores_once_witness :
  (Z.of_nat 2 <= 2 ^ 32)%Z /\
  let ws :=
    backward_gamma_beta_launch (fun _ => 0) (Z.of_nat 600) (Z.of_nat 2)
      (fun k => INR k) (fun _ => 1) (fun _ => 0) (fun _ => 1)
      (Some (fun _ => 0)) None in
  writes_to 1 (fst ws) = 1%nat /\ writes_to 1 (snd ws) = 0%nat.
Proof.
  assert (H32 : (Z.of_nat 2 <= 2 ^ 32)%Z) by lia.
  split; [exact H32 |].
  exact (parameter_gradient_stores_once (fun _ => 0) 600 2
           (fun k => INR k) (fun _ => 1) (fun _ => 0) (fun _ => 1)
           (Some (fun _ => 0)) None 1 H32).
Defined.

(** ** The shared tiles of the tiled parameter-gradient kernel *)

Lemma shared_writes_cells (M N : nat) (dY X mean rstd : buffer)
    (dg db : option buffer) (bx by_ b tx ty : nat) :
  map fst (fst (gamma_beta_shared_writes M N dY X mean rstd dg db bx by_
                  b tx ty)) =
    [tile_index ty tx; tile_index (ty + by_) tx] /\
  map fst (snd (gamma_beta_shared_writes M N dY X mean rstd dg db bx by_
                  b tx ty)) =
    [tile_index ty tx; tile_index (ty + by_) tx].
Proof.
  unfold gamma_beta_shared_writes.
  destruct (gamma_beta_lane M N dY X mean rstd dg db bx by_ b tx ty)
    as [[[a1 a2] a3] a4].
  split; reflexivity.
Qed.

Lemma thread_of_block (tx ty : nat) :
  (tx < 32)%nat ->
  ((ty * 32 + tx) mod 32 = tx /\ (ty * 32 + tx) / 32 = ty)%nat.
Proof.
  intros Hx. split.
  - symmetry. apply Nat.mod_unique with (q := ty); lia.
  - symmetry. apply Nat.div_unique with (r := tx); lia.
Qed.

(** X13.  In a 32 by 16 block of the tiled kernel, thread [(tx, ty)]
    stores only inside the declared [32][33] tiles, no other thread
    stores to a cell it stores to, every cell it reads after the
    barrier was stored before the barrier by a thread of the block, and
    its global stores do not depend on the initial content of shared
    memory. *)
Theorem shared_tiles_sound (M N : nat) (dY X mean rstd : buffer)
    (dg db : option buffer) (b tx ty : nat) :
  (tx < 32)%nat -> (ty < 16)%nat ->
  let cells x y :=
    map fst (fst (gamma_beta_shared_writes M N dY X mean rstd dg db 32 16
                    b x y)) in
  (forall k x y,
     In k (map fst (fst (gamma_beta_shared_writes M N dY X mean rstd dg db
                           32 16 b tx ty)) ++
           map fst (snd (gamma_beta_shared_writes M N dY X mean rstd dg db
                           32 16 b tx ty))) ->
     (k < kColwiseReduceTileSize * (kColwiseReduceTileSize + 1))%nat /\
     ((x < 32)%nat -> (y < 16)%nat -> In k (cells x y) ->
      x = tx /\ y = ty)) /\
  (forall shift, shift = 0%nat \/ shift = 16%nat ->
     exists x y, (x < 32)%nat /\ (y < 16)%nat /\
       In (tile_index ((ty * 32 + tx) mod 32) ((ty * 32 + tx) / 32 + shift))
          (cells x y)) /\
  (forall smem smem',
     GammaBetaBackwardCUDAKernel M N dY X mean rstd dg db smem 32 16 b tx ty =
     GammaBetaBackwardCUDAKernel M N dY X mean rstd dg db smem' 32 16 b tx ty).
Proof.
  intros Hx Hy cells.
  assert (Hcells : forall x y,
             cells x y = [tile_index y x; tile_index (y + 16) x]).
  { intros x y. unfold cells.
    exact (proj1 (shared_writes_cells M N dY X mean rstd dg db 32 16 b x y)). }
  split; [| split].
  - intros k x y.
    destruct (shared_writes_cells M N dY X mean rstd dg db 32 16 b tx ty)
      as [-> ->].
    intros Hk.
    assert (Hk' : k = tile_index ty tx \/ k = tile_index (ty + 16) tx).
    { apply in_app_or in Hk. cbn [In] in Hk. intuition. }
    split.
    + unfold tile_index, kColwiseReduceTileSize in *. nia.
    + intros Hx' Hy' Hin. rewrite Hcells in Hin. cbn [In] in Hin.
      unfold tile_index, kColwiseReduceTileSize in *. lia.
  - intros shift Hshift.
    destruct (thread_of_block tx ty Hx) as [-> ->].
    destruct (Nat.lt_ge_cases tx 16) as [Hlo | Hhi].
    + exists (ty + shift)%nat, tx. rewrite Hcells.
      split; [lia | split; [lia |]]. left. reflexivity.
    + exists (ty + shift)%nat, (tx - 16)%nat. rewrite Hcells.
      split; [lia | split; [lia |]]. right. left.
      unfold tile_index. f_equal. f_equal. lia.
  - intros smem smem'.
    now rewrite !GammaBetaBackward_thread by exact Hy.
Qed.

Lemma shared_tiles_sound_witness :
  (0 < 32)%nat /\ (3 < 16)%nat /\
  GammaBetaBackwardCUDAKernel 2 2 (fun _ => 1) (fun _ => 2) (fun _ => 0)
    (fun _ => 1) (Some (fun _ => 0)) None (fun _ => 0) 32 16 0 0 3 =
  GammaBetaBackwardCUDAKernel 2 2 (fun _ => 1) (fun _ => 2) (fun _ => 0)
    (fun _ => 1) (Some (fun _ => 0)) None (fun _ => 7) 32 16 0 0 3.
Proof.
  split; [lia | split; [lia |]].
  apply (shared_tiles_sound 2 2 (fun _ => 1) (fun _ => 2) (fun _ => 0)
           (fun _ => 1) (Some (fun _ => 0)) None 0 0 3); lia.
Defined.

(** ** The per-row buffers and the input gradient are stored once *)

(** X14.  With rows of [N >= 1] columns and [eps > 0], every launch that
    fills a per-row buffer or the input gradient is defined and stores
    each element of its target exactly once and nothing else: the moment
    pass and the stats pass store element [i < M] of their two buffers
    from one thread each, the coefficient pass, whose grid is rounded up
    to whole blocks of 256 threads and whose row index is computed in 32
    bits, stores [c1[i]] and [c2[i]] for [i < M] only when there are at
    most 2^32 rows, and the last launch stores [dX[k]] once for
    [k < M * N]. *)
Theorem row_buffers_stored_once (B M N : nat) (eps : R)
    (dY X mean rstd ds db a b c : buffer) (gamma : option buffer) (k : nat) :
  reducible_block B -> (1 <= N)%nat -> 0 < eps ->
  let once (n : nat) := if Nat.ltb k n then 1%nat else 0%nat in
  let grid :=
    Z.to_nat (Z.quot (Z.of_nat M + Z.of_nat kCUDANumThreads - 1)
                     (Z.of_nat kCUDANumThreads)) in
  (exists mean_ws rstd_ws,
     launch2_partial M B (RowwiseMomentsCUDAKernel N eps X B) =
       Some (mean_ws, rstd_ws) /\
     writes_to k mean_ws = once M /\ writes_to k rstd_ws = once M) /\
  (let ws := launch2 M B (ComputeInternalGradientsCUDAKernel N dY X gamma B) in
   writes_to k (fst ws) = once M /\ writes_to k (snd ws) = once M) /\
  ((Z.of_nat M <= 2 ^ 32)%Z ->
   exists c1_ws c2_ws,
     launch2_partial grid kCUDANumThreads
       (ComputeGradientFusedParamsCUDAKernel M N mean rstd ds db
          kCUDANumThreads) = Some (c1_ws, c2_ws) /\
     writes_to k c1_ws = once M /\ writes_to k c2_ws = once M) /\
  writes_to k
    (launch M kCUDANumThreads
       (LayerNormBackwardCUDAKenrel N dY X gamma a b c kCUDANumThreads)) =
    once (M * N)%nat.
Proof.
  intros HB HN Heps once grid. unfold once.
  split; [| split; [| split]].
  - eexists _, _. split.
    + apply RowwiseMoments_launch; auto.
      intros i _. now apply radicand_positive.
    + split; apply writes_to_vector.
  - cbv zeta. rewrite ComputeInternalGradients_launch by exact HB.
    split; apply writes_to_vector.
  - intros HM. eexists _, _. split.
    + apply ComputeGradientFusedParams_launch;
        [exact HN | apply fused_grid_covers | now apply fused_grid_fits].
    + split; apply writes_to_vector.
  - rewrite (writes_to_perm _ _ _
               (LayerNormBackward_launch M N kCUDANumThreads dY X gamma a b c
                  kCUDANumThreads_pos)).
    apply writes_to_matrix.
Qed.

Lemma row_buffers_stored_once_witness :
  reducible_block 32 /\ (1 <= 2)%nat /\ 0 < 1 /\
  (exists c1_ws c2_ws,
     launch2_partial
       (Z.to_nat (Z.quot (Z.of_nat 2 + Z.of_nat kCUDANumThreads - 1)
                         (Z.of_nat kCUDANumThreads)))
       kCUDANumThreads
       (ComputeGradientFusedParamsCUDAKernel 2 2 (fun _ => 0) (fun _ => 1)
          (fun _ => 0) (fun _ => 0) kCUDANumThreads) = Some (c1_ws, c2_ws) /\
     writes_to 3 c1_ws = 0%nat /\ writes_to 3 c2_ws = 0%nat) /\
  writes_to 3
    (launch 2 kCUDANumThreads
       (LayerNormBackwardCUDAKenrel 2 (fun _ => 1) (fun _ => 2) None
          (fun _ => 1) (fun _ => 0) (fun _ => 0) kCUDANumThreads)) =
    1%nat.
Proof.
  split; [exact reducible_block_32 | split; [lia | split; [lra |]]].
  destruct (row_buffers_stored_once 32 2 2 1 (fun _ => 1) (fun _ => 2)
              (fun _ => 0) (fun _ => 1) (fun _ => 0) (fun _ => 0)
              (fun _ => 1) (fun _ => 0) (fun _ => 0) None 3
              reducible_block_32 ltac:(lia) ltac:(lra))
    as (_ & _ & Hc & Hd).
  split; [apply Hc; lia | exact Hd].
Defined.

(** ** The kernels read inside the bounds of their inputs *)

Lemma read_or_agree (n : nat) (p q : option buffer) (dflt : R) (j : nat) :
  agree_below_opt n p q -> (j < n)%nat -> read_or p dflt j = read_or q dflt j.
Proof.
  destruct p as [a |], q as [b |]; cbn; intros H Hj;
    try contradiction; auto.
Qed.

Lemma vector_writes_ext (M : nat) (f g : nat -> R) :
  (forall i, (i < M)%nat -> f i = g i) -> vector_writes M f = vector_writes M g.
Proof.
  intros H. unfold vector_writes. apply map_ext_in.
  intros i Hi. apply in_seq in Hi. rewrite H by lia. reflexivity.
Qed.

Section InBounds.

Variables (M N : nat) (X X' : buffer) (gamma gamma' : option buffer).
Hypothesis HX : agree_below (M * N) X X'.
Hypothesis Hgamma : agree_below_opt N gamma gamma'.

Lemma agree_at (i j : nat) :
  (i < M)%nat -> (j < N)%nat -> X (i * N + j)%nat = X' (i * N + j)%nat.
Proof. intros Hi Hj. apply HX. now apply matrix_index_bound. Qed.

Lemma RowwiseMoments_agree (eps : R) (B i t : nat) :
  (i < M)%nat ->
  RowwiseMomentsCUDAKernel N eps X B i t =
  RowwiseMomentsCUDAKernel N eps X' B i t.
Proof.
  intros Hi. unfold RowwiseMomentsCUDAKernel.
  rewrite (mapM_ext_in (moments_lane N X B i) (moments_lane N X' B i));
    [reflexivity |].
  intros l _. unfold moments_lane. apply for_stride_ext.
  intros j st Hj. cbv zeta. now rewrite agree_at.
Qed.

Lemma LayerNormForward_agree (mean rstd : buffer)
    (beta beta' : option buffer) (B i t : nat) :
  agree_below_opt N beta beta' -> (i < M)%nat ->
  LayerNormForwardCUDAKernel N X mean rstd gamma beta B i t =
  LayerNormForwardCUDAKernel N X' mean rstd gamma' beta' B i t.
Proof.
  intros Hbeta Hi. unfold LayerNormForwardCUDAKernel. apply for_stride_ext.
  intros j Y Hj. cbv zeta.
  rewrite agree_at, (read_or_agree N gamma gamma' 1 j Hgamma Hj),
    (read_or_agree N beta beta' 0 j Hbeta Hj) by assumption.
  reflexivity.
Qed.

End InBounds.

(** X15.  The two forward launches read [X] only at the indices below
    [M * N] and [gamma] and [beta] only at the indices below [N]: inputs
    that agree there, with the same pointers null, give the same result,
    defined or not, whatever lies beyond. *)
Theorem forward_reads_in_bounds (B M N : nat) (eps : R) (X X' : buffer)
    (gamma gamma' beta beta' : option buffer) (out : forward_out) :
  agree_below (M * N) X X' ->
  agree_below_opt N gamma gamma' -> agree_below_opt N beta beta' ->
  forward_launches B M N eps X gamma beta out =
  forward_launches B M N eps X' gamma' beta' out.
Proof.
  intros HX Hg Hb. unfold forward_launches.
  destruct out as [[Y mean] rstd].
  rewrite (launch2_partial_ext M B (RowwiseMomentsCUDAKernel N eps X B)
             (RowwiseMomentsCUDAKernel N eps X' B)).
  - destruct (launch2_partial M B (RowwiseMomentsCUDAKernel N eps X' B))
      as [[mean_ws rstd_ws] |]; [| reflexivity].
    cbn [Acc.bind]. do 3 f_equal. f_equal.
    apply launch_ext. intros i t Hi _.
    now apply (LayerNormForward_agree M).
  - intros i t Hi _. now apply (RowwiseMoments_agree M).
Qed.

Lemma forward_reads_in_bounds_witness :
  forward_launches 32 1 2 1 (fun k => if Nat.ltb k 2 then 3 else 0) None None
    (mkTensor 2 (fun _ => 0), mkTensor 1 (fun _ => 0), mkTensor 1 (fun _ => 0)) =
  forward_launches 32 1 2 1 (fun _ => 3) None None
    (mkTensor 2 (fun _ => 0), mkTensor 1 (fun _ => 0), mkTensor 1 (fun _ => 0)).
Proof.
  apply forward_reads_in_bounds.
  - intros k Hk. apply Nat.ltb_lt in Hk. cbn [Nat.mul Nat.add] in Hk.
    now rewrite Hk.
  - exact I.
  - exact I.
Defined.

Section BackwardInBounds.

Variables (M N : nat) (dY dY' X X' mean mean' rstd rstd' : buffer).
Variables (gamma gamma' : option buffer).
Hypothesis HdY : agree_below (M * N) dY dY'.
Hypothesis HX : agree_below (M * N) X X'.
Hypothesis Hmean : agree_below M mean mean'.
Hypothesis Hrstd : agree_below M rstd rstd'.
Hypothesis Hgamma : agree_below_opt N gamma gamma'.

Lemma row_ds_agree (i : nat) :
  (i < M)%nat -> row_ds N dY X gamma i = row_ds N dY' X' gamma' i.
Proof.
  intros Hi. unfold row_ds, at_. apply sumn_ext. intros j Hj.
  rewrite (agree_at M N dY dY' HdY i j Hi Hj),
    (agree_at M N X X' HX i j Hi Hj),
    (read_or_agree N gamma gamma' 1 j Hgamma Hj).
  reflexivity.
Qed.

Lemma row_db_agree (i : nat) :
  (i < M)%nat -> row_db N dY gamma i = row_db N dY' gamma' i.
Proof.
  intros Hi. unfold row_db, at_. apply sumn_ext. intros j Hj.
  rewrite (agree_at M N dY dY' HdY i j Hi Hj),
    (read_or_agree N gamma gamma' 1 j Hgamma Hj).
  reflexivity.
Qed.

Lemma LayerNormBackward_agree (b c : buffer) (B i t : nat) :
  (i < M)%nat ->
  LayerNormBackwardCUDAKenrel N dY X gamma rstd b c B i t =
  LayerNormBackwardCUDAKenrel N dY' X' gamma' rstd' b c B i t.
Proof.
  intros Hi. unfold LayerNormBackwardCUDAKenrel. apply for_stride_ext.
  intros j dX Hj. cbv zeta.
  rewrite (agree_at M N dY dY' HdY i j Hi Hj),
    (agree_at M N X X' HX i j Hi Hj),
    (read_or_agree N gamma gamma' 1 j Hgamma Hj), (Hrstd i Hi).
  reflexivity.
Qed.

Lemma dg_term_sum_agree (dg : option buffer) (j : nat) :
  (j < N)%nat ->
  sumn M (fun i => dg_term dY X mean rstd dg i (i * N + j)) =
  sumn M (fun i => dg_term dY' X' mean' rstd' dg i (i * N + j)).
Proof.
  intros Hj. apply sumn_ext. intros i Hi. unfold dg_term.
  destruct dg; [| reflexivity].
  rewrite (agree_at M N dY dY' HdY i j Hi Hj),
    (agree_at M N X X' HX i j Hi Hj), (Hmean i Hi), (Hrstd i Hi).
  reflexivity.
Qed.

Lemma db_term_sum_agree (db : option buffer) (j : nat) :
  (j < N)%nat ->
  sumn M (fun i => db_term dY db (i * N + j)) =
  sumn M (fun i => db_term dY' db (i * N + j)).
Proof.
  intros Hj. apply sumn_ext. intros i Hi. unfold db_term.
  destruct db; [| reflexivity].
  now rewrite (agree_at M N dY dY' HdY i j Hi Hj).
Qed.

Lemma GammaBetaBackwardSimple_agree (dg db : option buffer) (B b t : nat) :
  GammaBetaBackwardSimpleCUDAKernel M N dY X mean rstd dg db B b t =
  GammaBetaBackwardSimpleCUDAKernel M N dY' X' mean' rstd' dg db B b t.
Proof.
  rewrite !GammaBetaBackwardSimple_thread. cbv zeta.
  destruct (Nat.ltb (uint32 (b * B + t)) N) eqn:Hj; [| reflexivity].
  apply Nat.ltb_lt in Hj.
  now rewrite (dg_term_sum_agree dg _ Hj), (db_term_sum_agree db _ Hj).
Qed.

Lemma GammaBetaBackward_agree (dg db : option buffer) (smem : buffer)
    (b tx ty : nat) :
  (ty < 16)%nat ->
  GammaBetaBackwardCUDAKernel M N dY X mean rstd dg db smem 32 16 b tx ty =
  GammaBetaBackwardCUDAKernel M N dY' X' mean' rstd' dg db smem 32 16 b tx ty.
Proof.
  intros Hy. rewrite !GammaBetaBackward_thread by exact Hy.
  destruct (Nat.eqb tx 0); [| reflexivity]. cbv zeta.
  assert (Hg : forall j,
             (if Nat.ltb j N
              then store_if dg j
                     (sumn M (fun i => dg_term dY X mean rstd dg i (i * N + j)))
              else []) =
             (if Nat.ltb j N
              then store_if dg j
                     (sumn M (fun i =>
                        dg_term dY' X' mean' rstd' dg i (i * N + j)))
              else [])).
  { intros j. destruct (Nat.ltb j N) eqn:Hj; [| reflexivity].
    apply Nat.ltb_lt in Hj. now rewrite (dg_term_sum_agree dg _ Hj). }
  assert (Hb : forall j,
             (if Nat.ltb j N
              then store_if db j (sumn M (fun i => db_term dY db (i * N + j)))
              else []) =
             (if Nat.ltb j N
              then store_if db j (sumn M (fun i => db_term dY' db (i * N + j)))
              else [])).
  { intros j. destruct (Nat.ltb j N) eqn:Hj; [| reflexivity].
    apply Nat.ltb_lt in Hj. now rewrite (db_term_sum_agree db _ Hj). }
  now rewrite !Hg, !Hb.
Qed.

End BackwardInBounds.

(** X16.  With a block the reduction accepts and rows of [N >= 1]
    columns, the launches of the backward entry point read [dY] and [X]
    only below [M * N], [mean] and [rstd] only below [M] and [gamma] only
    below [N]: inputs that agree there give the same input gradient and
    the same stores to the parameter gradients, on the simple path and
    on the tiled path. *)
Theorem backward_reads_in_bounds (B : nat) (uninit : buffer) (M N : nat)
    (dY dY' X X' mean mean' rstd rstd' : buffer)
    (gamma gamma' : option buffer) (dX : Tensor) (dg db : option buffer) :
  reducible_block B -> (1 <= N)%nat ->
  agree_below (M * N) dY dY' -> agree_below (M * N) X X' ->
  agree_below M mean mean' -> agree_below M rstd rstd' ->
  agree_below_opt N gamma gamma' ->
  backward_dX_launches B uninit M N dY X mean rstd gamma dX =
    backward_dX_launches B uninit M N dY' X' mean' rstd' gamma' dX /\
  backward_gamma_beta_launch uninit (Z.of_nat M) (Z.of_nat N)
    dY X mean rstd dg db =
    backward_gamma_beta_launch uninit (Z.of_nat M) (Z.of_nat N)
      dY' X' mean' rstd' dg db.
Proof.
  intros HB HN HdY HX Hmean Hrstd Hgamma. split.
  - unfold backward_dX_launches, backward_dX_launches_on.
    rewrite !ComputeInternalGradients_launch by exact HB.
    change (fun i => sumn N (fun j => at_ N dY i j * at_ N X i j *
                                      read_or gamma 1 j))
      with (row_ds N dY X gamma).
    change (fun i => sumn N (fun j => at_ N dY i j * read_or gamma 1 j))
      with (row_db N dY gamma).
    change (fun i => sumn N (fun j => at_ N dY' i j * at_ N X' i j *
                                      read_or gamma' 1 j))
      with (row_ds N dY' X' gamma').
    change (fun i => sumn N (fun j => at_ N dY' i j * read_or gamma' 1 j))
      with (row_db N dY' gamma').
    rewrite (vector_writes_ext M (row_ds N dY X gamma)
               (row_ds N dY' X' gamma')
               (row_ds_agree M N dY dY' X X' gamma gamma' HdY HX Hgamma)).
    rewrite (vector_writes_ext M (row_db N dY gamma) (row_db N dY' gamma')
               (row_db_agree M N dY dY' gamma gamma' HdY Hgamma)).
    set (ds := commit uninit (vector_writes M (row_ds N dY' X' gamma'))).
    set (db' := commit uninit (vector_writes M (row_db N dY' gamma'))).
    rewrite (launch2_partial_ext _ kCUDANumThreads
               (ComputeGradientFusedParamsCUDAKernel M N mean rstd ds db'
                  kCUDANumThreads)
               (ComputeGradientFusedParamsCUDAKernel M N mean' rstd' ds db'
                  kCUDANumThreads)).
    + destruct (launch2_partial _ kCUDANumThreads
                  (ComputeGradientFusedParamsCUDAKernel M N mean' rstd' ds db'
                     kCUDANumThreads)) as [[c1_ws c2_ws] |]; [| reflexivity].
      cbn [Acc.bind]. do 2 f_equal. apply launch_ext. intros i t Hi _.
      now apply (LayerNormBackward_agree M).
    + intros b t _ _.
      rewrite !ComputeGradientFusedParams_thread by exact HN.
      destruct (Nat.ltb (uint32 (b * kCUDANumThreads + t)) M) eqn:E;
        [| reflexivity].
      apply Nat.ltb_lt in E. unfold fused_c2, fused_c1.
      now rewrite (Hmean _ E), (Hrstd _ E).
  - rewrite !backward_gamma_beta_launch_select, !Nat2Z.id.
    destruct (Z.ltb (Z.of_nat M) 512).
    + apply launch2_ext. intros b t _ _.
      now apply GammaBetaBackwardSimple_agree.
    + unfold launch2_xy. apply launch2_ext. intros b t _ Ht.
      apply GammaBetaBackward_agree; try assumption.
      apply Nat.Div0.div_lt_upper_bound. lia.
Qed.

Lemma backward_reads_in_bounds_witness :
  reducible_block 32 /\ (1 <= 2)%nat /\
  backward_dX_launches 32 (fun _ => 0) 1 2
    (fun k => if Nat.ltb k 2 then 1 else 0) (fun _ => 2) (fun _ => 2)
    (fun _ => 1) None (mkTensor 2 (fun _ => 0)) =
  backward_dX_launches 32 (fun _ => 0) 1 2
    (fun _ => 1) (fun _ => 2) (fun _ => 2)
    (fun _ => 1) None (mkTensor 2 (fun _ => 0)).
Proof.
  split; [exact reducible_block_32 | split; [lia |]].
  apply (backward_reads_in_bounds 32 (fun _ => 0) 1 2
           (fun k => if Nat.ltb k 2 then 1 else 0) (fun _ => 1)
           (fun _ => 2) (fun _ => 2) (fun _ => 2) (fun _ => 2)
           (fun _ => 1) (fun _ => 1) None None (mkTensor 2 (fun _ => 0))
           None None reducible_block_32).
  - lia.
  - intros k Hk. apply Nat.ltb_lt in Hk. cbn [Nat.mul Nat.add] in Hk.
    now rewrite Hk.
  - intros k _. reflexivity.
  - intros k _. reflexivity.
  - intros k _. reflexivity.
  - exact I.
Defined.

(** ** The backward entry point, end to end *)

(** X17.  In exact arithmetic, a backward call whose sizes pass the
    checks, with at least one row and no more rows than a grid has blocks
    ([maxGridSize], 2^31 - 1), between 1 and 2^32 columns and all three
    gradients requested, each with elements, always has a result: it
    returns (or reports the device error) after writing the input gradient
    of every element, [dgamma[j]] as the sum over the rows of
    [dY[i,j] * (X[i,j] - mean[i]) * rstd[i]] and [dbeta[j]] as the sum over
    the rows of [dY[i,j]], whichever of the two parameter-gradient kernels
    [M] selects.  The element counts of the outputs are kept and nothing is
    written beyond the [M * N] elements of [dX] and the [N] elements of
    [dgamma] and [dbeta]. *)
Theorem backward_entry_gradients (B : nat) (err : cudaError_t)
    (uninit : buffer) (dY X mean rstd : Tensor) (gamma : option Tensor)
    (M N : nat) (dX dgamma dbeta : Tensor) :
  reducible_block B ->
  backward_checks dY X mean rstd gamma (Z.of_nat M) (Z.of_nat N) = true ->
  (1 <= M)%nat -> (Z.of_nat M <= maxGridSize)%Z ->
  (1 <= N)%nat -> (Z.of_nat N <= 2 ^ 32)%Z ->
  numel dX <> 0%Z -> numel dgamma <> 0%Z -> numel dbeta <> 0%Z ->
  exists dX1 dg1 db1,
    LayerNormBackwardKernelImplInternal B err uninit dY X mean rstd gamma
      (Z.of_nat M) (Z.of_nat N) (Some dX, Some dgamma, Some dbeta) =
      AT_CUDA_CHECK err (Some dX1, Some dg1, Some db1) /\
    (numel dX1 = numel dX /\ numel dg1 = numel dgamma /\
     numel db1 = numel dbeta) /\
    (forall i j, (i < M)%nat -> (j < N)%nat ->
       data_ptr dX1 (i * N + j)%nat =
       dX_value N (data_ptr dY) (data_ptr X) (data_ptr mean) (data_ptr rstd)
         (data_or_null gamma) i j) /\
    (forall j, (j < N)%nat ->
       data_ptr dg1 j =
         sumn M (fun i => data_ptr dY (i * N + j)%nat *
                          (data_ptr X (i * N + j)%nat - data_ptr mean i) *
                          data_ptr rstd i) /\
       data_ptr db1 j = sumn M (fun i => data_ptr dY (i * N + j)%nat)) /\
    (forall k, (M * N <= k)%nat -> data_ptr dX1 k = data_ptr dX k) /\
    (forall k, (N <= k)%nat ->
       data_ptr dg1 k = data_ptr dgamma k /\
       data_ptr db1 k = data_ptr dbeta k).
Proof.
  intros HB Hc HM Hgrid HN HN32 HdX Hdg Hdb.
  assert (HM32 : (Z.of_nat M <= 2 ^ 32)%Z)
    by (unfold maxGridSize in Hgrid; lia).
  rewrite (backward_entry_dX B err uninit dY X mean rstd gamma M N dX
             (Some dgamma) (Some dbeta) HB Hc HM Hgrid HN HdX).
  cbv zeta. cbn [option_map].
  destruct (backward_dX_launches_values B uninit M N (data_ptr dY)
              (data_ptr X) (data_ptr mean) (data_ptr rstd)
              (data_or_null gamma) dX HB HN HM32) as (d1 & E & Hv).
  pose proof (backward_dX_launches_defined B uninit M N (data_ptr dY)
                (data_ptr X) (data_ptr mean) (data_ptr rstd)
                (data_or_null gamma) dX HB HN HM32) as Ed.
  cbv zeta in Ed. rewrite E in Ed. injection Ed as Ed. subst d1.
  eexists _, _, _. split; [reflexivity |].
  rewrite (data_or_null_some dgamma Hdg), (data_or_null_some dbeta Hdb).
  assert (HNZ : (0 <= Z.of_nat N <= 2 ^ 32)%Z) by lia.
  pose proof (fun b k =>
                backward_gamma_beta_launch_effect uninit (Z.of_nat M)
                  (Z.of_nat N) (data_ptr dY) (data_ptr X) (data_ptr mean)
                  (data_ptr rstd) (Some (data_ptr dgamma))
                  (Some (data_ptr dbeta)) b k HNZ) as Hgb.
  cbv zeta in Hgb. rewrite !Nat2Z.id in Hgb.
  split; [| split; [| split; [| split]]].
  - split; [| split]; reflexivity.
  - exact Hv.
  - intros j Hj. cbn [written data_ptr].
    rewrite (proj1 (Hgb (data_ptr dgamma) j)),
      (proj2 (Hgb (data_ptr dbeta) j)).
    unfold reduced_into.
    rewrite (proj2 (Nat.ltb_lt j N) Hj). split; reflexivity.
  - intros k Hk. cbn [written data_ptr].
    apply (commit_matrix M N _ _ (data_ptr dX)
             (LayerNormBackward_launch M N kCUDANumThreads _ _ _ _ _ _
                kCUDANumThreads_pos)).
    exact Hk.
  - intros k Hk. cbn [written data_ptr].
    rewrite (proj1 (Hgb (data_ptr dgamma) k)),
      (proj2 (Hgb (data_ptr dbeta) k)).
    unfold reduced_into.
    rewrite (proj2 (Nat.ltb_ge k N) Hk). split; reflexivity.
Qed.

Lemma backward_entry_gradients_witness :
  let T := mkTensor 2 (fun k => INR k) in
  let S1 := mkTensor 1 (fun _ => 1) in
  let O := mkTensor 2 (fun _ => 0) in
  reducible_block 32 /\
  backward_checks T T S1 S1 None (Z.of_nat 1) (Z.of_nat 2) = true /\
  (1 <= 1)%nat /\ (Z.of_nat 1 <= maxGridSize)%Z /\
  (1 <= 2)%nat /\ (Z.of_nat 2 <= 2 ^ 32)%Z /\ numel O <> 0%Z /\
  exists out,
    LayerNormBackwardKernelImplInternal 32 cudaSuccess (fun _ => 0) T T S1 S1
      None (Z.of_nat 1) (Z.of_nat 2) (Some O, Some O, Some O) =
    (Returned, out).
Proof.
  intros T S1 O.
  assert (Hgrid : (Z.of_nat 1 <= maxGridSize)%Z) by (unfold maxGridSize; lia).
  assert (H32 : (Z.of_nat 2 <= 2 ^ 32)%Z) by lia.
  assert (HO : numel O <> 0%Z) by discriminate.
  split; [exact reducible_block_32 |]. split; [reflexivity |].
  split; [lia |]. split; [exact Hgrid |]. split; [lia |].
  split; [exact H32 |]. split; [exact HO |].
  destruct (backward_entry_gradients 32 cudaSuccess (fun _ => 0) T T S1 S1
              None 1 2 O O O reducible_block_32 eq_refl (le_n 1) Hgrid
              (le_S 1 1 (le_n 1)) H32 HO HO HO)
    as (d1 & g1 & b1 & E & _).
  exists (Some d1, Some g1, Some b1). exact E.
Defined.

(** ** The largest [rstd] *)

Lemma suml_zero_terms (l : list nat) (f : nat -> R) :
  (forall j, 0 <= f j) -> suml l f = 0 -> forall j, In j l -> f j = 0.
Proof.
  intros Hf. unfold suml. induction l as [| a l IH]; cbn [fold_right In].
  - intros _ j [].
  - intros Hs j Hj.
    pose proof (Hf a) as Ha.
    pose proof (suml_nonneg l f Hf) as Hl. unfold suml in Hl.
    destruct Hj as [<- | Hj]; [lra |]. apply IH; [lra | exact Hj].
Qed.

Lemma row_m2_zero_iff (N : nat) (X : buffer) (i : nat) :
  (1 <= N)%nat ->
  (row_m2 N X i = 0 <->
   exists v, forall j, (j < N)%nat -> X (i * N + j)%nat = v).
Proof.
  intros HN. split.
  - intros H0. exists (row_mean N X i). intros j Hj.
    unfold row_m2 in H0. rewrite sumn_suml in H0.
    pose proof (suml_zero_terms (seq 0 N)
                  (fun j => (at_ N X i j - row_mean N X i) *
                            (at_ N X i j - row_mean N X i))
                  (fun j => Rle_0_sqr _) H0 j) as Hj0.
    cbv beta in Hj0. unfold at_ in Hj0.
    assert (Hin : In j (seq 0 N)) by (apply in_seq; lia).
    specialize (Hj0 Hin).
    destruct (Rmult_integral _ _ Hj0); lra.
  - intros [v Hv]. now apply (row_m2_constant N X i v).
Qed.

(** X18.  In exact arithmetic, with [eps > 0] and rows of [N >= 1]
    columns, the moment pass stores in every [rstd[i]] a number that is at
    most [1/sqrt(eps)], and it stores exactly [1/sqrt(eps)] for the rows
    whose elements are all equal and for no other row. *)
Theorem rstd_largest_on_constant_rows (B M N : nat) (eps : R) (X rstd : buffer) :
  reducible_block B -> (1 <= N)%nat -> 0 < eps ->
  exists mean_ws rstd_ws,
    launch2_partial M B (RowwiseMomentsCUDAKernel N eps X B) =
      Some (mean_ws, rstd_ws) /\
    forall i, (i < M)%nat ->
      commit rstd rstd_ws i <= / sqrt eps /\
      (commit rstd rstd_ws i = / sqrt eps <->
       exists v, forall j, (j < N)%nat -> X (i * N + j)%nat = v).
Proof.
  intros HB HN Heps. eexists _, _. split.
  - apply RowwiseMoments_launch; auto.
    intros i _. now apply radicand_positive.
  - intros i Hi.
    rewrite (proj1 (commit_vector M (row_rstd N eps X) rstd) i Hi).
    unfold row_rstd. rewrite row_radicand_unclamped by exact HN.
    pose proof (row_m2_nonneg N X i) as Hm2.
    assert (HNpos : 0 < INR N) by (apply lt_0_INR; lia).
    assert (Hq : 0 <= row_m2 N X i / INR N).
    { apply Rmult_le_pos; [exact Hm2 |].
      left. now apply Rinv_0_lt_compat. }
    assert (Hse : 0 < sqrt eps) by now apply sqrt_lt_R0.
    assert (Hle : sqrt eps <= sqrt (row_m2 N X i / INR N + eps))
      by (apply sqrt_le_1; lra).
    split.
    + apply Rinv_le_contravar; assumption.
    + rewrite <- (row_m2_zero_iff N X i HN). split.
      * intros E.
        assert (E1 : sqrt (row_m2 N X i / INR N + eps) = sqrt eps).
        { rewrite <- (Rinv_inv (sqrt (row_m2 N X i / INR N + eps))), E.
          apply Rinv_inv. }
        apply sqrt_inj in E1; [| lra | lra].
        assert (E2 : row_m2 N X i / INR N = 0) by lra.
        unfold Rdiv in E2. destruct (Rmult_integral _ _ E2) as [H | H];
          [exact H |].
        exfalso. revert H. apply Rinv_neq_0_compat. lra.
      * intros ->. unfold Rdiv. now rewrite Rmult_0_l, Rplus_0_l.
Qed.

Lemma rstd_largest_on_constant_rows_witness :
  reducible_block 32 /\ (1 <= 2)%nat /\ 0 < 1 /\
  exists mean_ws rstd_ws,
    launch2_partial 1 32 (RowwiseMomentsCUDAKernel 2 1 (fun _ => 3) 32) =
      Some (mean_ws, rstd_ws) /\
    commit (fun _ => 0) rstd_ws 0%nat <= / sqrt 1.
Proof.
  split; [exact reducible_block_32 | split; [lia | split; [lra |]]].
  destruct (rstd_largest_on_constant_rows 32 1 2 1 (fun _ => 3) (fun _ => 0)
              reducible_block_32 (le_S 1 1 (le_n 1)) Rlt_0_1)
    as (mws & rws & E & H).
  exists mws, rws. split; [exact E |].
  exact (proj1 (H 0%nat (le_n 1))).
Defined.

(** ** The grids have no idle block *)

Lemma grid_tight (n block b : nat) :
  (0 < block)%nat ->
  (b < Z.to_nat (Z.quot (Z.of_nat n + Z.of_nat block - 1) (Z.of_nat block)))%nat ->
  (b * block < n)%nat.
Proof.
  intros Hblock Hb.
  rewrite Z.quot_div_nonneg in Hb by lia.
  pose proof (Z.mul_div_le (Z.of_nat n + Z.of_nat block - 1) (Z.of_nat block))
    as Hq.
  assert (Hq' : (Z.of_nat block *
                 ((Z.of_nat n + Z.of_nat block - 1) / Z.of_nat block) <=
                 Z.of_nat n + Z.of_nat block - 1)%Z) by (apply Hq; lia).
  assert (Hnn : (0 <= (Z.of_nat n + Z.of_nat block - 1) / Z.of_nat block)%Z)
    by (apply Z.div_pos; lia).
  nia.
Qed.

(** X19.  For at most 2^32 rows and between 1 and 2^32 columns, the
    grids the backward entry point computes by rounding up are tight: in
    every block of the coefficient launch, of the simple
    parameter-gradient launch and of the tiled one, thread 0 passes the
    bounds guard and stores an element, so that no block is launched for
    nothing. *)
Theorem launch_grids_have_no_idle_block (M N : nat)
    (dY X mean rstd ds db smem : buffer) (dg : buffer) (dbeta : option buffer)
    (b : nat) :
  (1 <= N)%nat -> (Z.of_nat M <= 2 ^ 32)%Z -> (Z.of_nat N <= 2 ^ 32)%Z ->
  ((b < grid_blocks (Z.quot (Z.of_nat M + Z.of_nat kCUDANumThreads - 1)
                            (Z.of_nat kCUDANumThreads)))%nat ->
   exists v1 v2,
     ComputeGradientFusedParamsCUDAKernel M N mean rstd ds db
       kCUDANumThreads b 0 =
     Some ([((b * kCUDANumThreads)%nat, v1)],
           [((b * kCUDANumThreads)%nat, v2)])) /\
  ((b < grid_blocks (Z.quot (Z.of_nat N + Z.of_nat kCUDANumThreads - 1)
                            (Z.of_nat kCUDANumThreads)))%nat ->
   exists v,
     fst (GammaBetaBackwardSimpleCUDAKernel M N dY X mean rstd (Some dg) dbeta
            kCUDANumThreads b 0) = [((b * kCUDANumThreads)%nat, v)]) /\
  ((b < grid_blocks (Z.quot (Z.of_nat N +
                             Z.of_nat kColwiseReduceTileSize - 1)
                            (Z.of_nat kColwiseReduceTileSize)))%nat ->
   exists v ws,
     fst (GammaBetaBackwardCUDAKernel M N dY X mean rstd (Some dg) dbeta smem
            32 16 b 0 0) = ((b * 32)%nat, v) :: ws).
Proof.
  intros HN HM32 HN32.
  assert (HMZ : (0 <= Z.of_nat M <= 2 ^ 32)%Z) by lia.
  assert (HNZ : (0 <= Z.of_nat N <= 2 ^ 32)%Z) by lia.
  split; [| split]; intros Hb.
  - rewrite (proj1 (column_grid (Z.of_nat M) kCUDANumThreads HMZ
                      (or_introl eq_refl))) in Hb.
    apply grid_tight in Hb; [| exact kCUDANumThreads_pos].
    rewrite ComputeGradientFusedParams_thread by exact HN.
    rewrite Nat.add_0_r, uint32_small by lia.
    rewrite (proj2 (Nat.ltb_lt _ _) Hb).
    eexists _, _. reflexivity.
  - rewrite (proj1 (column_grid (Z.of_nat N) kCUDANumThreads HNZ
                      (or_introl eq_refl))) in Hb.
    apply grid_tight in Hb; [| exact kCUDANumThreads_pos].
    rewrite GammaBetaBackwardSimple_thread. cbv zeta.
    rewrite Nat.add_0_r, uint32_small by lia.
    rewrite (proj2 (Nat.ltb_lt _ _) Hb).
    eexists. reflexivity.
  - rewrite (proj1 (column_grid (Z.of_nat N) kColwiseReduceTileSize HNZ
                      (or_intror eq_refl))) in Hb.
    apply grid_tight in Hb; [| unfold kColwiseReduceTileSize; lia].
    change kColwiseReduceTileSize with 32%nat in Hb.
    rewrite GammaBetaBackward_thread by lia.
    cbn [Nat.eqb]. cbv zeta.
    rewrite Nat.add_0_r, uint32_small by lia.
    rewrite (proj2 (Nat.ltb_lt _ _) Hb).
    eexists _, _. reflexivity.
Qed.

Lemma launch_grids_have_no_idle_block_witness :
  (1 <= 300)%nat /\ (Z.of_nat 2 <= 2 ^ 32)%Z /\
  (Z.of_nat 300 <= 2 ^ 32)%Z /\
  exists v,
    fst (GammaBetaBackwardSimpleCUDAKernel 2 300 (fun _ => 1) (fun _ => 2)
           (fun _ => 0) (fun _ => 1) (Some (fun _ => 0)) None
           kCUDANumThreads 1 0) = [((1 * kCUDANumThreads)%nat, v)].
Proof.
  assert (HM : (Z.of_nat 2 <= 2 ^ 32)%Z) by lia.
  assert (HN : (Z.of_nat 300 <= 2 ^ 32)%Z) by lia.
  split; [lia |]. split; [exact HM |]. split; [exact HN |].
  apply (launch_grids_have_no_idle_block 2 300 (fun _ => 1) (fun _ => 2)
           (fun _ => 0) (fun _ => 1) (fun _ => 0) (fun _ => 0) (fun _ => 0)
           (fun _ => 0) None 1 ltac:(lia) HM HN).
  vm_compute. lia.
Defined.

(** ** The block size of the reductions *)

(** X20.  In exact arithmetic the results do not depend on the number of
    threads of the reducing blocks: with rows of [N >= 1] columns and
    [eps > 0], any two block sizes the reduction accepts give the same
    forward outputs and the same input gradient, although they split each
    row among the threads and merge the partial results differently. *)
Theorem results_independent_of_block_size (B1 B2 : nat) (uninit : buffer)
    (M N : nat) (eps : R) (dY X mean rstd : buffer)
    (gamma beta : option buffer) (out : forward_out) (dX : Tensor) :
  reducible_block B1 -> reducible_block B2 -> (1 <= N)%nat -> 0 < eps ->
  forward_launches B1 M N eps X gamma beta out =
    forward_launches B2 M N eps X gamma beta out /\
  backward_dX_launches B1 uninit M N dY X mean rstd gamma dX =
    backward_dX_launches B2 uninit M N dY X mean rstd gamma dX.
Proof.
  intros H1 H2 HN Heps. split.
  - destruct out as [[Y m] r].
    rewrite !forward_launches_closed;
      try assumption; try (intros i _; now apply radicand_positive).
    reflexivity.
  - unfold backward_dX_launches, backward_dX_launches_on.
    now rewrite !ComputeInternalGradients_launch by assumption.
Qed.

Lemma reducible_block_64 : reducible_block 64.
Proof. unfold reducible_block, C10_WARP_SIZE. cbn. lia. Qed.

Lemma results_independent_of_block_size_witness :
  reducible_block 32 /\ reducible_block 64 /\ (1 <= 2)%nat /\ 0 < 1 /\
  forward_launches 32 1 2 1 (fun k => INR k) None None
    (mkTensor 2 (fun _ => 0), mkTensor 1 (fun _ => 0), mkTensor 1 (fun _ => 0)) =
  forward_launches 64 1 2 1 (fun k => INR k) None None
    (mkTensor 2 (fun _ => 0), mkTensor 1 (fun _ => 0), mkTensor 1 (fun _ => 0)).
Proof.
  split; [exact reducible_block_32 |].
  split; [exact reducible_block_64 |].
  split; [lia |]. split; [lra |].
  apply (results_independent_of_block_size 32 64 (fun _ => 0) 1 2 1
           (fun _ => 0) (fun k => INR k) (fun _ => 0) (fun _ => 0) None None
           (mkTensor 2 (fun _ => 0), mkTensor 1 (fun _ => 0),
            mkTensor 1 (fun _ => 0))
           (mkTensor 2 (fun _ => 0)) reducible_block_32 reducible_block_64);
    [lia | lra].
Defined.
